(** * genshin-mats-exporter: a shallow embedding of [genshin.py]

    The development follows the source file top-down: the ordered
    dictionaries Python gives the program, the remote response handling
    ([_req]), the greedy cover ([find_min_entity_needed]), the request
    list of [calculate_selected_materials], the surplus redistribution
    ([process_item_iterative]) and the clean-up pass
    ([clean_up_materials]) with its name normalization and tier table.
    Then come the definitions the properties are stated with, and the
    properties, in the same order. *)

From Stdlib Require Import ZArith Ascii String.
From stdpp Require Import base option list sorting gmap strings.

Local Open Scope Z_scope.

(** ** Python dictionaries

    A Python [dict] keeps its keys in insertion order, and two places of
    the program depend on that order (the tie-break of the greedy cover
    and the stable sort of [clean_up_materials]), so a dictionary is an
    association list in insertion order.  Assigning to a key that is
    present replaces the value where it stands; assigning to a new key
    appends. *)

Section Dict.
Context {K V : Type} `{EqDecision K}.

(** [d[k]]; [None] stands for [KeyError]. *)
Fixpoint dict_get (k : K) (d : list (K * V)) : option V :=
  match d with
  | [] => None
  | (k', v) :: d' => if decide (k = k') then Some v else dict_get k d'
  end.

(** [d[k] = v] *)
Fixpoint dict_set (k : K) (v : V) (d : list (K * V)) : list (K * V) :=
  match d with
  | [] => [(k, v)]
  | (k', v') :: d' =>
      if decide (k = k') then (k, v) :: d' else (k', v') :: dict_set k v d'
  end.

(** [del d[k]] *)
Fixpoint dict_del (k : K) (d : list (K * V)) : list (K * V) :=
  match d with
  | [] => []
  | (k', v') :: d' =>
      if decide (k = k') then d' else (k', v') :: dict_del k d'
  end.

Definition dict_keys (d : list (K * V)) : list K := d.*1.
Definition dict_values (d : list (K * V)) : list V := d.*2.

(** A dictionary has each key once. *)
Definition dict_wf (d : list (K * V)) : Prop := NoDup (dict_keys d).
End Dict.

(** ** Remote responses: [_req] (lines 56-66) *)

(** What [r.json()] can hold. *)
#[local] Set Warnings "-register-all".
Inductive json :=
| JNull
| JBool (b : bool)
| JInt (n : Z)
| JStr (s : string)
| JArr (l : list json)
| JObj (o : list (string * json)).

(** The truth value Python's [not] tests. *)
Definition py_truthy (v : json) : bool :=
  match v with
  | JNull => false
  | JBool b => b
  | JInt n => negb (bool_decide (n = 0))
  | JStr s => negb (bool_decide (s = EmptyString))
  | JArr l => match l with [] => false | _ => true end
  | JObj o => match o with [] => false | _ => true end
  end.

(** The parsed body: [data["retcode"]], [data["message"]] and
    [data["data"]], an object ([_req] calls [keys()] on it). *)
Record response := Response {
  retcode : Z;
  message : string;
  data : list (string * json)
}.

(** The one exception class of the module. *)
Inductive HoyoLabException := HoyoLabError (msg : string).

Definition invalid_identity_message : string :=
  "Either the UID or Cookies are invalid.".

(** Lines 61-66, from the parsed body on. *)
Definition _req (r : response) : HoyoLabException + list (string * json) :=
  if bool_decide (retcode r ≠ 0) then inl (HoyoLabError (message r))
  else
    match dict_get "HasUserInfo"%string (data r) with
    | Some v =>
        if negb (py_truthy v) then inl (HoyoLabError invalid_identity_message)
        else inr (data r)
    | None => inr (data r)
    end.

(** The two ways a parsed body is an error. *)
Definition remote_failure (r : response) : Prop := retcode r ≠ 0.
Definition invalid_identity (r : response) : Prop :=
  retcode r = 0 ∧
  ∃ v, dict_get "HasUserInfo"%string (data r) = Some v ∧ py_truthy v = false.
Definition raises (r : response) : Prop := ∃ e, _req r = inl e.

(** ** The greedy cover: [find_min_entity_needed] (lines 117-144) *)

(** Lines 121-123. *)
Definition all_materials_of (item_materials_dict : list (Z * list Z)) : gset Z :=
  foldl (λ acc materials, acc ∪ list_to_set materials) ∅
    (dict_values item_materials_dict).

(** The [for] loop of lines 134-138 on [(best_entity, best_coverage)]. *)
Definition best_step (covered_materials : gset Z)
    (best : option Z * gset Z) (entry : Z * list Z) : option Z * gset Z :=
  let new_coverage := list_to_set entry.2 ∖ covered_materials in
  if bool_decide (size best.2 < size new_coverage)%nat
  then (Some entry.1, new_coverage)
  else best.

Definition scan_best (covered_materials : gset Z)
    (pool : list (Z * list Z)) : option Z * gset Z :=
  foldl (best_step covered_materials) (None, ∅) pool.

(** The variables the [while] loop changes. *)
Record cover_state := CoverState {
  pool : list (Z * list Z);
  selected_entities : list Z;
  covered_materials : gset Z
}.

(** The body of the [while] loop (lines 130-142); [None] is the
    [TypeError] of [int(None)].  The keys are entity ids, on which [int]
    does nothing. *)
Definition cover_step (st : cover_state) : option cover_state :=
  let best := scan_best (covered_materials st) (pool st) in
  match best.1 with
  | None => None
  | Some best_entity =>
      Some (CoverState (dict_del best_entity (pool st))
              (selected_entities st ++ [best_entity])
              (covered_materials st ∪ best.2))
  end.

Inductive outcome (A : Type) :=
| Returned (a : A)
| Raised
| OutOfFuel.
Arguments Returned {A} a.
Arguments Raised {A}.
Arguments OutOfFuel {A}.

(** [while covered_materials != all_materials], at most [fuel] rounds. *)
Fixpoint cover_loop (fuel : nat) (all_materials : gset Z) (st : cover_state)
    : outcome (list Z) :=
  if bool_decide (covered_materials st = all_materials)
  then Returned (selected_entities st)
  else
    match fuel with
    | O => OutOfFuel
    | S fuel' =>
        match cover_step st with
        | None => Raised
        | Some st' => cover_loop fuel' all_materials st'
        end
    end.

Definition cover_init (item_materials_dict : list (Z * list Z)) : cover_state :=
  CoverState item_materials_dict [] ∅.

(** The loop run for as many rounds as the dictionary has entries. *)
Definition find_min_entity_needed (item_materials_dict : list (Z * list Z))
    : outcome (list Z) :=
  cover_loop (length item_materials_dict)
    (all_materials_of item_materials_dict) (cover_init item_materials_dict).

(** The states the loop goes through from [st0]: a round is run when its
    guard holds. *)
Inductive cover_reach (all_materials : gset Z) (st0 : cover_state)
    : cover_state → Prop :=
| cover_reach_refl : cover_reach all_materials st0 st0
| cover_reach_step st st' :
    cover_reach all_materials st0 st →
    covered_materials st ≠ all_materials →
    cover_step st = Some st' →
    cover_reach all_materials st0 st'.

(** The union of the material sets of the entities of a result. *)
Definition combined_materials (item_materials_dict : list (Z * list Z))
    (entities : list Z) : gset Z :=
  ⋃ ((λ e, list_to_set (default [] (dict_get e item_materials_dict))) <$> entities).

(** ** The request list of [calculate_selected_materials] (lines 185-207) *)

(** What [_generate_item_data] reads of a catalogue entry. *)
Record avatar := Avatar {
  avatar_ident : Z; avatar_element : Z; avatar_skill_groups : list Z
}.
Record weapon := Weapon { weapon_ident : Z; weapon_max_level : Z }.

(** The [weapon] object of a request. *)
Record weapon_data := WeaponData {
  wd_id : Z; wd_level_current : Z; wd_level_target : Z
}.

(** A character request; [None] is the empty [weapon] object it is born
    with. *)
Record avatar_data := AvatarData {
  ad_avatar_id : Z;
  ad_avatar_level_current : Z;
  ad_avatar_level_target : Z;
  ad_element_attr_id : Z;
  ad_skill_list : list (Z * Z * Z);
  ad_weapon : option weapon_data
}.

Inductive request :=
| CharacterRequest (a : avatar_data)
| WeaponRequest (w : weapon_data).

(** [_generate_item_data] (lines 99-115). *)
Definition generate_avatar_data (a : avatar) : avatar_data :=
  AvatarData (avatar_ident a) 1 90 (avatar_element a)
    ((λ g, (g, 1, 10)) <$> avatar_skill_groups a) None.
Definition generate_weapon_data (w : weapon) : weapon_data :=
  WeaponData (weapon_ident w) 1 (weapon_max_level w).

Definition set_weapon (w : weapon_data) (a : avatar_data) : avatar_data :=
  AvatarData (ad_avatar_id a) (ad_avatar_level_current a)
    (ad_avatar_level_target a) (ad_element_attr_id a) (ad_skill_list a)
    (Some w).

(** [[obj] * count]: [count] references to one object, none when
    [count <= 0]. *)
Definition times {A} (count : Z) (x : A) : list A :=
  replicate (Z.to_nat count) x.

(** Line 191.  The [count] entries made for one avatar are one object, so
    [avatar_body] is a list of references: the position of the avatar in
    [avatars_to_select], which is its object's address in [heap]. *)
Definition avatar_body_refs (count : Z) (n_avatars : nat) : list nat :=
  seq 0 n_avatars ≫= times count.

(** Line 192; the weapon objects are never written to. *)
Definition weapon_body_of (count : Z) (weapons_to_select : list weapon)
    : list weapon_data :=
  weapons_to_select ≫= (λ w, times count (generate_weapon_data w)).

(** Lines 200-201: the write goes to the shared object. *)
Definition attach_weapons (heap : list avatar_data)
    (pairs : list (nat * weapon_data)) : list avatar_data :=
  foldl (λ h p, alter (set_weapon p.2) p.1 h) heap pairs.

(** Lines 188-207: [calculate_list], read through the heap. *)
Definition calculate_list (avatars : list avatar) (weapons : list weapon)
    (entities : list Z) (count : Z) : list request :=
  let avatars_to_select :=
    filter (λ a, avatar_ident a ∈ entities) avatars in
  let weapons_to_select :=
    filter (λ w, weapon_ident w ∈ entities) weapons in
  let avatar_body := avatar_body_refs count (length avatars_to_select) in
  let weapon_body := weapon_body_of count weapons_to_select in
  let len_avatars := length avatar_body in
  let len_weapons := length weapon_body in
  let heap :=
    attach_weapons (generate_avatar_data <$> avatars_to_select)
      (zip avatar_body weapon_body) in
  let deref := λ r, CharacterRequest <$> heap !! r in
  if bool_decide (len_weapons < len_avatars)%nat
  then omap deref (avatar_body ++ drop len_weapons avatar_body)
  else omap deref avatar_body ++ (WeaponRequest <$> drop len_avatars weapon_body).

(** The number of selected characters and weapons. *)
Definition num_chars (avatars : list avatar) (entities : list Z) : nat :=
  length (filter (λ a, avatar_ident a ∈ entities) avatars).
Definition num_weapons (weapons : list weapon) (entities : list Z) : nat :=
  length (filter (λ w, weapon_ident w ∈ entities) weapons).

(** ** Redistribution: [process_item_iterative] (lines 221-238) *)

(** The value stored under a name in [cleaned_items]. *)
Record item := Item { good : string; id : Z; extra : Z; num : Z }.

Definition with_num (n : Z) (it : item) : item :=
  {| good := good it; id := id it; extra := extra it; num := n |}.

(** *** Division through a float (line 238)

    [e / 3 ** d] is Python's true division of two [int]s, whose result
    is a [float], and [int] drops the fraction of that float. *)

(** The integer nearest to [n / d], for [0 <= n] and [0 < d]; the even
    one of the two when [n / d] is half way between them. *)
Definition round_half_even (n d : Z) : Z :=
  let q := n / d in
  let r := n mod d in
  if bool_decide (2 * r < d) then q
  else if bool_decide (d < 2 * r) then q + 1
  else if Z.even q then q else q + 1.

(** The binary exponent of [a / b], for [0 < a] and [0 < b]: the [e]
    with [2 ^ (e - 1) <= a / b < 2 ^ e]. *)
Definition binade (a b : Z) : Z :=
  if bool_decide (b ≤ a) then Z.log2 (a / b) + 1
  else - Z.log2 ((b - 1) / a).

(** A Python [float], the binary64 number [mantissa * 2 ^ exponent]. *)
Record float := Float { mantissa : Z; exponent : Z }.

(** [a / b] on two [int]s, [0 < b]: CPython rounds the exact quotient
    to the nearest float, which has 53 significant bits, and fewer when
    it is below [2 ^ -1022]. *)
Definition true_divide (a b : Z) : float :=
  let ex := Z.max (binade (Z.abs a) b - 53) (-1074) in
  Float (Z.sgn a *
         (if bool_decide (0 ≤ ex) then round_half_even (Z.abs a) (b * 2 ^ ex)
          else round_half_even (Z.abs a * 2 ^ (- ex)) b))
        ex.

(** The rounded quotient is beyond the largest float: the division
    raises [OverflowError]. *)
Definition too_large (x : float) : bool :=
  bool_decide (2 ^ 1024 ≤ Z.abs (mantissa x) * 2 ^ exponent x).

(** [int(x)]: the fraction is dropped. *)
Definition int_of_float (x : float) : Z :=
  if bool_decide (0 ≤ exponent x) then mantissa x * 2 ^ exponent x
  else mantissa x ÷ 2 ^ (- exponent x).

(** [e / 3 ** d] for [d >= 0], where the power is an [int]. *)
Definition div_pow3 (e d : Z) : float := true_divide e (3 ^ d).

(** [int(e / 3 ** d)].  For [d < 0] Python computes [3 ** d] as the
    fraction [1 / 3^(-d)] and dividing by it multiplies (rounding left
    aside); the loop never gets there, the target being always after
    the source. *)
Definition int_div_pow3 (e d : Z) : Z :=
  if bool_decide (0 ≤ d) then int_of_float (div_pow3 e d)
  else e * 3 ^ (- d).

(** Lines 231-234: the first position [i], counted from the position of
    [names]'s head, whose item has [extra == 0].  The outer option is
    [KeyError]. *)
Fixpoint scan_zero_extra (good_result : list (string * item))
    (names : list string) (i : nat) : option (option nat) :=
  match names with
  | [] => Some None
  | name :: rest =>
      it ← dict_get name good_result;
      if bool_decide (extra it = 0) then Some (Some i)
      else scan_zero_extra good_result rest (S i)
  end.

(** [for i in range(current_index + 1, len(item_list))] *)
Definition search_from (good_result : list (string * item))
    (item_list : list string) (current_index : nat) : option (option nat) :=
  scan_zero_extra good_result (drop (S current_index) item_list)
    (S current_index).

(** Lines 229-234: the guard and the search it protects. *)
Definition refresh_next_valid_index (good_result : list (string * item))
    (item_list : list string) (current_index : nat)
    (next_valid_index : option nat) : option (option nat) :=
  match next_valid_index with
  | None => search_from good_result item_list current_index
  | Some j =>
      name ← item_list !! j;
      it ← dict_get name good_result;
      if bool_decide (extra it = 0)
      then search_from good_result item_list current_index
      else Some (Some j)
  end.

(** Lines 236-238; [None] is the [KeyError] of a missing name or the
    [OverflowError] of the division. *)
Definition adjust_target (good_result : list (string * item))
    (item_list : list string) (current_index : nat) (sub_item : string)
    (next_valid_index : option nat) : option (list (string * item)) :=
  match next_valid_index with
  | None => Some good_result
  | Some j =>
      target ← item_list !! j;
      t ← dict_get target good_result;
      src ← dict_get sub_item good_result;
      let d := Z.of_nat j - Z.of_nat current_index in
      if too_large (div_pow3 (extra src) d) then None
      else Some (dict_set target
                   (with_num (num t - int_div_pow3 (extra src) d) t)
                   good_result)
  end.

(** One adjustment: the chain it happened in is implicit, [ev_source] is
    [current_index], [ev_target] is [next_valid_index], [ev_name] is
    [item_list[next_valid_index]].  The log of events is ghost state: the
    program does not keep it. *)
Record event := Event { ev_source : nat; ev_target : nat; ev_name : string }.

(** The state of the inner [for] loop. *)
Record loop_state := LoopState {
  ls_good_result : list (string * item);
  ls_next_valid_index : option nat;
  ls_log : list event
}.

(** The body of the loop over [enumerate(item_list)] (lines 227-238). *)
Definition chain_step (item_list : list string) (current_index : nat)
    (sub_item : string) (st : loop_state) : option loop_state :=
  it ← dict_get sub_item (ls_good_result st);
  if bool_decide (0 < extra it) then
    nvi ← refresh_next_valid_index (ls_good_result st) item_list
            current_index (ls_next_valid_index st);
    gr ← adjust_target (ls_good_result st) item_list current_index sub_item nvi;
    Some (LoopState gr nvi
            (match nvi with
             | Some j =>
                 ls_log st ++
                 [Event current_index j (default sub_item (item_list !! j))]
             | None => ls_log st
             end))
  else Some st.

Fixpoint chain_loop (item_list : list string) (rest : list string)
    (current_index : nat) (st : loop_state) : option loop_state :=
  match rest with
  | [] => Some st
  | sub_item :: rest' =>
      st' ← chain_step item_list current_index sub_item st;
      chain_loop item_list rest' (S current_index) st'
  end.

(** One iteration of the outer loop: [next_valid_index = None], then the
    inner loop. *)
Definition process_chain (item_list : list string)
    (gl : list (string * item) * list event)
    : option (list (string * item) * list event) :=
  st ← chain_loop item_list item_list 0%nat (LoopState gl.1 None gl.2);
  Some (ls_good_result st, ls_log st).

Fixpoint process_chains (materials_group_to_check : list (list string))
    (gl : list (string * item) * list event)
    : option (list (string * item) * list event) :=
  match materials_group_to_check with
  | [] => Some gl
  | item_list :: groups =>
      gl' ← process_chain item_list gl;
      process_chains groups gl'
  end.

(** [process_item_iterative] with its log of adjustments. *)
Definition process_item_iterative_log
    (materials_group_to_check : list (list string))
    (good_result : list (string * item))
    : option (list (string * item) * list event) :=
  process_chains materials_group_to_check (good_result, []).

(** [process_item_iterative]: the dictionary as the call leaves it, or
    [None] when the call raises: a chain names a key the dictionary
    lacks, or a quotient is too large for a float. *)
Definition process_item_iterative
    (materials_group_to_check : list (list string))
    (good_result : list (string * item)) : option (list (string * item)) :=
  fst <$> process_item_iterative_log materials_group_to_check good_result.

(** ** Name normalization (lines 245-246)

    A name is a Python [str]; the model covers the ASCII names (code
    points below 128), which is where [capitalize] and [\W] are given by
    the tables below.  The functions work on the list of characters. *)

Definition code (c : ascii) : nat := nat_of_ascii c.

Definition is_ascii (c : ascii) : bool := bool_decide (code c < 128)%nat.
Definition is_upper (c : ascii) : bool :=
  bool_decide (65 ≤ code c)%nat && bool_decide (code c ≤ 90)%nat.
Definition is_lower (c : ascii) : bool :=
  bool_decide (97 ≤ code c)%nat && bool_decide (code c ≤ 122)%nat.
Definition is_digit (c : ascii) : bool :=
  bool_decide (48 ≤ code c)%nat && bool_decide (code c ≤ 57)%nat.

(** [\w]: a letter, a digit or the underscore. *)
Definition is_word (c : ascii) : bool :=
  is_upper c || is_lower c || is_digit c || bool_decide (code c = 95%nat).

Definition upper (c : ascii) : ascii :=
  if is_lower c then ascii_of_nat (code c - 32) else c.
Definition lower (c : ascii) : ascii :=
  if is_upper c then ascii_of_nat (code c + 32) else c.

Definition quote : ascii := ascii_of_nat 34.
Definition is_quote (c : ascii) : bool := bool_decide (c = quote).
(** The class [[- ]]. *)
Definition is_sep (c : ascii) : bool :=
  bool_decide (c = "-"%char) || bool_decide (c = " "%char).

(** [lstrip] of the double-quote character. *)
Fixpoint lstrip_quotes (s : list ascii) : list ascii :=
  match s with
  | c :: s' => if is_quote c then lstrip_quotes s' else s
  | [] => []
  end.

(** [material["name"].strip(...)]: double quotes off both ends. *)
Definition strip_quotes (s : list ascii) : list ascii :=
  reverse (lstrip_quotes (reverse (lstrip_quotes s))).

(** [re.split(r"[- ]", s)]: one more word than there are separators. *)
Fixpoint re_split (s : list ascii) : list (list ascii) :=
  match s with
  | [] => [[]]
  | c :: s' =>
      if is_sep c then [] :: re_split s'
      else match re_split s' with
           | w :: ws => (c :: w) :: ws
           | [] => [[c]]
           end
  end.

(** [word.capitalize()] *)
Definition capitalize (w : list ascii) : list ascii :=
  match w with
  | [] => []
  | c :: w' => upper c :: (lower <$> w')
  end.

(** [" ".join(words)] *)
Fixpoint join_space (words : list (list ascii)) : list ascii :=
  match words with
  | [] => []
  | [w] => w
  | w :: ws => w ++ " "%char :: join_space ws
  end.

(** [re.sub(r"[\W]", "", s)] *)
Definition strip_nonword (s : list ascii) : list ascii := filter is_word s.

Definition normalize_chars (name : list ascii) : list ascii :=
  strip_nonword (join_space (capitalize <$> re_split (strip_quotes name))).

(** [good_name] of a raw display name. *)
Definition normalize (name : string) : string :=
  string_of_list_ascii (normalize_chars (list_ascii_of_string name)).

Definition ascii_name (name : string) : Prop :=
  Forall (λ c, is_ascii c = true) (list_ascii_of_string name).

(** ** Tiers and chains: [clean_up_materials] (lines 240-284) *)

(** An entry of the list [calculate_selected_materials] returns. *)
Record material := Material {
  mat_id : Z; mat_name : string; mat_num : Z; mat_lack_num : Z; mat_extra : Z
}.

(** The body of the first loop (lines 245-256). *)
Definition clean_one (cleaned_items : list (string * item)) (m : material)
    : list (string * item) :=
  let good_name := normalize (mat_name m) in
  let new_num := mat_num m - mat_lack_num m + mat_extra m in
  let entry := Item good_name (mat_id m) (mat_extra m) new_num in
  match dict_get good_name cleaned_items with
  | None => dict_set good_name entry cleaned_items
  | Some old =>
      if bool_decide (num old < new_num)
      then dict_set good_name entry cleaned_items
      else cleaned_items
  end.

Definition cleaned_items_of (materials : list material)
    : list (string * item) :=
  foldl clean_one [] materials.

(** [sorted(..., key=lambda x: x["id"], reverse=True)]: a stable sort,
    items of equal id keep the order they had. *)
Fixpoint insert_by_id_desc (x : item) (l : list item) : list item :=
  match l with
  | [] => [x]
  | y :: l' =>
      if bool_decide (id y ≤ id x) then x :: y :: l'
      else y :: insert_by_id_desc x l'
  end.

Definition sorted_by_id_desc (l : list item) : list item :=
  foldr insert_by_id_desc [] l.

(** The [if]/[elif] of lines 268-274: the key of [material_groups] the
    item is appended to, if any. *)
Definition tier_of (item_id : Z) : option nat :=
  if bool_decide (114000 < item_id)
     || (bool_decide (104100 < item_id) && bool_decide (item_id < 104300))
  then Some 4%nat
  else if bool_decide (104300 < item_id) && bool_decide (item_id < 113000)
          && negb (bool_decide (item_id = 104319))
  then Some 3%nat
  else None.

(** The loop of lines 264-274 on the pair [(four_tiers, three_tiers)]. *)
Definition tier_step (groups : list item * list item) (it : item)
    : list item * list item :=
  match tier_of (id it) with
  | Some 4%nat => (groups.1 ++ [it], groups.2)
  | Some 3%nat => (groups.1, groups.2 ++ [it])
  | _ => groups
  end.

Definition material_groups (sorted_cleaned_items : list item)
    : list item * list item :=
  foldl tier_step ([], []) sorted_cleaned_items.

(** [[l[i:i + n] for i in range(0, len(l), n)]]; for [n > 0] there are at
    most [len(l)] slices, which is the fuel. *)
Fixpoint chunks_fuel {A} (fuel n : nat) (l : list A) : list (list A) :=
  match fuel with
  | O => []
  | S fuel' =>
      match l with
      | [] => []
      | _ => take n l :: chunks_fuel fuel' n (drop n l)
      end
  end.

Definition chunks {A} (n : nat) (l : list A) : list (list A) :=
  chunks_fuel (length l) n l.

(** The chains of one tier (lines 277-279). *)
Definition chains_of (tier : nat) (group : list item) : list (list string) :=
  (λ c, reverse (good <$> c)) <$> chunks tier group.

(** Lines 258-282: the keys of [material_groups] are 4, then 3. *)
Definition materials_group_to_check (cleaned_items : list (string * item))
    : list (list string) :=
  let groups := material_groups (sorted_by_id_desc (dict_values cleaned_items)) in
  reverse (chains_of 4 groups.1 ++ chains_of 3 groups.2).

Definition clean_up_materials (materials : list material)
    : option (list (string * item)) :=
  let cleaned_items := cleaned_items_of materials in
  process_item_iterative (materials_group_to_check cleaned_items) cleaned_items.

(** [dump_good]: the [materials] object of the export (line 293). *)
Definition dump_good_materials (good_result : list (string * item))
    : list (string * Z) :=
  foldl (λ out it, dict_set (good it) (num it) out) [] (dict_values good_result).

(** * Statements

    The definitions the properties below are stated with. *)

(** ** The greedy cover *)

(** What the loop of [find_min_entity_needed] keeps true: the pool is a
    dictionary made of entries of the catalog, the materials not yet
    covered are all in the pool, the covered materials are those of the
    selected entities, and an entity is in the pool or selected. *)
Definition cover_inv (item_materials_dict : list (Z * list Z))
    (st : cover_state) : Prop :=
  dict_wf (pool st) ∧
  (∀ p, p ∈ pool st → p ∈ item_materials_dict) ∧
  all_materials_of item_materials_dict
    = covered_materials st ∪ all_materials_of (pool st) ∧
  covered_materials st
    = combined_materials item_materials_dict (selected_entities st) ∧
  (length (pool st) + length (selected_entities st)
   = length item_materials_dict)%nat.

(** ** The request list *)

(** The length the specification gives for the request list. *)
Definition specified_length (count nc nw : Z) : Z :=
  count * Z.max nc nw + count * Z.abs (nc - nw).

(** ** The redistribution loop without a cached index

    The same loop where every source item searches from the position
    after its own; the properties compare [process_item_iterative] with
    it. *)
Definition rescan_step (item_list : list string) (current_index : nat)
    (sub_item : string) (gl : list (string * item) * list event)
    : option (list (string * item) * list event) :=
  it ← dict_get sub_item gl.1;
  if bool_decide (0 < extra it) then
    nvi ← search_from gl.1 item_list current_index;
    gr ← adjust_target gl.1 item_list current_index sub_item nvi;
    Some (gr,
          match nvi with
          | Some j =>
              gl.2 ++ [Event current_index j (default sub_item (item_list !! j))]
          | None => gl.2
          end)
  else Some gl.

Fixpoint rescan_loop (item_list : list string) (rest : list string)
    (current_index : nat) (gl : list (string * item) * list event)
    : option (list (string * item) * list event) :=
  match rest with
  | [] => Some gl
  | sub_item :: rest' =>
      gl' ← rescan_step item_list current_index sub_item gl;
      rescan_loop item_list rest' (S current_index) gl'
  end.

Fixpoint rescan_chains (materials_group_to_check : list (list string))
    (gl : list (string * item) * list event)
    : option (list (string * item) * list event) :=
  match materials_group_to_check with
  | [] => Some gl
  | item_list :: groups =>
      gl' ← rescan_loop item_list item_list 0%nat gl;
      rescan_chains groups gl'
  end.


(** ** Adjustments and what they leave alone *)

(** [extra] of the item at a position of the chain. *)
Definition extra_at (good_result : list (string * item))
    (item_list : list string) (i : nat) : option Z :=
  name ← item_list !! i; extra <$> dict_get name good_result.

(** [j] is the nearest position after [c] whose item has [extra == 0]. *)
Definition nearest_zero_after (good_result : list (string * item))
    (item_list : list string) (c j : nat) : Prop :=
  (c < j)%nat ∧ extra_at good_result item_list j = Some 0 ∧
  ∀ i, (c < i < j)%nat → extra_at good_result item_list i ≠ Some 0.

(** The names the log holds: the items an adjustment was made to. *)
Definition targets (log : list event) : list string := ev_name <$> log.

(** What a call may change: the keys stay, in their order, and under
    each key the name, the id and [extra] stay; [num] stays unless the
    key is in [T]. *)
Definition frame (T : string → Prop) (gr gr' : list (string * item)) : Prop :=
  dict_keys gr' = dict_keys gr ∧
  ∀ k it, dict_get k gr = Some it →
    ∃ it', dict_get k gr' = Some it' ∧
           good it' = good it ∧ id it' = id it ∧ extra it' = extra it ∧
           (¬ T k → num it' = num it).

(** Every [extra] is below [2 ^ 1024], so that a third of it, or less,
    is a float. *)
Definition extras_fit (gr : list (string * item)) : Prop :=
  ∀ k it, dict_get k gr = Some it → extra it < 2 ^ 1024.

(** What holds of a logged adjustment: the source item has a positive
    [extra], the target is the nearest later position with
    [extra == 0], and the logged name is the target's. *)
Definition event_ok (gr : list (string * item)) (item_list : list string)
    (e : event) : Prop :=
  (∃ x, extra_at gr item_list (ev_source e) = Some x ∧ 0 < x) ∧
  nearest_zero_after gr item_list (ev_source e) (ev_target e) ∧
  item_list !! ev_target e = Some (ev_name e).

Definition sources_increase (log : list event) : Prop :=
  StronglySorted (λ e1 e2, (ev_source e1 < ev_source e2)%nat) log.

(** What the loop keeps true of [next_valid_index]: when set, it is the
    position of an item with [extra == 0]. *)
Definition cache_ok (gr : list (string * item)) (item_list : list string)
    (next_valid_index : option nat) : Prop :=
  ∀ j, next_valid_index = Some j → extra_at gr item_list j = Some 0.

(** The loop state without the cached index. *)
Definition forget_cache (st : loop_state)
    : list (string * item) * list event :=
  (ls_good_result st, ls_log st).

(** ** The cached index as the specification has it *)



(** ** Names and cleaned dictionaries *)

(** [s.capitalize()] on names. *)
Definition str_capitalize (s : string) : string :=
  string_of_list_ascii (capitalize (list_ascii_of_string s)).

(** Each key of the cleaned dictionary is there once and is the name its
    item carries. *)
Definition cleaned_ok (d : list (string * item)) : Prop :=
  dict_wf d ∧ ∀ k it, (k, it) ∈ d → good it = k.

(** ** Example inputs *)

(** The chain of the specification's example: names [A], [B], [C], any
    ids. *)
Definition chain_ABC (ia ib ic : Z) : list (string * item) :=
  [ ("A"%string, Item "A" ia 30 100);
    ("B"%string, Item "B" ib 0 50);
    ("C"%string, Item "C" ic 0 20) ].

(** A chain with two items that have spare copies and two that have
    none. *)
Definition chain_ABCD : list (string * item) :=
  [ ("A"%string, Item "A" 104301 1 10);
    ("B"%string, Item "B" 104302 0 20);
    ("C"%string, Item "C" 104303 5 30);
    ("D"%string, Item "D" 104304 0 40) ].

(** Two talent books: nine spare copies of the lower one, none of the
    upper one in stock. *)
Definition surplus_records : list material :=
  [ Material 104301 "Teachings of Freedom" 0 0 9;
    Material 104302 "Guide to Freedom" 1 1 0 ].

(** [surplus_records] and a Crown of Insight. *)
Definition crown_records : list material :=
  surplus_records ++ [ Material 104319 "Crown of Insight" 3 0 5 ].

(** * The rest of the pipeline *)

(** ** The calls of [calculate_selected_materials] (lines 209-219) *)

(** An entry of [overall_consume]. *)
Record consume := Consume {
  con_id : Z; con_name : string; con_num : Z; con_lack_num : Z
}.

(** What [calculate] returns, as far as the function reads it. *)
Record batch := Batch {
  available_material : list (Z * Z);
  overall_consume : list consume
}.

(** Line 214: [{material["id"]: material["num"] for material in ...}]. *)
Definition available_materials_of (b : batch) : list (Z * Z) :=
  foldl (λ d p, dict_set p.1 p.2 d) [] (available_material b).

(** Line 216: the entry with its [extra] set. *)
Definition with_extra (available_materials : list (Z * Z)) (c : consume)
    : material :=
  Material (con_id c) (con_name c) (con_num c) (con_lack_num c)
    (default 0 (dict_get (con_id c) available_materials)).

(** Lines 214-217 for one response. *)
Definition consume_of (b : batch) : list material :=
  with_extra (available_materials_of b) <$> overall_consume b.

(** The remote service: what the [n]-th call of [calculate] answers to
    the chunk it is sent; it answers or [_req] raises. *)
Definition service : Type := nat → list request → HoyoLabException + batch.

(** The loop of lines 212-217.  [sent] is ghost state: the chunks
    [calculate] was called with so far. *)
Fixpoint request_chunks (calculate : service) (chunked : list (list request))
    (result : list material) (sent : list (list request))
    : (HoyoLabException + list material) * list (list request) :=
  match chunked with
  | [] => (inr result, sent)
  | chunk :: rest =>
      match calculate (length sent) chunk with
      | inl e => (inl e, sent ++ [chunk])
      | inr response =>
          request_chunks calculate rest (result ++ consume_of response)
            (sent ++ [chunk])
      end
  end.

(** Line 209. *)
Definition calculate_list_chunked (calculate_list : list request)
    : list (list request) :=
  chunks 200 calculate_list.

(** [calculate_selected_materials] with the chunks it sent. *)
Definition calculate_selected_materials_log (calculate : service)
    (avatars : list avatar) (weapons : list weapon) (entities : list Z)
    (count : Z) : (HoyoLabException + list material) * list (list request) :=
  request_chunks calculate
    (calculate_list_chunked (calculate_list avatars weapons entities count))
    [] [].

Definition calculate_selected_materials (calculate : service)
    (avatars : list avatar) (weapons : list weapon) (entities : list Z)
    (count : Z) : HoyoLabException + list material :=
  (calculate_selected_materials_log calculate avatars weapons entities count).1.

(** A service that answers every call with the same response, and one
    that fails from its second call on. *)
Definition one_book : batch :=
  Batch [(104301, 4); (104302, 7); (104301, 9)]
    [Consume 104301 "Teachings of Freedom" 3 0;
     Consume 104303 "Philosophies of Freedom" 6 6].
Definition steady_service : service := λ _ _, inr one_book.
Definition failing_service : service :=
  λ n _, if bool_decide (n = 0%nat) then inr one_book
         else inl (HoyoLabError "Too many requests").

(** 250 copies of one weapon: two chunks. *)
Definition sword_catalogue : list weapon := [Weapon 11101 70].

(** ** More on the greedy cover *)

(** The materials of an entry the covered set does not have yet. *)
Definition new_coverage_of (covered : gset Z) (entry : Z * list Z) : gset Z :=
  list_to_set entry.2 ∖ covered.

(** What the loop keeps true of the selected entities: they are distinct
    keys of the catalog, none is left in the pool, each brought a
    material the entities selected before it did not have, and there
    are no more of them than covered materials. *)
Definition selected_inv (item_materials_dict : list (Z * list Z))
    (st : cover_state) : Prop :=
  NoDup (selected_entities st) ∧
  (∀ e, e ∈ selected_entities st →
        e ∈ dict_keys item_materials_dict ∧ e ∉ dict_keys (pool st)) ∧
  (∀ before e after, selected_entities st = before ++ e :: after →
     ∃ m ms, dict_get e item_materials_dict = Some ms ∧ m ∈ ms ∧
             m ∉ combined_materials item_materials_dict before) ∧
  (length (selected_entities st) ≤ size (covered_materials st))%nat.

(** A catalog where two entities tie on the first round. *)
Definition tie_catalog : list (Z * list Z) :=
  [(10000002, [104301; 104302]); (10000003, [104302; 104303]);
   (11101, [104301; 104303; 104302])].

(** ** More on the redistribution *)

(** What an adjustment does to the counts: under every key [extra]
    stays, [num] does not grow, and [num] stays when [extra] is not
    zero. *)
Definition lowered (gr gr' : list (string * item)) : Prop :=
  ∀ k it, dict_get k gr = Some it →
    ∃ it', dict_get k gr' = Some it' ∧ extra it' = extra it ∧
           num it' ≤ num it ∧ (extra it ≠ 0 → num it' = num it).

(** ** More on [clean_up_materials] *)

(** [new_num] of a record (line 248) and the entry made of it (lines
    251-256). *)
Definition new_num_of (m : material) : Z :=
  mat_num m - mat_lack_num m + mat_extra m.
Definition entry_of (m : material) : item :=
  Item (normalize (mat_name m)) (mat_id m) (mat_extra m) (new_num_of m).

(** Two records of one material under two spellings, and another
    material. *)
Definition mora_records : list material :=
  [ Material 202 "Mora" 100 0 0;
    Material 104301 "Teachings of Freedom" 3 0 2;
    Material 202 "mora" 100 0 50 ].

(** Descending and ascending ids. *)
Definition ids_descend (l : list item) : Prop :=
  StronglySorted (λ x y, id y ≤ id x) l.
Definition ids_ascend (l : list item) : Prop :=
  StronglySorted (λ x y, id x ≤ id y) l.

(** The items of one tier, in the order of the sort. *)
Definition tier_group (tier : nat) (cleaned_items : list (string * item))
    : list item :=
  filter (λ it, tier_of (id it) = Some tier)
    (sorted_by_id_desc (dict_values cleaned_items)).

(** A name in lower case. *)
Definition str_lower (s : string) : string :=
  string_of_list_ascii (lower <$> list_ascii_of_string s).

(** A name made of word characters only. *)
Definition word_name (s : string) : Prop :=
  Forall is_word (list_ascii_of_string s).

(** ** The catalog: [get_all_materials] (lines 146-183) *)

(** An entry of [response["items"]]: the ids of the materials of its
    three lists. *)
Record item_mat := ItemMat {
  avatar_consume : list Z;
  avatar_skill_consume : list Z;
  weapon_consume : list Z
}.

(** The set comprehension of line 176. *)
Definition material_ids (im : item_mat) : gset Z :=
  list_to_set (avatar_consume im ++ avatar_skill_consume im ++ weapon_consume im).

(** Lines 175-178: the dictionary from ids to sets, over the pairs of
    [zip(self.avatars + self.weapons, response["items"])]. *)
Definition item_sets (ids : list Z) (items : list item_mat)
    : list (Z * gset Z) :=
  foldl (λ d p, dict_set p.1 (material_ids p.2) d) [] (zip ids items).

(** [sorted(list(materials))] *)
Definition sorted_list (materials : gset Z) : list Z :=
  merge_sort Z.le (elements materials).

(** Line 179. *)
Definition item_materials_dict_of (ids : list Z) (items : list item_mat)
    : list (Z * list Z) :=
  (λ p, (p.1, sorted_list p.2)) <$> item_sets ids items.

(** [[item["id"] for item in self.avatars + self.weapons]] *)
Definition catalog_ids (avatars : list avatar) (weapons : list weapon)
    : list Z :=
  (avatar_ident <$> avatars) ++ (weapon_ident <$> weapons).

(** Line 157. *)
Definition traveler_dupe_count (avatars : list avatar) : Z :=
  Z.of_nat (length (filter (λ i, i = 10000005) (avatar_ident <$> avatars))) * 2.

(** The test of line 163 on the cached dictionary [data]. *)
Definition cache_is_current {V} (data : list (Z * V))
    (avatars : list avatar) (weapons : list weapon) : bool :=
  bool_decide (Z.of_nat (length data)
               = Z.of_nat (length avatars) + Z.of_nat (length weapons)
                 - traveler_dupe_count avatars + 2).

(** What a call did besides returning: whether it called [calculate] and
    what it wrote to the cache file. *)
Record catalog_run := CatalogRun {
  cr_dict : list (Z * list Z);
  cr_calculated : bool;
  cr_written : option (list (Z * list Z))
}.

(** [get_all_materials], given the cache file ([None] when it does not
    exist), the two lists of the catalog and the answer of [calculate]
    to the one request it makes.  The keys of the cache file are the
    ids in decimal, modelled by the ids. *)
Definition get_all_materials (cache : option (list (Z * list Z)))
    (avatars : list avatar) (weapons : list weapon)
    (calculate : list request → HoyoLabException + list item_mat)
    : HoyoLabException + catalog_run :=
  let recompute :=
    let avatar_body := CharacterRequest ∘ generate_avatar_data <$> avatars in
    let weapon_body := WeaponRequest ∘ generate_weapon_data <$> weapons in
    match calculate (avatar_body ++ weapon_body) with
    | inl e => inl e
    | inr items =>
        let d := item_materials_dict_of (catalog_ids avatars weapons) items in
        inr (CatalogRun d true (Some d))
    end in
  match cache with
  | Some data =>
      if cache_is_current data avatars weapons
      then inr (CatalogRun data false None)
      else recompute
  | None => recompute
  end.

(** A catalog of two characters and a weapon, and the materials the
    service gives for them. *)
Definition small_avatars : list avatar :=
  [Avatar 10000005 0 [731]; Avatar 10000002 4 [231; 232; 239]].
Definition small_weapons : list weapon := [Weapon 11101 70].
Definition small_items : list item_mat :=
  [ItemMat [104302; 104301] [104301; 113001] [];
   ItemMat [104111; 100021] [104302; 104301] [];
   ItemMat [] [] [114001; 112002; 114001]].

(** ** The request list in closed form *)

(** The [k]-th character request with the [k]-th weapon in it, as long
    as there are weapons. *)
Fixpoint pair_up (avatar_data_list : list avatar_data)
    (weapon_data_list : list weapon_data) : list avatar_data :=
  match avatar_data_list, weapon_data_list with
  | a :: avatars', w :: weapons' => set_weapon w a :: pair_up avatars' weapons'
  | _, _ => avatar_data_list
  end.

(** ** The script (lines 299-314) *)







(** * Properties *)

(** ** Dictionaries *)

Section DictFacts.
Context {K V : Type} `{EqDecision K}.
Implicit Types (d : list (K * V)) (k : K) (v : V).

Lemma dict_get_set_eq k v d : dict_get k (dict_set k v d) = Some v.
Proof.
  induction d as [|[k' v'] d IH]; simpl.
  - by rewrite decide_True.
  - destruct (decide (k = k')) as [->|Hne]; simpl.
    + by rewrite decide_True.
    + by rewrite decide_False.
Qed.

Lemma dict_get_set_ne k k' v d :
  k ≠ k' → dict_get k' (dict_set k v d) = dict_get k' d.
Proof.
  intros Hne. induction d as [|[k0 v0] d IH]; simpl.
  - by rewrite decide_False.
  - destruct (decide (k = k0)) as [->|Hne0]; simpl.
    + by rewrite !decide_False.
    + destruct (decide (k' = k0)); [done|apply IH].
Qed.

Lemma dict_keys_set_present k v v0 d :
  dict_get k d = Some v0 → dict_keys (dict_set k v d) = dict_keys d.
Proof.
  unfold dict_keys. induction d as [|[k' v'] d IH]; simpl; [done|].
  destruct (decide (k = k')) as [->|Hne]; simpl; [done|].
  intros Hget. f_equal. by apply IH.
Qed.

Lemma dict_get_Some_elem k v d : dict_get k d = Some v → (k, v) ∈ d.
Proof.
  induction d as [|[k' v'] d IH]; simpl; [done|].
  destruct (decide (k = k')) as [->|Hne].
  - intros [= ->]. left.
  - intros Hget. right. by apply IH.
Qed.

Lemma dict_get_is_Some k d : is_Some (dict_get k d) ↔ k ∈ dict_keys d.
Proof.
  unfold dict_keys. induction d as [|[k' v'] d IH]; simpl.
  - split; [by intros [? ?]|by intros ?%elem_of_nil].
  - destruct (decide (k = k')) as [->|Hne].
    + split; [left|eauto].
    + rewrite IH. split; [by right|].
      intros [?|?]%elem_of_cons; done.
Qed.

Lemma dict_get_elem_wf k v d : dict_wf d → (k, v) ∈ d → dict_get k d = Some v.
Proof.
  unfold dict_wf, dict_keys. induction d as [|[k' v'] d IH]; simpl.
  - by intros _ ?%elem_of_nil.
  - intros [Hnotin Hnd]%NoDup_cons [Heq|Hin]%elem_of_cons.
    + injection Heq as -> ->. by rewrite decide_True.
    + destruct (decide (k = k')) as [->|Hne]; [|by apply IH].
      destruct Hnotin. apply list_elem_of_fmap. by exists (k', v).
Qed.
End DictFacts.

Section DictSetFacts.
Context {K V : Type} `{EqDecision K}.
Implicit Types (d : list (K * V)) (k : K) (v : V).

Lemma elem_of_dict_set k v d p :
  p ∈ dict_set k v d → p = (k, v) ∨ p ∈ d.
Proof.
  induction d as [|[k' v'] d IH]; simpl.
  - intros ->%list_elem_of_singleton. by left.
  - destruct (decide (k = k')) as [->|Hne].
    + intros [->|Hp]%elem_of_cons; [by left|right; by right].
    + intros [->|Hp]%elem_of_cons; [right; left|].
      destruct (IH Hp); [by left|right; by right].
Qed.

Lemma dict_keys_set_absent k v d :
  dict_get k d = None → dict_keys (dict_set k v d) = dict_keys d ++ [k].
Proof.
  unfold dict_keys. induction d as [|[k' v'] d IH]; simpl; [done|].
  destruct (decide (k = k')) as [->|Hne]; [done|].
  intros Hget. simpl. f_equal. by apply IH.
Qed.

Lemma dict_set_wf k v d : dict_wf d → dict_wf (dict_set k v d).
Proof.
  unfold dict_wf. intros Hwf.
  destruct (dict_get k d) as [v0|] eqn:Hget.
  - by erewrite dict_keys_set_present.
  - rewrite dict_keys_set_absent by done.
    apply NoDup_app. split_and!; [done| |apply NoDup_singleton].
    intros k' Hk' ->%list_elem_of_singleton.
    apply dict_get_is_Some in Hk' as [? ?]. congruence.
Qed.
End DictSetFacts.

Section DictDelFacts.
Context {K V : Type} `{EqDecision K}.
Implicit Types (d : list (K * V)) (k : K) (v : V).

Lemma dict_del_perm k v d :
  dict_get k d = Some v → d ≡ₚ (k, v) :: dict_del k d.
Proof.
  induction d as [|[k' v'] d IH]; simpl; [done|].
  destruct (decide (k = k')) as [->|Hne].
  - by intros [= ->].
  - intros Hget. rewrite (IH Hget) at 1. apply Permutation_swap.
Qed.

Lemma elem_of_dict_del k d p : p ∈ dict_del k d → p ∈ d.
Proof.
  induction d as [|[k' v'] d IH]; simpl; [done|].
  destruct (decide (k = k')) as [->|Hne]; [by right|].
  intros [->|Hp]%elem_of_cons; [left|right; by apply IH].
Qed.

Lemma dict_del_wf k d : dict_wf d → dict_wf (dict_del k d).
Proof.
  unfold dict_wf, dict_keys. induction d as [|[k' v'] d IH]; simpl; [done|].
  intros [Hnotin Hnd]%NoDup_cons.
  destruct (decide (k = k')) as [->|Hne]; [done|]. simpl.
  apply NoDup_cons. split; [|by apply IH].
  intros ([k0 v0] & Hk & Hin)%list_elem_of_fmap. simpl in Hk. subst k0.
  apply Hnotin, list_elem_of_fmap. exists (k', v0).
  split; [done|]. by eapply elem_of_dict_del.
Qed.
End DictDelFacts.

(** ** Remote response handling *)

Lemma req_cases (r : response) :
  (remote_failure r ∧ _req r = inl (HoyoLabError (message r))) ∨
  (invalid_identity r ∧ _req r = inl (HoyoLabError invalid_identity_message)) ∨
  (¬ remote_failure r ∧ ¬ invalid_identity r ∧ _req r = inr (data r)).
Proof.
  unfold remote_failure, invalid_identity, _req.
  case_bool_decide as Hrc; [by left|right].
  assert (retcode r = 0) as Hz by lia.
  destruct (dict_get _ (data r)) as [v|] eqn:Hget.
  - destruct (py_truthy v) eqn:Hv; simpl.
    + right. split_and!; [lia| |done]. intros (_ & v' & ? & ?). congruence.
    + left. eauto 6.
  - right. split_and!; [lia| |done]. intros (_ & v' & ? & ?). congruence.
Qed.

(** C8.  On a parsed body [_req] raises exactly when the return code is
    not zero (the exception carries the remote message) or the return
    code is zero and a [HasUserInfo] field is present and false for
    Python's [not] (the exception carries the fixed message); both are
    the one class [HoyoLabException], told apart by the message.  In
    every other case the [data] object is returned as it is.  For a
    boolean [HasUserInfo] under a zero return code, raising is the field
    being [False]. *)
Theorem req_raises_iff (r : response) :
  (raises r ↔ remote_failure r ∨ invalid_identity r) ∧
  (remote_failure r → _req r = inl (HoyoLabError (message r))) ∧
  (invalid_identity r → _req r = inl (HoyoLabError invalid_identity_message)) ∧
  (¬ raises r → _req r = inr (data r)) ∧
  (∀ b, retcode r = 0 →
        dict_get "HasUserInfo"%string (data r) = Some (JBool b) →
        (raises r ↔ b = false)).
Proof.
  assert (remote_failure r → ¬ invalid_identity r) as Hexcl.
  { intros Hf [Hz _]. by apply Hf. }
  assert (raises r ↔ remote_failure r ∨ invalid_identity r) as Hiff.
  { unfold raises.
    destruct (req_cases r) as [[Hf Hr]|[[Hi Hr]|(Hf & Hi & Hr)]]; rewrite Hr.
    - split; eauto.
    - split; eauto.
    - split; [by intros [e ?]|tauto]. }
  split_and!.
  - exact Hiff.
  - intros Hf. destruct (req_cases r) as [[_ Hr]|[[Hi _]|(Hnf & _)]];
      [done|by apply Hexcl in Hf|done].
  - intros Hi. destruct (req_cases r) as [[Hf _]|[[_ Hr]|(_ & Hni & _)]];
      [by apply Hexcl in Hf|done|done].
  - intros Hn. destruct (req_cases r) as [[Hf _]|[[Hi _]|(_ & _ & Hr)]];
      [destruct Hn; apply Hiff; by left
      |destruct Hn; apply Hiff; by right|done].
  - intros b Hz Hb. rewrite Hiff. unfold remote_failure, invalid_identity.
    split.
    + intros [Hf|(_ & v & Hv & Ht)]; [done|].
      rewrite Hb in Hv. injection Hv as <-. exact Ht.
    + intros ->. right. split; [done|]. by exists (JBool false).
Qed.

Lemma req_raises_iff_witness :
  _req (Response 0 "OK" [("HasUserInfo"%string, JBool false)])
  = inl (HoyoLabError invalid_identity_message).
Proof.
  apply (req_raises_iff (Response 0 "OK" [("HasUserInfo"%string, JBool false)])).
  split; [reflexivity|]. exists (JBool false). split; reflexivity.
Defined.

(** ** The greedy cover *)

Lemma elem_of_all_materials_from (acc : gset Z) (values : list (list Z)) m :
  m ∈ foldl (λ acc materials, acc ∪ list_to_set materials) acc values ↔
  m ∈ acc ∨ ∃ materials, materials ∈ values ∧ m ∈ materials.
Proof.
  revert acc. induction values as [|ms values IH]; intros acc; simpl.
  - split; [by left|]. intros [?|(ms & ?%elem_of_nil & _)]; done.
  - rewrite IH, elem_of_union, elem_of_list_to_set. split.
    + intros [[?|?]|(ms' & ? & ?)]; [by left|right..].
      * exists ms. split; [left|done].
      * exists ms'. split; [by right|done].
    + intros [?|(ms' & [->|?]%elem_of_cons & ?)]; [by left; left|by left; right|].
      right. by exists ms'.
Qed.

Lemma elem_of_all_materials_of d m :
  m ∈ all_materials_of d ↔ ∃ e materials, (e, materials) ∈ d ∧ m ∈ materials.
Proof.
  unfold all_materials_of, dict_values.
  rewrite elem_of_all_materials_from. split.
  - intros [?%elem_of_empty|(ms & Hms & Hm)]; [done|].
    apply list_elem_of_fmap in Hms as ([e ms'] & -> & Hin). by exists e, ms'.
  - intros (e & ms & Hin & Hm). right. exists ms. split; [|done].
    apply list_elem_of_fmap. by exists (e, ms).
Qed.

(** What the scan for the best entity returns. *)
Lemma scan_best_from covered best pool :
  let best' := foldl (best_step covered) best pool in
  (size best.2 ≤ size best'.2)%nat ∧
  (∀ e ms, (e, ms) ∈ pool →
     (size (list_to_set ms ∖ covered : gset Z) ≤ size best'.2)%nat) ∧
  (best' = best ∨
   ∃ e ms, (e, ms) ∈ pool ∧ best' = (Some e, list_to_set ms ∖ covered) ∧
           (size best.2 < size best'.2)%nat).
Proof.
  revert best. induction pool as [|[e ms] pool IH]; intros best; simpl.
  { split_and!; [done|by intros ?? ?%elem_of_nil|by left]. }
  specialize (IH (best_step covered best (e, ms))). simpl in IH.
  destruct IH as (Hle & Hmax & Hcase).
  assert (size best.2 ≤ size (best_step covered best (e, ms)).2)%nat as Hstep.
  { unfold best_step. simpl. case_bool_decide; simpl; lia. }
  assert (size (list_to_set ms ∖ covered : gset Z)
          ≤ size (best_step covered best (e, ms)).2)%nat as Hhere.
  { unfold best_step. simpl. case_bool_decide; simpl; lia. }
  split_and!.
  - lia.
  - intros e' ms' [[= -> ->]|Hin]%elem_of_cons; [lia|by eapply Hmax].
  - destruct Hcase as [Heq|(e' & ms' & Hin & Heq & Hlt)].
    + rewrite Heq. unfold best_step. simpl. case_bool_decide as Hcmp; [|by left].
      right. exists e, ms. split_and!; [left|done|done].
    + right. exists e', ms'. split_and!; [by right|done|lia].
Qed.

Lemma scan_best_spec covered pool :
  (scan_best covered pool = (None, ∅) ∧
   ∀ e ms, (e, ms) ∈ pool → list_to_set ms ∖ covered = (∅ : gset Z)) ∨
  (∃ e ms, (e, ms) ∈ pool ∧
     scan_best covered pool = (Some e, list_to_set ms ∖ covered) ∧
     list_to_set ms ∖ covered ≠ (∅ : gset Z)).
Proof.
  unfold scan_best.
  destruct (scan_best_from covered (None, ∅) pool) as (_ & Hmax & Hcase).
  cbn [fst snd] in *. destruct Hcase as [Heq|(e & ms & Hin & Heq & Hlt)].
  - left. split; [done|]. intros e ms Hin. specialize (Hmax e ms Hin).
    rewrite Heq in Hmax. cbn [fst snd] in Hmax. rewrite size_empty in Hmax.
    apply leibniz_equiv, size_empty_inv. lia.
  - right. exists e, ms. split_and!; [done..|].
    rewrite Heq in Hlt. cbn [fst snd] in Hlt. intros Hempty.
    rewrite Hempty in Hlt. rewrite size_empty in Hlt. lia.
Qed.

Lemma all_materials_of_del e ms d :
  dict_get e d = Some ms →
  all_materials_of d = list_to_set ms ∪ all_materials_of (dict_del e d).
Proof.
  intros Hget. apply set_eq. intros m.
  rewrite elem_of_union, elem_of_list_to_set, !elem_of_all_materials_of.
  pose proof (dict_del_perm e ms d Hget) as Hperm. split.
  - intros (e' & ms' & Hin & Hm). rewrite Hperm in Hin.
    apply elem_of_cons in Hin as [[= -> ->]|Hin]; [by left|].
    right. by exists e', ms'.
  - intros [Hm|(e' & ms' & Hin & Hm)].
    + exists e, ms. split; [|done]. rewrite Hperm. left.
    + exists e', ms'. split; [|done]. rewrite Hperm. by right.
Qed.

Lemma combined_materials_snoc d entities e :
  combined_materials d (entities ++ [e]) =
    combined_materials d entities ∪ list_to_set (default [] (dict_get e d)).
Proof.
  unfold combined_materials. rewrite fmap_app, union_list_app_L. simpl.
  by rewrite (right_id_L ∅ (∪)).
Qed.

Lemma cover_inv_init d : dict_wf d → cover_inv d (cover_init d).
Proof.
  intros Hwf. unfold cover_inv, cover_init. simpl.
  split_and!; [done|done| |done|lia].
  by rewrite (left_id_L ∅ (∪)).
Qed.

(** A round of the loop, run when its guard holds. *)
Lemma cover_step_progress d st :
  dict_wf d → cover_inv d st →
  covered_materials st ≠ all_materials_of d →
  ∃ st' e ms,
    cover_step st = Some st' ∧
    (e, ms) ∈ pool st ∧
    list_to_set ms ∖ covered_materials st ≠ (∅ : gset Z) ∧
    selected_entities st' = selected_entities st ++ [e] ∧
    covered_materials st' = covered_materials st ∪ list_to_set ms ∧
    covered_materials st ⊂ covered_materials st' ∧
    pool st' = dict_del e (pool st) ∧
    S (length (pool st')) = length (pool st) ∧
    cover_inv d st'.
Proof.
  intros Hd (Hwf & Hsub & Hall & Hcov & Hlen) Hguard.
  assert (∃ m, m ∈ all_materials_of (pool st) ∧ m ∉ covered_materials st)
    as (m & Hm & Hnew).
  { destruct (set_choose_L (all_materials_of (pool st) ∖ covered_materials st))
      as [m Hm].
    - intros Hemp. apply Hguard. rewrite Hall. apply set_eq. intros x.
      rewrite elem_of_union. split; [by left|intros [?|Hx]; [done|]].
      destruct (decide (x ∈ covered_materials st)) as [|Hnot]; [done|].
      assert (x ∈ all_materials_of (pool st) ∖ covered_materials st) as Hdiff
        by (by apply elem_of_difference).
      rewrite Hemp in Hdiff. by apply elem_of_empty in Hdiff.
    - exists m. by apply elem_of_difference in Hm. }
  apply elem_of_all_materials_of in Hm as (e0 & ms0 & Hin0 & Hm0).
  unfold cover_step.
  destruct (scan_best_spec (covered_materials st) (pool st))
    as [[_ Hnone]|(e & ms & Hin & -> & Hne)].
  { specialize (Hnone e0 ms0 Hin0).
    assert (m ∈ (list_to_set ms0 ∖ covered_materials st : gset Z)) as Hdiff.
    { apply elem_of_difference. by rewrite elem_of_list_to_set. }
    rewrite Hnone in Hdiff. by apply elem_of_empty in Hdiff. }
  cbn [fst snd].
  pose proof (dict_get_elem_wf e ms (pool st) Hwf Hin) as Hget.
  pose proof (dict_del_perm e ms (pool st) Hget) as Hperm.
  eexists _, e, ms. split_and!; [done|done|done|done| | |done| |]; simpl.
  - apply set_eq. intros x.
    rewrite !elem_of_union, elem_of_difference.
    destruct (decide (x ∈ covered_materials st)); tauto.
  - apply set_choose_L in Hne as [x [Hx Hnx]%elem_of_difference].
    split.
    + apply union_subseteq_l.
    + intros Hsubset. apply Hnx, Hsubset, elem_of_union. right.
      by apply elem_of_difference.
  - rewrite (Permutation_length Hperm). done.
  - split_and!; simpl.
    + by apply dict_del_wf.
    + intros p Hp. by apply Hsub, (elem_of_dict_del e).
    + rewrite Hall, (all_materials_of_del e ms (pool st) Hget).
      apply set_eq. intros x.
      rewrite !elem_of_union, elem_of_difference.
      destruct (decide (x ∈ covered_materials st)); tauto.
    + rewrite combined_materials_snoc, <- Hcov.
      rewrite (dict_get_elem_wf e ms d Hd (Hsub _ Hin)). simpl.
      apply set_eq. intros x.
      rewrite !elem_of_union, elem_of_difference.
      destruct (decide (x ∈ covered_materials st)); tauto.
    + rewrite length_app. rewrite (Permutation_length Hperm) in Hlen.
      simpl in *. lia.
Qed.

(** The loop returns after as many rounds as it selects entities, and no
    fewer rounds are enough. *)
Lemma cover_loop_returns d k st :
  dict_wf d → cover_inv d st → (length (pool st) ≤ k)%nat →
  ∃ n sel,
    (n ≤ length (pool st))%nat ∧
    length sel = (length (selected_entities st) + n)%nat ∧
    (∀ fuel, (n ≤ fuel)%nat →
       cover_loop fuel (all_materials_of d) st = Returned sel) ∧
    (∀ fuel, (fuel < n)%nat →
       cover_loop fuel (all_materials_of d) st = OutOfFuel) ∧
    combined_materials d sel = all_materials_of d.
Proof.
  intros Hd. revert st. induction k as [|k IH]; intros st Hinv Hk.
  - destruct (decide (covered_materials st = all_materials_of d)) as [Heq|Hne].
    + exists 0%nat, (selected_entities st). split_and!; [lia|lia| |lia|].
      * intros [|fuel] _; simpl; by rewrite bool_decide_true.
      * destruct Hinv as (_ & _ & _ & <- & _). done.
    + destruct (cover_step_progress d st Hd Hinv Hne)
        as (st' & e & ms & _ & _ & _ & _ & _ & _ & _ & Hlen & _). lia.
  - destruct (decide (covered_materials st = all_materials_of d)) as [Heq|Hne].
    + exists 0%nat, (selected_entities st). split_and!; [lia|lia| |lia|].
      * intros [|fuel] _; simpl; by rewrite bool_decide_true.
      * destruct Hinv as (_ & _ & _ & <- & _). done.
    + destruct (cover_step_progress d st Hd Hinv Hne)
        as (st' & e & ms & Hstep & _ & _ & Hsel & _ & _ & _ & Hlen & Hinv').
      destruct (IH st' Hinv') as (n & sel & Hn & Hlsel & Hret & Hout & Hcomb);
        [lia|].
      exists (S n), sel. split_and!; [lia| | | |done].
      * rewrite Hlsel, Hsel, length_app. simpl. lia.
      * intros [|fuel] Hfuel; [lia|]. simpl.
        rewrite bool_decide_false, Hstep by done. apply Hret. lia.
      * intros [|fuel] Hfuel; simpl; rewrite bool_decide_false by done;
          [done|]. rewrite Hstep. apply Hout. lia.
Qed.

Lemma cover_reach_inv d st :
  dict_wf d → cover_reach (all_materials_of d) (cover_init d) st →
  cover_inv d st.
Proof.
  intros Hd. induction 1 as [|st st' Hreach IH Hguard Hstep].
  - by apply cover_inv_init.
  - destruct (cover_step_progress d st Hd IH Hguard)
      as (st1 & e & ms & Hstep1 & _ & _ & _ & _ & _ & _ & _ & Hinv).
    congruence.
Qed.

(** A material is in the combined sets of a list of entities when it is
    in the list the catalog has for one of them. *)
Lemma elem_of_combined_materials d entities m :
  m ∈ combined_materials d entities ↔
  ∃ e ms, e ∈ entities ∧ dict_get e d = Some ms ∧ m ∈ ms.
Proof.
  unfold combined_materials. rewrite elem_of_union_list. split.
  - intros (X & (e & -> & He)%list_elem_of_fmap & Hm).
    destruct (dict_get e d) as [ms|] eqn:Hget; simpl in Hm.
    + exists e, ms. split_and!; [done..|]. by apply elem_of_list_to_set in Hm.
    + by apply elem_of_empty in Hm.
  - intros (e & ms & He & Hget & Hm).
    exists (list_to_set ms). split; [|by apply elem_of_list_to_set].
    apply list_elem_of_fmap. exists e. by rewrite Hget.
Qed.

(** Entities whose combined sets are the universe of the loop leave no
    material of the catalog out, and the other way round. *)
Lemma combined_materials_all d entities :
  combined_materials d entities = all_materials_of d ↔
  (∀ e ms m, (e, ms) ∈ d → m ∈ ms →
     ∃ e' ms', e' ∈ entities ∧ dict_get e' d = Some ms' ∧ m ∈ ms').
Proof.
  split.
  - intros Heq e ms m Hin Hm.
    apply elem_of_combined_materials. rewrite Heq.
    apply elem_of_all_materials_of. by exists e, ms.
  - intros Hall. apply set_eq. intros m.
    rewrite elem_of_combined_materials, elem_of_all_materials_of. split.
    + intros (e & ms & _ & Hget & Hm). exists e, ms.
      split; [by apply dict_get_Some_elem|done].
    + intros (e & ms & Hin & Hm). by eapply Hall.
Qed.

(** C4.  For a catalog (a dictionary: each entity id once)
    [find_min_entity_needed] returns, and the entities it returns leave
    no material out: every material in the list of an entry of the
    catalog is in the list the catalog has for one of the returned
    entities.  In sets, the union of the material sets of the returned
    entities is the union of all the material sets of the catalog, the
    universe [all_materials] the loop computes, whose members are the
    members of the lists of the catalog.  Running the loop with more
    fuel than the catalog has entries returns the same list. *)
Theorem find_min_entity_needed_covers (item_materials_dict : list (Z * list Z)) :
  dict_wf item_materials_dict →
  ∃ selected,
    find_min_entity_needed item_materials_dict = Returned selected ∧
    (∀ e ms m, (e, ms) ∈ item_materials_dict → m ∈ ms →
       ∃ e' ms', e' ∈ selected ∧
                 dict_get e' item_materials_dict = Some ms' ∧ m ∈ ms') ∧
    (∀ m, m ∈ combined_materials item_materials_dict selected ↔
          ∃ e ms, e ∈ selected ∧
                  dict_get e item_materials_dict = Some ms ∧ m ∈ ms) ∧
    (∀ m, m ∈ all_materials_of item_materials_dict ↔
          ∃ e ms, (e, ms) ∈ item_materials_dict ∧ m ∈ ms) ∧
    combined_materials item_materials_dict selected
      = all_materials_of item_materials_dict ∧
    (∀ fuel, (length item_materials_dict ≤ fuel)%nat →
       cover_loop fuel (all_materials_of item_materials_dict)
         (cover_init item_materials_dict) = Returned selected).
Proof.
  intros Hd.
  destruct (cover_loop_returns item_materials_dict (length item_materials_dict)
              (cover_init item_materials_dict) Hd (cover_inv_init _ Hd))
    as (n & sel & Hn & _ & Hret & _ & Hcomb); [done|].
  simpl in Hn. exists sel. split_and!; [| | | |done|].
  - unfold find_min_entity_needed. by apply Hret.
  - by apply combined_materials_all.
  - intros m. apply elem_of_combined_materials.
  - intros m. apply elem_of_all_materials_of.
  - intros fuel Hfuel. apply Hret. lia.
Qed.

Lemma find_min_entity_needed_covers_witness :
  ∃ selected,
    find_min_entity_needed [(1, [1; 2]); (2, [2; 3]); (3, [1; 3])]
      = Returned selected ∧
    (∀ e ms m, (e, ms) ∈ [(1, [1; 2]); (2, [2; 3]); (3, [1; 3])] → m ∈ ms →
       ∃ e' ms', e' ∈ selected ∧
                 dict_get e' [(1, [1; 2]); (2, [2; 3]); (3, [1; 3])] = Some ms' ∧
                 m ∈ ms').
Proof.
  destruct (find_min_entity_needed_covers
              [(1, [1; 2]); (2, [2; 3]); (3, [1; 3])])
    as (sel & Hret & Hall & _).
  - unfold dict_wf, dict_keys. simpl. apply (bool_decide_unpack _). by vm_compute.
  - by exists sel.
Defined.

(** C5.  For a catalog the loop of [find_min_entity_needed] ends after
    [n] rounds, [n] being the number of entities it returns and at most
    the number of entries of the catalog: fuel [n] is enough and less is
    not.  In every state the loop reaches with its guard true, an entry
    of the pool has a material not yet covered, the round goes through,
    the covered set grows strictly and the pool loses one entry. *)
Theorem find_min_entity_needed_terminates (item_materials_dict : list (Z * list Z)) :
  dict_wf item_materials_dict →
  let all_materials := all_materials_of item_materials_dict in
  let st0 := cover_init item_materials_dict in
  (∃ n selected,
     (n ≤ length item_materials_dict)%nat ∧ length selected = n ∧
     (∀ fuel, (n ≤ fuel)%nat →
        cover_loop fuel all_materials st0 = Returned selected) ∧
     (∀ fuel, (fuel < n)%nat →
        cover_loop fuel all_materials st0 = OutOfFuel)) ∧
  (∀ st, cover_reach all_materials st0 st →
     covered_materials st ≠ all_materials →
     (∃ e ms, (e, ms) ∈ pool st ∧
              list_to_set ms ∖ covered_materials st ≠ (∅ : gset Z)) ∧
     ∃ st', cover_step st = Some st' ∧
            covered_materials st ⊂ covered_materials st' ∧
            (∀ p, p ∈ pool st' → p ∈ pool st) ∧
            (length (pool st') < length (pool st))%nat).
Proof.
  intros Hd all_materials st0. split.
  - destruct (cover_loop_returns item_materials_dict
                (length item_materials_dict) st0 Hd (cover_inv_init _ Hd))
      as (n & sel & Hn & Hlen & Hret & Hout & _); [done|].
    exists n, sel. by split_and!.
  - intros st Hreach Hguard.
    pose proof (cover_reach_inv _ _ Hd Hreach) as Hinv.
    destruct (cover_step_progress _ st Hd Hinv Hguard)
      as (st' & e & ms & Hstep & Hin & Hne & _ & _ & Hgrow & Hpool & Hlen & _).
    split; [by exists e, ms|]. exists st'. split_and!; [done|done| |lia].
    intros p. rewrite Hpool. apply elem_of_dict_del.
Qed.

Lemma find_min_entity_needed_terminates_witness :
  ∃ n selected,
    (n ≤ 3)%nat ∧ length selected = n ∧
    (∀ fuel, (n ≤ fuel)%nat →
       cover_loop fuel (all_materials_of [(1, [1; 2]); (2, [2; 3]); (3, [1; 3])])
         (cover_init [(1, [1; 2]); (2, [2; 3]); (3, [1; 3])])
       = Returned selected) ∧
    (∀ fuel, (fuel < n)%nat →
       cover_loop fuel (all_materials_of [(1, [1; 2]); (2, [2; 3]); (3, [1; 3])])
         (cover_init [(1, [1; 2]); (2, [2; 3]); (3, [1; 3])])
       = OutOfFuel).
Proof.
  destruct (find_min_entity_needed_terminates
              [(1, [1; 2]); (2, [2; 3]); (3, [1; 3])]) as [Hterm _].
  - unfold dict_wf, dict_keys. simpl. apply (bool_decide_unpack _). by vm_compute.
  - exact Hterm.
Defined.

(** ** The request list *)

Lemma length_times {A} (count : Z) (x : A) :
  length (times count x) = Z.to_nat count.
Proof. apply length_replicate. Qed.

Lemma length_bind_times {A B} (count : Z) (f : A → B) (l : list A) :
  length (l ≫= (λ a, times count (f a))) = (length l * Z.to_nat count)%nat.
Proof.
  induction l as [|a l IH]; [done|].
  rewrite bind_cons, length_app, length_times, IH. simpl. lia.
Qed.

Lemma length_avatar_body_refs count n :
  length (avatar_body_refs count n) = (n * Z.to_nat count)%nat.
Proof.
  unfold avatar_body_refs.
  rewrite (length_bind_times count (λ k, k)). by rewrite length_seq.
Qed.

Lemma avatar_body_refs_bound count n :
  Forall (λ r, r < n)%nat (avatar_body_refs count n).
Proof.
  unfold avatar_body_refs. apply Forall_forall. intros r Hr.
  apply list_elem_of_bind in Hr as (k & Hr & Hk).
  apply elem_of_replicate in Hr as [-> _].
  apply elem_of_seq in Hk. lia.
Qed.

Lemma length_attach_weapons heap pairs :
  length (attach_weapons heap pairs) = length heap.
Proof.
  unfold attach_weapons. revert heap.
  induction pairs as [|p pairs IH]; intros heap; [done|].
  simpl. rewrite IH. apply length_alter.
Qed.

Lemma length_omap_deref (heap : list avatar_data) (refs : list nat) :
  Forall (λ r, r < length heap)%nat refs →
  length (omap (λ r, CharacterRequest <$> heap !! r) refs) = length refs.
Proof.
  induction 1 as [|r refs Hr Hrefs IH]; [done|].
  destruct (lookup_lt_is_Some_2 heap r Hr) as [a Ha].
  cbn [omap list_omap]. rewrite Ha. simpl. by rewrite IH.
Qed.

Lemma length_calculate_list avatars weapons entities count :
  let la := (num_chars avatars entities * Z.to_nat count)%nat in
  let lw := (num_weapons weapons entities * Z.to_nat count)%nat in
  length (calculate_list avatars weapons entities count) =
    if bool_decide (lw < la)%nat then (la + (la - lw))%nat else lw.
Proof.
  intros la lw. unfold calculate_list.
  set (avs := filter _ avatars). set (wps := filter _ weapons).
  set (heap := attach_weapons _ _).
  assert (length heap = length avs) as Hheap.
  { unfold heap. by rewrite length_attach_weapons, length_fmap. }
  assert (length (avatar_body_refs count (length avs)) = la) as Hla
    by apply length_avatar_body_refs.
  assert (length (weapon_body_of count wps) = lw) as Hlw
    by apply (length_bind_times count generate_weapon_data).
  assert (Forall (λ r, r < length heap)%nat
            (avatar_body_refs count (length avs))) as Hb.
  { rewrite Hheap. apply avatar_body_refs_bound. }
  rewrite Hla, Hlw. case_bool_decide as Hcmp.
  - rewrite length_omap_deref.
    + rewrite length_app, length_drop, Hla. lia.
    + apply Forall_app. split; [done|]. by apply Forall_drop.
  - rewrite length_app, length_omap_deref, length_fmap, length_drop by done.
    rewrite Hla, Hlw. lia.
Qed.

(** C2, as the specification states it, fails when the weapons outnumber
    the characters: one character and two weapons, once each, are two
    requests (the character with the first weapon, then the second
    weapon), where the formula counts three. *)
Lemma calculate_list_length_counterexample :
  let avatars := [Avatar 10000002 4 [231; 232; 239]] in
  let weapons := [Weapon 11101 70; Weapon 11201 70] in
  let entities := [10000002; 11101; 11201] in
  num_chars avatars entities = 1%nat ∧ num_weapons weapons entities = 2%nat ∧
  calculate_list avatars weapons entities 1 =
    [ CharacterRequest
        (AvatarData 10000002 1 90 4 [(231, 1, 10); (232, 1, 10); (239, 1, 10)]
           (Some (WeaponData 11101 1 70)));
      WeaponRequest (WeaponData 11201 1 70) ] ∧
  specified_length 1 1 2 = 3 ∧
  Z.of_nat (length (calculate_list avatars weapons entities 1))
    ≠ specified_length 1 (Z.of_nat (num_chars avatars entities))
        (Z.of_nat (num_weapons weapons entities)).
Proof. vm_compute. split_and!; done. Qed.

(** C2, amended.  With [n = max(count, 0)] copies per entity, the request
    list has [n * max(num_chars, num_weapons)] entries, and
    [n * (num_chars - num_weapons)] more when the characters outnumber
    the weapons: the second term is there for a longer character list
    only. *)
Theorem calculate_list_length avatars weapons entities count :
  let nc := Z.of_nat (num_chars avatars entities) in
  let nw := Z.of_nat (num_weapons weapons entities) in
  let n := Z.max count 0 in
  Z.of_nat (length (calculate_list avatars weapons entities count)) =
    n * Z.max nc nw + n * Z.max (nc - nw) 0.
Proof.
  intros nc nw n. rewrite length_calculate_list.
  assert (Z.of_nat (Z.to_nat count) = n) as Hn by lia.
  case_bool_decide; nia.
Qed.

(** ** Division through a float *)

Lemma round_half_even_bounds n d :
  0 ≤ n → 0 < d → n / d ≤ round_half_even n d ≤ n / d + 1.
Proof.
  intros Hn Hd. unfold round_half_even.
  repeat case_bool_decide; [lia..|]. destruct (Z.even _); lia.
Qed.

Lemma round_half_even_le n d k :
  0 ≤ n → 0 < d → n < d * k → round_half_even n d ≤ k.
Proof.
  intros Hn Hd Hk. pose proof (round_half_even_bounds n d Hn Hd).
  assert (n / d < k) by (apply Z.div_lt_upper_bound; lia). lia.
Qed.

Lemma round_half_even_ge n d k :
  0 ≤ n → 0 < d → d * k ≤ n → k ≤ round_half_even n d.
Proof.
  intros Hn Hd Hk. pose proof (round_half_even_bounds n d Hn Hd).
  assert (k ≤ n / d) by (apply Z.div_le_lower_bound; lia). lia.
Qed.

(** The quotient is in the binade [binade] names. *)
Lemma binade_pos a b :
  0 < b → b ≤ a →
  1 ≤ binade a b ∧ b * 2 ^ (binade a b - 1) ≤ a < b * 2 ^ binade a b.
Proof.
  intros Hb Hab. unfold binade. rewrite bool_decide_true by done.
  assert (1 ≤ a / b) as Hq by (apply Z.div_le_lower_bound; lia).
  destruct (Z.log2_spec (a / b)) as [Hlo Hhi]; [lia|].
  pose proof (Z.log2_nonneg (a / b)).
  replace (Z.log2 (a / b) + 1 - 1) with (Z.log2 (a / b)) by lia.
  replace (Z.succ (Z.log2 (a / b))) with (Z.log2 (a / b) + 1) in Hhi by lia.
  pose proof (Z.mul_div_le a b Hb).
  pose proof (Z.mod_pos_bound a b Hb). pose proof (Z.div_mod a b).
  split_and!; [lia|nia|nia].
Qed.

Lemma binade_neg a b :
  0 < a → a < b →
  binade a b ≤ 0 ∧
  a * 2 ^ (- binade a b) < b ≤ a * 2 ^ (1 - binade a b).
Proof.
  intros Ha Hab. unfold binade. rewrite bool_decide_false by lia.
  assert (1 ≤ (b - 1) / a) as Hq by (apply Z.div_le_lower_bound; lia).
  destruct (Z.log2_spec ((b - 1) / a)) as [Hlo Hhi]; [lia|].
  pose proof (Z.log2_nonneg ((b - 1) / a)).
  replace (- - Z.log2 ((b - 1) / a)) with (Z.log2 ((b - 1) / a)) by lia.
  replace (1 - - Z.log2 ((b - 1) / a)) with (Z.succ (Z.log2 ((b - 1) / a)))
    by lia.
  pose proof (Z.mul_div_le (b - 1) a Ha).
  pose proof (Z.mod_pos_bound (b - 1) a Ha). pose proof (Z.div_mod (b - 1) a).
  split_and!; [lia|nia|nia].
Qed.

Lemma true_divide_nonneg a b :
  0 ≤ a → 0 < b → 0 ≤ int_of_float (true_divide a b).
Proof.
  intros Ha Hb. unfold int_of_float, true_divide. cbn [mantissa exponent].
  set (ex := Z.max _ _).
  assert (0 ≤ Z.sgn a) by lia. rewrite (Z.abs_eq a) by done.
  case_bool_decide as Hex.
  - pose proof (round_half_even_bounds a (b * 2 ^ ex) Ha).
    assert (0 < 2 ^ ex) by (apply Z.pow_pos_nonneg; lia).
    assert (0 ≤ a / (b * 2 ^ ex)) by (apply Z.div_pos; nia).
    apply Z.mul_nonneg_nonneg; [|lia].
    apply Z.mul_nonneg_nonneg; [done|]. nia.
  - assert (0 < 2 ^ (- ex)) by (apply Z.pow_pos_nonneg; lia).
    pose proof (round_half_even_bounds (a * 2 ^ (- ex)) b).
    assert (0 ≤ a * 2 ^ (- ex) / b) by (apply Z.div_pos; nia).
    apply Z.quot_pos; [|lia].
    apply Z.mul_nonneg_nonneg; [done|]. nia.
Qed.

(** A quotient below [2 ^ 1023] is a float. *)
Lemma true_divide_fits a b :
  0 < a → 0 < b → a < b * 2 ^ 1023 → too_large (true_divide a b) = false.
Proof.
  intros Ha Hb Hlt. unfold too_large, true_divide. cbn [mantissa exponent].
  rewrite (Z.abs_eq a) by lia. rewrite (Z.sgn_pos a) by done.
  set (e := binade a b). set (ex := Z.max (e - 53) (-1074)).
  apply bool_decide_eq_false. intros Hbig.
  destruct (decide (0 ≤ ex)) as [Hex|Hex].
  2:{ rewrite (Z.pow_neg_r 2 ex) in Hbig by lia. lia. }
  rewrite bool_decide_true in Hbig by done.
  assert (ex = e - 53) as Hexe by lia.
  destruct (decide (b ≤ a)) as [Hba|Hba].
  2:{ destruct (binade_neg a b) as (Hle & _); [lia..|]. fold e in Hle. lia. }
  destruct (binade_pos a b Hb Hba) as (He & Hlo & Hhi). fold e in He, Hlo, Hhi.
  assert (e ≤ 1023) as He'.
  { destruct (decide (e ≤ 1023)); [done|exfalso].
    assert (2 ^ 1023 ≤ 2 ^ (e - 1)) by (apply Z.pow_le_mono_r; lia). nia. }
  assert (0 < 2 ^ ex) as Hpex by (apply Z.pow_pos_nonneg; lia).
  assert (2 ^ e = 2 ^ ex * 2 ^ 53) as Hsplit.
  { rewrite <- Z.pow_add_r by lia. f_equal. lia. }
  assert (round_half_even a (b * 2 ^ ex) ≤ 2 ^ 53) as Hm.
  { apply round_half_even_le; [lia|nia|]. rewrite Hsplit in Hhi. nia. }
  pose proof (round_half_even_bounds a (b * 2 ^ ex)) as Hb2.
  assert (0 ≤ a / (b * 2 ^ ex)) by (apply Z.div_pos; nia).
  rewrite Z.abs_eq in Hbig by nia.
  assert (2 ^ e ≤ 2 ^ 1023) by (apply Z.pow_le_mono_r; lia).
  assert (2 ^ 1023 < 2 ^ 1024) by (apply Z.pow_lt_mono_r; lia).
  nia.
Qed.

(** A quotient of [2 ^ 1024] or more is not. *)
Lemma true_divide_overflows a b :
  0 < b → b * 2 ^ 1024 ≤ a → too_large (true_divide a b) = true.
Proof.
  intros Hb Hge. unfold too_large, true_divide. cbn [mantissa exponent].
  assert (0 < 2 ^ 1024) by (apply Z.pow_pos_nonneg; lia).
  assert (b ≤ a) as Hba.
  { assert (b * 1 ≤ b * 2 ^ 1024) by (apply Z.mul_le_mono_nonneg_l; lia). lia. }
  assert (0 < a) as Ha by lia.
  rewrite (Z.abs_eq a) by lia. rewrite (Z.sgn_pos a) by done.
  set (e := binade a b). set (ex := Z.max (e - 53) (-1074)).
  destruct (binade_pos a b Hb Hba) as (He & Hlo & Hhi).
  fold e in He, Hlo, Hhi.
  assert (1025 ≤ e) as He'.
  { destruct (decide (1025 ≤ e)); [done|exfalso].
    assert (2 ^ e ≤ 2 ^ 1024) by (apply Z.pow_le_mono_r; lia). nia. }
  assert (ex = e - 53) as Hexe by lia.
  rewrite (bool_decide_true (0 ≤ ex)) by lia.
  assert (0 < 2 ^ ex) as Hpex by (apply Z.pow_pos_nonneg; lia).
  assert (2 ^ (e - 1) = 2 ^ ex * 2 ^ 52) as Hsplit.
  { rewrite <- Z.pow_add_r by lia. f_equal. lia. }
  assert (2 ^ 52 ≤ round_half_even a (b * 2 ^ ex)) as Hm.
  { apply round_half_even_ge; [lia|nia|]. rewrite Hsplit in Hlo. nia. }
  apply bool_decide_eq_true. rewrite Z.abs_eq by nia.
  assert (2 ^ 1024 ≤ 2 ^ (e - 1)) by (apply Z.pow_le_mono_r; lia).
  nia.
Qed.

(** Rounding at [s] binary places does not reach the next integer when
    the divisor is below [2 ^ (s + 1)]. *)
Lemma round_half_even_same_integer a b s :
  0 ≤ a → 0 < b → 0 ≤ s → b < 2 ^ (s + 1) →
  a / b * 2 ^ s ≤ round_half_even (a * 2 ^ s) b < (a / b + 1) * 2 ^ s.
Proof.
  intros Ha Hb Hs Hlt.
  assert (0 < 2 ^ s) as Hp by (apply Z.pow_pos_nonneg; lia).
  assert (2 ^ (s + 1) = 2 * 2 ^ s) as Hp2
    by (rewrite Z.pow_add_r by lia; lia).
  pose proof (Z.div_mod a b) as Ha'. pose proof (Z.mod_pos_bound a b Hb) as Hr0.
  set (q := a / b) in *. set (r0 := a mod b) in *.
  assert (0 ≤ q) as Hq by (apply Z.div_pos; lia).
  pose proof (Z.div_mod (a * 2 ^ s) b) as Hn.
  pose proof (Z.mod_pos_bound (a * 2 ^ s) b Hb) as Hr.
  assert (q * 2 ^ s ≤ a * 2 ^ s / b) as Hlo
    by (apply Z.div_le_lower_bound; nia).
  assert (a * 2 ^ s / b < (q + 1) * 2 ^ s) as Hhi
    by (apply Z.div_lt_upper_bound; nia).
  unfold round_half_even.
  set (f := a * 2 ^ s / b) in *. set (r := (a * 2 ^ s) mod b) in *.
  assert (2 * r < b ∨ f + 1 < (q + 1) * 2 ^ s) as Hcase.
  { destruct (decide (f + 1 < (q + 1) * 2 ^ s)); [by right|left].
    assert (f = (q + 1) * 2 ^ s - 1) as Hf by lia.
    assert (r = b - 2 ^ s * (b - r0)) as Hr' by nia.
    assert (1 ≤ b - r0) by lia.
    assert (2 ^ s * 1 ≤ 2 ^ s * (b - r0))
      by (apply Z.mul_le_mono_nonneg_l; lia).
    lia. }
  repeat case_bool_decide; [lia|lia|]. destruct (Z.even f); lia.
Qed.

(** Below [2 ^ 53] the division through a float gives the integer
    quotient. *)
Lemma true_divide_exact a b :
  0 < a < 2 ^ 53 → 0 < b →
  too_large (true_divide a b) = false ∧
  int_of_float (true_divide a b) = a / b.
Proof.
  intros [Ha Ha53] Hb. split.
  { apply true_divide_fits; [done..|].
    assert (2 ^ 53 ≤ 2 ^ 1023) by (apply Z.pow_le_mono_r; lia).
    assert (2 ^ 1023 * 1 ≤ 2 ^ 1023 * b)
      by (apply Z.mul_le_mono_nonneg_l; lia).
    lia. }
  unfold int_of_float, true_divide. cbn [mantissa exponent].
  rewrite (Z.abs_eq a) by lia. rewrite (Z.sgn_pos a) by done.
  rewrite Z.mul_1_l.
  set (e := binade a b). set (ex := Z.max (e - 53) (-1074)).
  assert (∀ s m, 0 ≤ s → a / b * 2 ^ s ≤ m < (a / b + 1) * 2 ^ s →
                 m ÷ 2 ^ s = a / b) as Hint.
  { intros s m Hs [Hlo Hhi].
    assert (0 < 2 ^ s) by (apply Z.pow_pos_nonneg; lia).
    assert (0 ≤ a / b) by (apply Z.div_pos; lia).
    rewrite Z.quot_div_nonneg by nia.
    symmetry. apply (Z.div_unique m (2 ^ s) (a / b) (m - a / b * 2 ^ s)); lia. }
  destruct (decide (b ≤ a)) as [Hba|Hba].
  - destruct (binade_pos a b Hb Hba) as (He & Hlo & Hhi).
    fold e in He, Hlo, Hhi.
    assert (0 < 2 ^ (e - 1)) as Hpe by (apply Z.pow_pos_nonneg; lia).
    assert (e ≤ 53) as He'.
    { destruct (decide (e ≤ 53)); [done|exfalso].
      assert (2 ^ 53 ≤ 2 ^ (e - 1)) by (apply Z.pow_le_mono_r; lia). nia. }
    assert (ex = e - 53) as Hexe by lia.
    destruct (decide (0 ≤ ex)) as [Hex|Hex].
    + assert (e = 53) as He53 by lia. rewrite !bool_decide_true by done.
      replace ex with 0 by lia. rewrite Z.pow_0_r, !Z.mul_1_r.
      rewrite He53 in Hlo. change (53 - 1) with 52 in Hlo.
      assert (b = 1) as -> by (change (2 ^ 53) with (2 * 2 ^ 52) in Ha53; nia).
      unfold round_half_even. rewrite Z.mod_1_r, Z.div_1_r.
      by rewrite bool_decide_true by lia.
    + rewrite !bool_decide_false by done. apply Hint; [lia|].
      apply round_half_even_same_integer; [lia..|].
      replace (- ex + 1) with (54 - e) by lia.
      assert (2 ^ 53 = 2 ^ (e - 1) * 2 ^ (54 - e)) as Hsplit.
      { rewrite <- Z.pow_add_r by lia. f_equal. lia. }
      assert (0 < 2 ^ (54 - e)) by (apply Z.pow_pos_nonneg; lia).
      nia.
  - destruct (binade_neg a b) as (He & Hlo & Hhi); [lia..|].
    fold e in He, Hlo, Hhi.
    assert (ex < 0) as Hex by lia. rewrite !bool_decide_false by lia.
    destruct (decide (-1074 ≤ e - 53)) as [Hnorm|Hsub].
    + assert (ex = e - 53) as Hexe by lia.
      apply Hint; [lia|].
      apply round_half_even_same_integer; [lia..|].
      replace (- ex + 1) with (53 + (1 - e)) by lia.
      rewrite Z.pow_add_r by lia.
      assert (0 < 2 ^ (1 - e)) by (apply Z.pow_pos_nonneg; lia).
      nia.
    + assert (ex = -1074) as -> by lia. change (- -1074) with 1074.
      rewrite (Z.div_small a b) by lia.
      assert (0 < 2 ^ 1074) as Hp by (apply Z.pow_pos_nonneg; lia).
      assert (round_half_even (a * 2 ^ 1074) b ≤ 2 ^ 53) as Hm.
      { apply round_half_even_le; [nia|lia|].
        assert (0 < 2 ^ 53) by (apply Z.pow_pos_nonneg; lia).
        destruct (decide (1074 ≤ - e)) as [Hfar|Hnear].
        - assert (2 ^ 1074 ≤ 2 ^ (- e)) by (apply Z.pow_le_mono_r; lia). nia.
        - assert (2 ^ 1074 = 2 ^ (- e) * 2 ^ (1074 + e)) as ->.
          { rewrite <- Z.pow_add_r by lia. f_equal. lia. }
          assert (0 < 2 ^ (1074 + e)) by (apply Z.pow_pos_nonneg; lia).
          assert (2 ^ (1074 + e) ≤ 2 ^ 53) by (apply Z.pow_le_mono_r; lia).
          nia. }
      pose proof (round_half_even_bounds (a * 2 ^ 1074) b) as Hb2.
      assert (0 ≤ a * 2 ^ 1074 / b) by (apply Z.div_pos; nia).
      apply Z.quot_small. split; [lia|].
      assert (2 ^ 53 < 2 ^ 1074) by (apply Z.pow_lt_mono_r; lia). lia.
Qed.

Lemma div_pow3_fits e d :
  0 < e < 2 ^ 1024 → 1 ≤ d → too_large (div_pow3 e d) = false.
Proof.
  intros [He Hlt] Hd. unfold div_pow3.
  assert (3 ^ 1 ≤ 3 ^ d) as Hpow by (apply Z.pow_le_mono_r; lia).
  change (3 ^ 1) with 3 in Hpow.
  apply true_divide_fits; [done|lia|].
  change (2 ^ 1024) with (2 * 2 ^ 1023) in Hlt.
  assert (0 < 2 ^ 1023) by (apply Z.pow_pos_nonneg; lia). nia.
Qed.

(** ** The frame of an adjustment *)

Lemma frame_refl T gr : frame T gr gr.
Proof. split; [done|]. intros k it Hk. exists it. by split_and!. Qed.

Lemma frame_trans (T1 T2 T : string → Prop) gr1 gr2 gr3 :
  frame T1 gr1 gr2 → frame T2 gr2 gr3 →
  (∀ k, T1 k → T k) → (∀ k, T2 k → T k) →
  frame T gr1 gr3.
Proof.
  intros [Hk1 H1] [Hk2 H2] HT1 HT2. split; [congruence|].
  intros k it Hget.
  destruct (H1 k it Hget) as (it2 & Hget2 & ? & ? & ? & Hn1).
  destruct (H2 k it2 Hget2) as (it3 & Hget3 & ? & ? & ? & Hn2).
  exists it3. split_and!; [done|congruence..|].
  intros HnT. rewrite Hn2, Hn1; [done|..]; naive_solver.
Qed.

Lemma frame_get_None T gr gr' k :
  frame T gr gr' → dict_get k gr = None → dict_get k gr' = None.
Proof.
  intros [Hkeys _] Hnone. apply eq_None_not_Some.
  rewrite dict_get_is_Some, Hkeys, <- dict_get_is_Some.
  by rewrite Hnone; intros [? ?].
Qed.

Lemma frame_extra T gr gr' k :
  frame T gr gr' → extra <$> dict_get k gr' = extra <$> dict_get k gr.
Proof.
  intros Hf. destruct (dict_get k gr) as [it|] eqn:Hget.
  - destruct Hf as [_ Hf].
    destruct (Hf k it Hget) as (it' & Hget' & _ & _ & He & _).
    rewrite Hget'. simpl. by rewrite He.
  - by rewrite (frame_get_None _ _ _ _ Hf Hget).
Qed.

Lemma frame_extra_at T gr gr' item_list i :
  frame T gr gr' → extra_at gr' item_list i = extra_at gr item_list i.
Proof.
  intros Hf. unfold extra_at. destruct (item_list !! i) as [name|]; [|done].
  simpl. by eapply frame_extra.
Qed.

Lemma adjust_target_frame gr item_list current_index sub_item j gr' :
  adjust_target gr item_list current_index sub_item (Some j) = Some gr' →
  ∃ target, item_list !! j = Some target ∧ frame (λ k, k = target) gr gr'.
Proof.
  unfold adjust_target. intros Hadj.
  destruct (item_list !! j) as [target|]; [|done]. simpl in Hadj.
  destruct (dict_get target gr) as [t|] eqn:Ht; [|done]. simpl in Hadj.
  destruct (dict_get sub_item gr) as [src|]; [|done]. simpl in Hadj.
  destruct (too_large _); [done|].
  injection Hadj as <-. exists target. split; [done|]. split.
  - by eapply dict_keys_set_present.
  - intros k it Hget. destruct (decide (target = k)) as [<-|Hne].
    + rewrite dict_get_set_eq. eexists. split; [done|].
      rewrite Ht in Hget. injection Hget as <-. by split_and!.
    + rewrite dict_get_set_ne by done. exists it. by split_and!.
Qed.

Lemma frame_extras_fit T gr gr' :
  frame T gr gr' → extras_fit gr → extras_fit gr'.
Proof.
  intros [Hkeys Hf] Hfit k it' Hget'.
  assert (k ∈ dict_keys gr) as Hk.
  { rewrite <- Hkeys. apply dict_get_is_Some. by eexists. }
  apply dict_get_is_Some in Hk as [it Hget].
  destruct (Hf k it Hget) as (it'' & Hget'' & _ & _ & He & _).
  rewrite Hget' in Hget''. injection Hget'' as <-.
  rewrite He. by eapply Hfit.
Qed.

(** ** The forward search *)

Lemma scan_zero_extra_ext gr gr' names i :
  (∀ k, extra <$> dict_get k gr' = extra <$> dict_get k gr) →
  scan_zero_extra gr' names i = scan_zero_extra gr names i.
Proof.
  intros Hext. revert i. induction names as [|name names IH]; intros i; [done|].
  simpl. specialize (Hext name).
  destruct (dict_get name gr') as [it'|], (dict_get name gr) as [it|];
    simplify_eq/=; [|done].
  rewrite Hext. by rewrite IH.
Qed.

Lemma search_from_frame T gr gr' item_list c :
  frame T gr gr' → search_from gr' item_list c = search_from gr item_list c.
Proof.
  intros Hf. apply scan_zero_extra_ext. intros k. by eapply frame_extra.
Qed.

Lemma scan_zero_extra_Some gr names i j :
  scan_zero_extra gr names i = Some (Some j) →
  ∃ off, j = (i + off)%nat ∧
    (names !! off ≫= λ name, extra <$> dict_get name gr) = Some 0 ∧
    ∀ o, (o < off)%nat →
      (names !! o ≫= λ name, extra <$> dict_get name gr) ≠ Some 0.
Proof.
  revert i. induction names as [|name names IH]; intros i; [done|]. simpl.
  destruct (dict_get name gr) as [it|] eqn:Hget; [|done]. simpl.
  case_bool_decide as Hz.
  - intros [= <-]. exists 0%nat. split_and!; [lia| |lia].
    simpl. by rewrite Hget, <- Hz.
  - intros (off & -> & Hoff & Hlt)%IH. exists (S off). split_and!; [lia|done|].
    intros [|o] Ho; simpl.
    + rewrite Hget. simpl. congruence.
    + apply Hlt. lia.
Qed.

Lemma search_from_Some gr item_list c j :
  search_from gr item_list c = Some (Some j) →
  nearest_zero_after gr item_list c j.
Proof.
  unfold search_from, nearest_zero_after, extra_at.
  intros (off & -> & Hoff & Hlt)%scan_zero_extra_Some.
  rewrite lookup_drop in Hoff. split_and!; [lia|done|].
  intros i Hi. specialize (Hlt (i - S c)%nat).
  rewrite lookup_drop in Hlt.
  replace (S c + (i - S c))%nat with i in Hlt by lia. apply Hlt. lia.
Qed.

(** ** The cached index is searched again at every source *)

Lemma refresh_is_search gr item_list c nvi :
  cache_ok gr item_list nvi →
  refresh_next_valid_index gr item_list c nvi = search_from gr item_list c.
Proof.
  intros Hok. destruct nvi as [j|]; [|done]. simpl.
  specialize (Hok j eq_refl). unfold extra_at in Hok.
  destruct (item_list !! j) as [name|]; [|done]. simpl in *.
  destruct (dict_get name gr) as [it|]; [|done]. simpl in *.
  injection Hok as ->. by rewrite bool_decide_true.
Qed.

Lemma chain_step_rescan item_list c sub_item st :
  cache_ok (ls_good_result st) item_list (ls_next_valid_index st) →
  forget_cache <$> chain_step item_list c sub_item st
    = rescan_step item_list c sub_item (forget_cache st) ∧
  ∀ st', chain_step item_list c sub_item st = Some st' →
    cache_ok (ls_good_result st') item_list (ls_next_valid_index st').
Proof.
  intros Hok. unfold chain_step, rescan_step. simpl.
  destruct (dict_get sub_item (ls_good_result st)) as [it|]; [|done]. simpl.
  case_bool_decide as Hpos; [|split; [done|by intros st' [= <-]]].
  rewrite refresh_is_search by done.
  destruct (search_from _ item_list c) as [nvi|] eqn:Hs; [|done]. simpl.
  destruct (adjust_target _ item_list c sub_item nvi) as [gr|] eqn:Hadj;
    [|done]. simpl.
  split; [done|]. intros st' [= <-]. simpl. intros j ->.
  apply search_from_Some in Hs as (_ & Hz & _).
  apply adjust_target_frame in Hadj as (target & _ & Hf).
  by rewrite (frame_extra_at _ _ _ _ _ Hf).
Qed.

Lemma chain_loop_rescan item_list rest c st :
  cache_ok (ls_good_result st) item_list (ls_next_valid_index st) →
  forget_cache <$> chain_loop item_list rest c st
    = rescan_loop item_list rest c (forget_cache st).
Proof.
  revert c st. induction rest as [|sub_item rest IH]; intros c st Hok; [done|].
  simpl. destruct (chain_step_rescan item_list c sub_item st Hok) as [Heq Hok'].
  rewrite <- Heq.
  destruct (chain_step item_list c sub_item st) as [st'|]; [|done]. simpl.
  apply IH. by apply Hok'.
Qed.

Lemma process_chain_rescan item_list gl :
  process_chain item_list gl = rescan_loop item_list item_list 0%nat gl.
Proof.
  unfold process_chain. destruct gl as [gr log]. simpl.
  pose proof (chain_loop_rescan item_list item_list 0%nat
                (LoopState gr None log)) as Heq.
  unfold forget_cache at 2 in Heq. simpl in Heq.
  rewrite <- Heq by (by intros j ?).
  by destruct (chain_loop _ _ _ _).
Qed.

Lemma process_chains_rescan groups gl :
  process_chains groups gl = rescan_chains groups gl.
Proof.
  revert gl. induction groups as [|item_list groups IH]; intros gl; [done|].
  simpl. rewrite process_chain_rescan.
  destruct (rescan_loop _ _ _ _); [apply IH|done].
Qed.

(** ** The adjustments of one chain *)

Lemma frame_mono (T1 T : string → Prop) gr gr' :
  frame T1 gr gr' → (∀ k, T1 k → T k) → frame T gr gr'.
Proof.
  intros Hf HT. eapply frame_trans; [exact Hf|apply (frame_refl T)|done..].
Qed.

Lemma event_ok_frame T gr gr' item_list e :
  frame T gr gr' → event_ok gr' item_list e → event_ok gr item_list e.
Proof.
  intros Hf. unfold event_ok, nearest_zero_after.
  setoid_rewrite (frame_extra_at _ _ _ item_list _ Hf). done.
Qed.

Lemma rescan_step_spec item_list c sub_item gr log gr' log' :
  item_list !! c = Some sub_item →
  rescan_step item_list c sub_item (gr, log) = Some (gr', log') →
  ∃ new, log' = log ++ new ∧
    frame (λ k, k ∈ targets new) gr gr' ∧
    Forall (λ e, ev_source e = c ∧ event_ok gr item_list e) new ∧
    (length new ≤ 1)%nat.
Proof.
  intros Hc. unfold rescan_step. simpl.
  destruct (dict_get sub_item gr) as [it|] eqn:Hsub; [|done]. simpl.
  case_bool_decide as Hpos.
  2:{ intros [= <- <-]. exists []. rewrite app_nil_r.
      split_and!; [done|apply frame_refl|constructor|simpl; lia]. }
  destruct (search_from gr item_list c) as [nvi|] eqn:Hs; [|done]. simpl.
  destruct (adjust_target gr item_list c sub_item nvi) as [gr1|] eqn:Hadj;
    [|done]. simpl. intros [= <- <-].
  destruct nvi as [j|].
  - apply adjust_target_frame in Hadj as (target & Htgt & Hf).
    rewrite Htgt. simpl. exists [Event c j target].
    split_and!; [done| | |simpl; lia].
    + eapply frame_mono; [exact Hf|].
      intros k ->. unfold targets. simpl. set_solver.
    + constructor; [|constructor]. split; [done|]. split_and!; simpl.
      * exists (extra it). split; [|done]. unfold extra_at.
        rewrite Hc. simpl. by rewrite Hsub.
      * by apply search_from_Some.
      * done.
  - injection Hadj as <-. exists []. rewrite app_nil_r.
    split_and!; [done|apply frame_refl|constructor|simpl; lia].
Qed.

Lemma rescan_loop_spec item_list rest c gr log gr' log' :
  drop c item_list = rest →
  rescan_loop item_list rest c (gr, log) = Some (gr', log') →
  ∃ new, log' = log ++ new ∧
    frame (λ k, k ∈ targets new) gr gr' ∧
    Forall (λ e, (c ≤ ev_source e)%nat ∧ event_ok gr item_list e) new ∧
    sources_increase new.
Proof.
  revert c gr log. induction rest as [|sub_item rest IH]; intros c gr log Hdrop.
  { intros [= <- <-]. exists []. rewrite app_nil_r.
    split_and!; [done|apply frame_refl|constructor|constructor]. }
  simpl.
  assert (item_list !! c = Some sub_item) as Hc.
  { rewrite <- (Nat.add_0_r c), <- lookup_drop, Hdrop. done. }
  assert (drop (S c) item_list = rest) as Hdrop'.
  { replace (S c) with (c + 1)%nat by lia.
    by rewrite <- drop_drop, Hdrop. }
  destruct (rescan_step item_list c sub_item (gr, log)) as [[gr1 log1]|] eqn:Hstep;
    [|done]. simpl.
  apply rescan_step_spec in Hstep as (new1 & -> & Hf1 & Hev1 & Hlen1); [|done].
  intros (new2 & -> & Hf2 & Hev2 & Hs2)%IH; [|done].
  exists (new1 ++ new2). split_and!.
  - by rewrite app_assoc.
  - eapply frame_trans; [exact Hf1|exact Hf2|..];
      intros k Hk; unfold targets; rewrite fmap_app, elem_of_app;
      [by left|by right].
  - apply Forall_app. split.
    + eapply Forall_impl; [exact Hev1|]. intros e [-> He]. split; [lia|done].
    + eapply Forall_impl; [exact Hev2|]. intros e [Hle He]. split; [lia|].
      by eapply event_ok_frame.
  - unfold sources_increase. apply StronglySorted_app. split_and!; [| |done].
    + intros e1 e2 He1 He2.
      rewrite Forall_forall in Hev1. rewrite Forall_forall in Hev2.
      destruct (Hev1 e1 He1) as [-> _]. destruct (Hev2 e2 He2) as [? _]. lia.
    + destruct new1 as [|e1 [|e1' new1]]; [constructor| |simpl in Hlen1; lia].
      repeat constructor.
Qed.


Lemma rescan_chains_spec groups gr log gr' log' :
  rescan_chains groups (gr, log) = Some (gr', log') →
  ∃ new, log' = log ++ new ∧
    frame (λ k, k ∈ targets new) gr gr' ∧
    Forall (λ e, ∃ item_list, item_list ∈ groups ∧ event_ok gr item_list e) new.
Proof.
  revert gr log. induction groups as [|item_list groups IH]; intros gr log.
  { intros [= <- <-]. exists []. rewrite app_nil_r.
    split_and!; [done|apply frame_refl|constructor]. }
  simpl.
  destruct (rescan_loop item_list item_list 0%nat (gr, log)) as [[gr1 log1]|] eqn:Hloop;
    [|done]. simpl.
  apply rescan_loop_spec in Hloop as (new1 & -> & Hf1 & Hev1 & _); [|done].
  intros (new2 & -> & Hf2 & Hev2)%IH.
  exists (new1 ++ new2). split_and!.
  - by rewrite app_assoc.
  - eapply frame_trans; [exact Hf1|exact Hf2|..];
      intros k Hk; unfold targets; rewrite fmap_app, elem_of_app;
      [by left|by right].
  - apply Forall_app. split.
    + eapply Forall_impl; [exact Hev1|]. intros e [_ He].
      exists item_list. split; [left|done].
    + eapply Forall_impl; [exact Hev2|]. intros e (il & Hil & He).
      exists il. split; [by right|]. by eapply event_ok_frame.
Qed.

(** ** The call returns when the chains name keys of the dictionary
    and the quotients are floats *)

Lemma scan_zero_extra_total gr names i :
  (∀ name, name ∈ names → name ∈ dict_keys gr) →
  is_Some (scan_zero_extra gr names i).
Proof.
  revert i. induction names as [|name names IH]; intros i Hkeys; [by eexists|].
  simpl. destruct (proj2 (dict_get_is_Some name gr)) as [it ->];
    [apply Hkeys; left|].
  simpl. case_bool_decide; [by eexists|]. apply IH.
  intros n Hn. apply Hkeys. by right.
Qed.

Lemma rescan_step_total item_list c sub_item gr log :
  extras_fit gr →
  (∀ name, name ∈ item_list → name ∈ dict_keys gr) →
  item_list !! c = Some sub_item →
  is_Some (rescan_step item_list c sub_item (gr, log)).
Proof.
  intros Hfit Hkeys Hc. unfold rescan_step. simpl.
  destruct (proj2 (dict_get_is_Some sub_item gr)) as [it Hit].
  { apply Hkeys. by eapply list_elem_of_lookup_2. }
  rewrite Hit. simpl. case_bool_decide as Hpos; [|by eexists].
  destruct (scan_zero_extra_total gr (drop (S c) item_list) (S c)) as [nvi Hs].
  { intros n Hn. apply Hkeys.
    apply list_elem_of_lookup in Hn as [i Hi]. rewrite lookup_drop in Hi.
    by eapply list_elem_of_lookup_2. }
  unfold search_from. rewrite Hs. simpl.
  destruct nvi as [j|]; [|by eexists].
  apply search_from_Some in Hs as (Hcj & Hz & _). unfold extra_at in Hz.
  unfold adjust_target.
  destruct (item_list !! j) as [target|]; [|done]. simpl in *.
  destruct (dict_get target gr) as [t|]; [|done]. simpl.
  rewrite Hit. simpl.
  rewrite div_pow3_fits; [by eexists| |lia].
  split; [done|]. by eapply Hfit.
Qed.

Lemma rescan_loop_total item_list rest c gr log :
  extras_fit gr →
  (∀ name, name ∈ item_list → name ∈ dict_keys gr) →
  drop c item_list = rest →
  is_Some (rescan_loop item_list rest c (gr, log)).
Proof.
  revert c gr log. induction rest as [|sub_item rest IH];
    intros c gr log Hfit Hkeys Hdrop; [by eexists|].
  simpl.
  assert (item_list !! c = Some sub_item) as Hc.
  { rewrite <- (Nat.add_0_r c), <- lookup_drop, Hdrop. done. }
  assert (drop (S c) item_list = rest) as Hdrop'.
  { replace (S c) with (c + 1)%nat by lia.
    by rewrite <- drop_drop, Hdrop. }
  destruct (rescan_step_total item_list c sub_item gr log Hfit Hkeys Hc)
    as [[gr1 log1] Hstep].
  rewrite Hstep. simpl.
  apply rescan_step_spec in Hstep as (new1 & -> & Hf1 & _); [|done].
  apply IH; [by eapply frame_extras_fit| |done].
  destruct Hf1 as [Hk1 _]. by rewrite Hk1.
Qed.

Lemma rescan_chains_total groups gr log :
  extras_fit gr →
  (∀ item_list name, item_list ∈ groups → name ∈ item_list →
                     name ∈ dict_keys gr) →
  is_Some (rescan_chains groups (gr, log)).
Proof.
  revert gr log. induction groups as [|item_list groups IH];
    intros gr log Hfit Hkeys; [by eexists|].
  simpl.
  destruct (rescan_loop_total item_list item_list 0%nat gr log)
    as [[gr1 log1] Hloop]; [done| |done|].
  { intros name Hn. eapply Hkeys; [left|done]. }
  rewrite Hloop. simpl.
  apply rescan_loop_spec in Hloop as (new1 & -> & Hf1 & _); [|done].
  apply IH; [by eapply frame_extras_fit|].
  destruct Hf1 as [Hk1 _].
  intros il name Hil Hn. rewrite Hk1. eapply Hkeys; [by right|done].
Qed.

Lemma process_item_iterative_total groups gr :
  extras_fit gr →
  (∀ item_list name, item_list ∈ groups → name ∈ item_list →
                     name ∈ dict_keys gr) →
  is_Some (process_item_iterative groups gr).
Proof.
  intros Hfit Hkeys. unfold process_item_iterative, process_item_iterative_log.
  rewrite process_chains_rescan.
  destruct (rescan_chains_total groups gr [] Hfit Hkeys) as [gl ->]. by eexists.
Qed.

(** ** The frame of [process_item_iterative] *)

(** C9.  A call that returns leaves the keys of the dictionary as they
    were and, under every key, the name, the id and [extra] of the item;
    [num] changes only for the names the log of adjustments holds, and
    each of those is the item of a chain at the nearest position with
    [extra == 0] after a source item with a positive [extra]. *)
Theorem process_item_iterative_frame groups gr gr' :
  process_item_iterative groups gr = Some gr' →
  ∃ log,
    process_item_iterative_log groups gr = Some (gr', log) ∧
    dict_keys gr' = dict_keys gr ∧
    (∀ k it, dict_get k gr = Some it →
       ∃ it', dict_get k gr' = Some it' ∧
              good it' = good it ∧ id it' = id it ∧ extra it' = extra it ∧
              (k ∉ targets log → num it' = num it)) ∧
    (∀ e, e ∈ log →
       ∃ item_list, item_list ∈ groups ∧ event_ok gr item_list e).
Proof.
  unfold process_item_iterative. intros Hrun.
  destruct (process_item_iterative_log groups gr) as [[gr1 log]|] eqn:Hlog;
    [|done].
  injection Hrun as ->. exists log. split; [done|].
  unfold process_item_iterative_log in Hlog.
  rewrite process_chains_rescan in Hlog.
  apply rescan_chains_spec in Hlog as (new & Hnew & [Hkeys Hf] & Hev).
  simpl in Hnew. subst new. split_and!; [done|exact Hf|].
  by apply Forall_forall.
Qed.

Lemma process_item_iterative_frame_witness :
  ∃ log,
    process_item_iterative_log [["A"; "B"; "C"]%string] (chain_ABC 1 2 3)
      = Some ([ ("A"%string, Item "A" 1 30 100);
                ("B"%string, Item "B" 2 0 40);
                ("C"%string, Item "C" 3 0 20) ], log).
Proof.
  destruct (process_item_iterative_frame [["A"; "B"; "C"]%string]
              (chain_ABC 1 2 3)
              [ ("A"%string, Item "A" 1 30 100);
                ("B"%string, Item "B" 2 0 40);
                ("C"%string, Item "C" 3 0 20) ] eq_refl) as (log & Hlog & _).
  by exists log.
Defined.

(** ** The cached index *)





(** ** The example of the specification *)

(** C7.  On the chain [A(extra=30, num=100), B(extra=0, num=50),
    C(extra=0, num=20)] the search from [A] stops at [B], one position
    ahead, the factor is [3 ** 1 = 3], [B]'s [num] becomes
    [50 - 30 / 3 = 40], and nothing else changes; [B] is the only
    target. *)
Theorem chain_ABC_redistribution (ia ib ic : Z) :
  refresh_next_valid_index (chain_ABC ia ib ic) ["A"; "B"; "C"]%string 0 None
    = Some (Some 1%nat) ∧
  3 ^ (Z.of_nat 1 - Z.of_nat 0) = 3 ∧
  int_div_pow3 30 (Z.of_nat 1 - Z.of_nat 0) = 10 ∧
  process_item_iterative_log [["A"; "B"; "C"]%string] (chain_ABC ia ib ic)
    = Some ([ ("A"%string, Item "A" ia 30 100);
              ("B"%string, Item "B" ib 0 40);
              ("C"%string, Item "C" ic 0 20) ],
            [Event 0 1 "B"]).
Proof. split_and!; reflexivity. Qed.

(** ** Name normalization *)

Ltac by_cases_on_char c :=
  destruct c as [[] [] [] [] [] [] [] []]; vm_compute; reflexivity.

Lemma upper_upper c : upper (upper c) = upper c.
Proof. by_cases_on_char c. Qed.

Lemma lower_lower c : lower (lower c) = lower c.
Proof. by_cases_on_char c. Qed.

Lemma is_word_upper_eq c : is_word (upper c) = is_word c.
Proof. by_cases_on_char c. Qed.

Lemma is_word_lower_eq c : is_word (lower c) = is_word c.
Proof. by_cases_on_char c. Qed.

Lemma is_word_upper c : is_word c → is_word (upper c).
Proof. by rewrite is_word_upper_eq. Qed.

Lemma is_word_lower c : is_word c → is_word (lower c).
Proof. by rewrite is_word_lower_eq. Qed.

Lemma is_word_quote_sep c : is_word c && (is_quote c || is_sep c) = false.
Proof. by_cases_on_char c. Qed.

Lemma is_word_not_quote c : is_word c → is_quote c = false.
Proof.
  intros Hc. pose proof (is_word_quote_sep c) as H.
  destruct (is_word c); [|done]. by destruct (is_quote c).
Qed.

Lemma is_word_not_sep c : is_word c → is_sep c = false.
Proof.
  intros Hc. pose proof (is_word_quote_sep c) as H.
  destruct (is_word c); [|done]. by destruct (is_quote c), (is_sep c).
Qed.

Lemma capitalize_idemp w : capitalize (capitalize w) = capitalize w.
Proof.
  destruct w as [|c w]; [done|]. simpl. rewrite upper_upper. f_equal.
  rewrite <- list_fmap_compose. apply list_fmap_ext. intros _ x _. apply lower_lower.
Qed.

Lemma capitalize_word w : Forall is_word w → Forall is_word (capitalize w).
Proof.
  destruct 1 as [|c w Hc Hw]; [constructor|]. simpl. constructor.
  - by apply is_word_upper.
  - apply Forall_fmap. eapply Forall_impl; [exact Hw|]. apply is_word_lower.
Qed.

Lemma lstrip_quotes_word w : Forall is_word w → lstrip_quotes w = w.
Proof. destruct 1 as [|c w Hc Hw]; [done|]. simpl. by rewrite is_word_not_quote. Qed.

Lemma strip_quotes_word w : Forall is_word w → strip_quotes w = w.
Proof.
  intros Hw. unfold strip_quotes.
  rewrite (lstrip_quotes_word w Hw).
  rewrite lstrip_quotes_word; [apply reverse_involutive|].
  by apply Forall_reverse.
Qed.

Lemma re_split_word w : Forall is_word w → re_split w = [w].
Proof.
  induction 1 as [|c w Hc Hw IH]; [done|]. simpl.
  by rewrite is_word_not_sep, IH.
Qed.

Lemma strip_nonword_word w : Forall is_word w → strip_nonword w = w.
Proof.
  unfold strip_nonword. induction 1 as [|c w Hc Hw IH]; [done|].
  rewrite filter_cons_True by done. by rewrite IH.
Qed.

Lemma normalize_chars_is_word s : Forall is_word (normalize_chars s).
Proof. unfold normalize_chars, strip_nonword. apply Forall_forall. intros c Hc. by apply list_elem_of_filter in Hc as [? _]. Qed.

Lemma normalize_chars_word w :
  Forall is_word w → normalize_chars w = capitalize w.
Proof.
  intros Hw. unfold normalize_chars.
  rewrite strip_quotes_word, re_split_word by done. simpl.
  apply strip_nonword_word. by apply capitalize_word.
Qed.

Lemma normalize_normalize_chars s :
  normalize_chars (normalize_chars s) = capitalize (normalize_chars s).
Proof. apply normalize_chars_word, normalize_chars_is_word. Qed.

(** C3, as the specification states it, fails: the words after the first
    lose their capital when the name is normalized again. *)
Lemma normalize_not_idempotent :
  normalize "Teachings of Freedom" = "TeachingsOfFreedom"%string ∧
  normalize (normalize "Teachings of Freedom") = "Teachingsoffreedom"%string ∧
  normalize (normalize "Teachings of Freedom")
    ≠ normalize "Teachings of Freedom".
Proof. vm_compute. split_and!; [reflexivity|reflexivity|discriminate]. Qed.

(** C3, amended.  For an ASCII name, normalizing a normalized name
    capitalizes it as one word (the first character in upper case, the
    others in lower case); a second pass is a no-op exactly when the
    normalized name is its own capitalization, and from the second pass
    on nothing changes. *)
Theorem normalize_twice (x : string) :
  ascii_name x →
  normalize (normalize x) = str_capitalize (normalize x) ∧
  (normalize (normalize x) = normalize x ↔
   str_capitalize (normalize x) = normalize x) ∧
  normalize (normalize (normalize x)) = normalize (normalize x).
Proof.
  intros _.
  assert (∀ y, normalize (normalize y) = str_capitalize (normalize y)) as Hcap.
  { intros y. unfold normalize, str_capitalize.
    rewrite !list_ascii_of_string_of_list_ascii.
    by rewrite normalize_normalize_chars. }
  split_and!.
  - apply Hcap.
  - by rewrite Hcap.
  - rewrite (Hcap (normalize x)), Hcap. unfold str_capitalize.
    rewrite !list_ascii_of_string_of_list_ascii. by rewrite capitalize_idemp.
Qed.

Lemma normalize_twice_witness :
  normalize (normalize "Hero's Wit") = str_capitalize (normalize "Hero's Wit").
Proof.
  apply (normalize_twice "Hero's Wit").
  unfold ascii_name. simpl. repeat constructor.
Defined.

(** ** Tiers and chains *)

Lemma tier_of_4 item_id :
  tier_of item_id = Some 4%nat ↔
  114000 < item_id ∨ (104100 < item_id ∧ item_id < 104300).
Proof.
  unfold tier_of. repeat case_bool_decide; simpl; split; intros Hx;
    try done; try lia.
Qed.

Lemma tier_of_3 item_id :
  tier_of item_id = Some 3%nat ↔
  (104300 < item_id ∧ item_id < 113000) ∧ item_id ≠ 104319.
Proof.
  unfold tier_of. repeat case_bool_decide; simpl; split; intros Hx;
    try done; try lia.
Qed.

Lemma tier_of_None item_id :
  tier_of item_id = None ↔
  ¬ (114000 < item_id ∨ (104100 < item_id ∧ item_id < 104300)) ∧
  ¬ ((104300 < item_id ∧ item_id < 113000) ∧ item_id ≠ 104319).
Proof.
  unfold tier_of. repeat case_bool_decide; simpl; split; intros Hx;
    try done; try lia.
Qed.

Lemma tier_of_cases item_id :
  tier_of item_id = Some 4%nat ∨ tier_of item_id = Some 3%nat ∨
  tier_of item_id = None.
Proof. unfold tier_of. repeat case_bool_decide; simpl; auto. Qed.

Lemma material_groups_filter_from groups l :
  foldl tier_step groups l =
    (groups.1 ++ filter (λ it, tier_of (id it) = Some 4%nat) l,
     groups.2 ++ filter (λ it, tier_of (id it) = Some 3%nat) l).
Proof.
  revert groups. induction l as [|it l IH]; intros [four three]; simpl.
  { by rewrite !app_nil_r. }
  rewrite IH. unfold tier_step.
  destruct (tier_of_cases (id it)) as [H|[H|H]]; rewrite H; simpl.
  - rewrite filter_cons_True, filter_cons_False by (by rewrite ?H).
    by rewrite <- app_assoc.
  - rewrite filter_cons_False, filter_cons_True by (by rewrite ?H).
    by rewrite <- app_assoc.
  - by rewrite !filter_cons_False by (by rewrite ?H).
Qed.

Lemma material_groups_filter l :
  material_groups l =
    (filter (λ it, tier_of (id it) = Some 4%nat) l,
     filter (λ it, tier_of (id it) = Some 3%nat) l).
Proof. unfold material_groups. by rewrite material_groups_filter_from. Qed.

Lemma insert_by_id_desc_perm x l : insert_by_id_desc x l ≡ₚ x :: l.
Proof.
  induction l as [|y l IH]; simpl; [done|].
  case_bool_decide; [done|]. rewrite IH. apply Permutation_swap.
Qed.

Lemma sorted_by_id_desc_perm l : sorted_by_id_desc l ≡ₚ l.
Proof.
  unfold sorted_by_id_desc. induction l as [|x l IH]; simpl; [done|].
  by rewrite insert_by_id_desc_perm, IH.
Qed.

Lemma elem_of_chunks_fuel {A} fuel n (l c : list A) x :
  c ∈ chunks_fuel fuel n l → x ∈ c → x ∈ l.
Proof.
  revert l. induction fuel as [|fuel IH]; intros l; simpl.
  { by intros ?%elem_of_nil. }
  destruct l as [|y l]; [by intros ?%elem_of_nil|].
  intros [->|Hc]%elem_of_cons Hx.
  - by eapply (subseteq_take n).
  - eapply (subseteq_drop n). by eapply IH.
Qed.

Lemma elem_of_chains_of tier group chain name :
  chain ∈ chains_of tier group → name ∈ chain →
  ∃ it, it ∈ group ∧ good it = name.
Proof.
  unfold chains_of, chunks.
  intros (c & -> & Hc)%list_elem_of_fmap Hname.
  apply elem_of_reverse, list_elem_of_fmap in Hname as (it & -> & Hit).
  exists it. split; [|done]. by eapply elem_of_chunks_fuel.
Qed.

(** ** The dictionary [clean_up_materials] builds *)

Lemma clean_one_ok d m : cleaned_ok d → cleaned_ok (clean_one d m).
Proof.
  intros [Hwf Hgood].
  assert (cleaned_ok (dict_set (normalize (mat_name m))
                        (Item (normalize (mat_name m)) (mat_id m) (mat_extra m)
                           (mat_num m - mat_lack_num m + mat_extra m)) d)) as Hset.
  { split; [by apply dict_set_wf|].
    intros k it [[= -> ->]|Hin]%elem_of_dict_set; [done|by apply Hgood]. }
  unfold clean_one. destruct (dict_get _ d) as [old|]; [|done].
  by case_bool_decide.
Qed.

Lemma cleaned_items_of_ok materials : cleaned_ok (cleaned_items_of materials).
Proof.
  unfold cleaned_items_of.
  assert (cleaned_ok []) as Hnil.
  { split; [apply NoDup_nil_2|by intros k it ?%elem_of_nil]. }
  revert Hnil. generalize (@nil (string * item)).
  induction materials as [|m materials IH]; intros d Hd; [done|].
  simpl. apply IH. by apply clean_one_ok.
Qed.

(** A name of a chain is the key of a tiered item. *)
Lemma chain_names_tiered d chain name :
  cleaned_ok d →
  chain ∈ materials_group_to_check d → name ∈ chain →
  ∃ it, dict_get name d = Some it ∧ tier_of (id it) ≠ None.
Proof.
  intros [Hwf Hgood]. unfold materials_group_to_check.
  rewrite material_groups_filter. simpl.
  rewrite elem_of_reverse, elem_of_app.
  intros Hchain Hname.
  assert (∃ it, it ∈ sorted_by_id_desc (dict_values d) ∧ good it = name ∧
                tier_of (id it) ≠ None) as (it & Hit & Hn & Htier).
  { destruct Hchain as [Hchain|Hchain];
      destruct (elem_of_chains_of _ _ _ _ Hchain Hname) as (it & Hit & Hn);
      apply list_elem_of_filter in Hit as [Ht Hit];
      exists it; split_and!; [done|done|congruence|done|done|congruence]. }
  rewrite sorted_by_id_desc_perm in Hit.
  unfold dict_values in Hit.
  apply list_elem_of_fmap in Hit as ([k it'] & -> & Hin). simpl in *.
  exists it'. split; [|done].
  apply dict_get_elem_wf; [done|]. by rewrite <- Hn, (Hgood k it' Hin).
Qed.

Lemma chain_names_keys d chain name :
  cleaned_ok d →
  chain ∈ materials_group_to_check d → name ∈ chain → name ∈ dict_keys d.
Proof.
  intros Hok Hchain Hname.
  destruct (chain_names_tiered d chain name Hok Hchain Hname) as (it & Hit & _).
  apply dict_get_is_Some. by eexists.
Qed.

Lemma clean_one_extras_fit d m :
  mat_extra m < 2 ^ 1024 → extras_fit d → extras_fit (clean_one d m).
Proof.
  intros Hm Hfit.
  assert (extras_fit (dict_set (normalize (mat_name m))
                        (Item (normalize (mat_name m)) (mat_id m) (mat_extra m)
                           (mat_num m - mat_lack_num m + mat_extra m)) d)) as Hset.
  { intros k it. destruct (decide (normalize (mat_name m) = k)) as [<-|Hne].
    - rewrite dict_get_set_eq. by intros [= <-].
    - rewrite dict_get_set_ne by done. apply Hfit. }
  unfold clean_one. destruct (dict_get _ d) as [old|]; [|done].
  by case_bool_decide.
Qed.

Lemma cleaned_items_of_extras_fit materials :
  Forall (λ m, mat_extra m < 2 ^ 1024) materials →
  extras_fit (cleaned_items_of materials).
Proof.
  unfold cleaned_items_of.
  assert (extras_fit []) as Hnil by (by intros k it).
  revert Hnil. generalize (@nil (string * item)).
  induction materials as [|m materials IH]; intros d Hd Hall; [done|].
  apply Forall_cons in Hall as [Hm Hall].
  simpl. apply IH; [|done]. by apply clean_one_extras_fit.
Qed.

(** [clean_up_materials] returns when the quotients are floats: the
    chains name keys of the dictionary. *)
Lemma clean_up_materials_total materials :
  Forall (λ m, mat_extra m < 2 ^ 1024) materials →
  is_Some (clean_up_materials materials).
Proof.
  intros Hfit. unfold clean_up_materials. apply process_item_iterative_total.
  { by apply cleaned_items_of_extras_fit. }
  intros chain name Hchain Hname.
  eapply chain_names_keys; [apply cleaned_items_of_ok|done..].
Qed.

Lemma item_eq (it it' : item) :
  good it' = good it → id it' = id it → extra it' = extra it →
  num it' = num it → it' = it.
Proof. destruct it, it'; simpl; congruence. Qed.

(** An item outside the tiers is in no chain, and the redistribution
    leaves it as it is. *)
Lemma untiered_excluded materials name it :
  dict_get name (cleaned_items_of materials) = Some it →
  tier_of (id it) = None →
  (∀ chain, chain ∈ materials_group_to_check (cleaned_items_of materials) →
            name ∉ chain) ∧
  (∀ cleaned, clean_up_materials materials = Some cleaned →
              dict_get name cleaned = Some it).
Proof.
  intros Hget Htier.
  pose proof (cleaned_items_of_ok materials) as Hok.
  assert (∀ chain, chain ∈ materials_group_to_check (cleaned_items_of materials)
                   → name ∉ chain) as Hnot.
  { intros chain Hchain Hname.
    destruct (chain_names_tiered _ chain name Hok Hchain Hname)
      as (it' & Hget' & Htier').
    congruence. }
  split; [exact Hnot|].
  intros cleaned. unfold clean_up_materials, process_item_iterative.
  destruct (process_item_iterative_log _ _) as [[gr log]|] eqn:Hlog; [|done].
  intros [= ->]. unfold process_item_iterative_log in Hlog.
  rewrite process_chains_rescan in Hlog.
  apply rescan_chains_spec in Hlog as (new & Hnew & [_ Hf] & Hev).
  simpl in Hnew. subst new.
  destruct (Hf name it Hget) as (it' & Hget' & Hg & Hi & He & Hn).
  rewrite Hget'. f_equal. apply item_eq; [done..|]. apply Hn.
  unfold targets. intros (e & -> & He')%list_elem_of_fmap.
  rewrite Forall_forall in Hev.
  destruct (Hev e He') as (chain & Hchain & _ & _ & Hname).
  apply (Hnot chain Hchain). by eapply list_elem_of_lookup_2.
Qed.

(** C6.  The tier of a material id is given by the table: 4 exactly for
    [id > 114000] or [104100 < id < 104300], 3 exactly for
    [104300 < id < 113000] with [id != 104319], none otherwise, and
    none for 104319.  The two groups are the sorted items of tier 4 and
    of tier 3, and an item of no tier is in no chain and comes out of
    [clean_up_materials] as it went into the redistribution. *)
Theorem tier_classification :
  (∀ item_id,
     (tier_of item_id = Some 4%nat ↔
      114000 < item_id ∨ (104100 < item_id ∧ item_id < 104300)) ∧
     (tier_of item_id = Some 3%nat ↔
      (104300 < item_id ∧ item_id < 113000) ∧ item_id ≠ 104319) ∧
     (tier_of item_id = None ↔
      ¬ (114000 < item_id ∨ (104100 < item_id ∧ item_id < 104300)) ∧
      ¬ ((104300 < item_id ∧ item_id < 113000) ∧ item_id ≠ 104319))) ∧
  tier_of 104319 = None ∧
  (∀ sorted_cleaned_items,
     material_groups sorted_cleaned_items =
       (filter (λ it, tier_of (id it) = Some 4%nat) sorted_cleaned_items,
        filter (λ it, tier_of (id it) = Some 3%nat) sorted_cleaned_items)) ∧
  (∀ materials name it,
     dict_get name (cleaned_items_of materials) = Some it →
     tier_of (id it) = None →
     (∀ chain, chain ∈ materials_group_to_check (cleaned_items_of materials) →
               name ∉ chain) ∧
     (∀ cleaned, clean_up_materials materials = Some cleaned →
                 dict_get name cleaned = Some it)).
Proof.
  split_and!.
  - intros item_id. split_and!;
      [apply tier_of_4|apply tier_of_3|apply tier_of_None].
  - reflexivity.
  - apply material_groups_filter.
  - apply untiered_excluded.
Qed.

Lemma tier_classification_witness :
  "CrownOfInsight"%string ∉ ["TeachingsOfFreedom"; "GuideToFreedom"]%string.
Proof.
  destruct tier_classification as (_ & _ & _ & Hexcl).
  eapply (Hexcl crown_records "CrownOfInsight"%string
            (Item "CrownOfInsight" 104319 5 8)).
  - by vm_compute.
  - reflexivity.
  - vm_compute. left.
Defined.

(** ** A negative count in the export *)

(** C10.  [num] is not clamped at zero: on [surplus_records] the chain is
    [TeachingsOfFreedom, GuideToFreedom], the nine spare copies of the
    first take [int(9 / 3) = 3] off the second, whose [num] is 0, and the
    cleaned dictionary, and with it the export, has [-3] for it. *)
Theorem clean_up_negative_num :
  ∃ cleaned it,
    clean_up_materials surplus_records = Some cleaned ∧
    materials_group_to_check (cleaned_items_of surplus_records)
      = [["TeachingsOfFreedom"; "GuideToFreedom"]%string] ∧
    dict_get "GuideToFreedom"%string (cleaned_items_of surplus_records)
      = Some (Item "GuideToFreedom" 104302 0 0) ∧
    dict_get "GuideToFreedom"%string cleaned = Some it ∧
    num it = -3 ∧ num it < 0 ∧
    dict_get "GuideToFreedom"%string (dump_good_materials cleaned) = Some (-3).
Proof.
  eexists _, _. split_and!; [by vm_compute|by vm_compute..].
Qed.

(** ** Slices of fixed size *)

Lemma chunks_fuel_any {A} (fuel fuel' n : nat) (l : list A) :
  (0 < n)%nat → (length l ≤ fuel)%nat → (length l ≤ fuel')%nat →
  chunks_fuel fuel n l = chunks_fuel fuel' n l.
Proof.
  intros Hn. revert fuel' l.
  induction fuel as [|fuel IH]; intros fuel' l Hlen Hlen'.
  - destruct l; [by destruct fuel'|simpl in Hlen; lia].
  - destruct l as [|x l]; [by destruct fuel'|].
    destruct fuel' as [|fuel']; [simpl in Hlen'; lia|].
    simpl. f_equal. destruct n as [|n]; [lia|]. simpl.
    apply IH; rewrite length_drop; simpl in *; lia.
Qed.

Lemma chunks_fuel_enough {A} (fuel n : nat) (l : list A) :
  (0 < n)%nat → (length l ≤ fuel)%nat →
  chunks_fuel fuel n l = chunks n l.
Proof. intros Hn Hlen. by apply chunks_fuel_any. Qed.

Lemma chunks_nil {A} (n : nat) : chunks n (@nil A) = [].
Proof. done. Qed.

Lemma chunks_cons {A} (n : nat) (x : A) (l : list A) :
  (0 < n)%nat →
  chunks n (x :: l) = take n (x :: l) :: chunks n (drop n (x :: l)).
Proof.
  intros Hn. unfold chunks at 1. simpl length. simpl chunks_fuel. f_equal.
  apply chunks_fuel_enough; [done|]. rewrite length_drop. simpl. lia.
Qed.

(** Induction along the slices. *)
Lemma chunks_ind {A} (n : nat) (P : list A → list (list A) → Prop) :
  (0 < n)%nat →
  P [] [] →
  (∀ x l, P (drop n (x :: l)) (chunks n (drop n (x :: l))) →
          P (x :: l) (take n (x :: l) :: chunks n (drop n (x :: l)))) →
  ∀ l, P l (chunks n l).
Proof.
  intros Hn Hnil Hcons l.
  remember (length l) as k eqn:Hk.
  revert l Hk. induction k as [k IH] using lt_wf_ind. intros l ->.
  destruct l as [|x l]; [done|].
  rewrite chunks_cons by done. apply Hcons.
  eapply IH; [|done]. rewrite length_drop. simpl. lia.
Qed.

Lemma concat_chunks {A} (n : nat) (l : list A) :
  (0 < n)%nat → concat (chunks n l) = l.
Proof.
  intros Hn. apply (chunks_ind n (λ l cs, concat cs = l)); [done..|].
  intros x l' IH. simpl concat. rewrite IH. apply take_drop.
Qed.

Lemma chunks_sizes {A} (n : nat) (l : list A) :
  (0 < n)%nat →
  Forall (λ c, 0 < length c ≤ n)%nat (chunks n l).
Proof.
  intros Hn. apply (chunks_ind n (λ _ cs, Forall (λ c, 0 < length c ≤ n)%nat cs));
    [done|constructor|].
  intros x l' IH. constructor; [|done].
  rewrite length_take. simpl. lia.
Qed.

(** Every slice but the last is full. *)
Lemma chunks_full {A} (n : nat) (l : list A) i c :
  (0 < n)%nat →
  chunks n l !! i = Some c → (S i < length (chunks n l))%nat →
  length c = n.
Proof.
  intros Hn. revert i.
  apply (chunks_ind n (λ _ cs, ∀ i, cs !! i = Some c →
                                 (S i < length cs)%nat → length c = n));
    [done|by intros []|].
  intros x l' IH [|i]; simpl.
  - intros [= <-] Hlen. rewrite length_take.
    destruct (drop n (x :: l')) as [|y r] eqn:Hdrop; [simpl in Hlen; lia|].
    assert (length (drop n (x :: l')) = S (length r)) as Hd by by rewrite Hdrop.
    rewrite length_drop in Hd. lia.
  - intros Hi Hlen. apply (IH i Hi). lia.
Qed.

Lemma length_chunks {A} (n : nat) (l : list A) :
  (0 < n)%nat → length (chunks n l) = ((length l + n - 1) / n)%nat.
Proof.
  intros Hn.
  apply (chunks_ind n (λ l cs, length cs = ((length l + n - 1) / n)%nat));
    [done| |].
  - simpl. symmetry. apply Nat.div_small. lia.
  - intros x l' IH. simpl length at 1. rewrite IH, length_drop.
    set (m := length (x :: l')). assert (0 < m)%nat by (unfold m; simpl; lia).
    destruct (decide (m ≤ n)%nat) as [Hle|Hgt].
    + replace (m - n)%nat with 0%nat by lia.
      rewrite (Nat.div_small (0 + n - 1)) by lia.
      apply (Nat.div_unique _ _ 1 (m - 1)); lia.
    + replace (m + n - 1)%nat with ((m - n + n - 1) + 1 * n)%nat by lia.
      rewrite Nat.div_add by lia. lia.
Qed.

(** ** The calls of [calculate_selected_materials] *)

(** When the calls answer [responses], one for each chunk. *)
Lemma request_chunks_answers calculate chunked result sent responses :
  length responses = length chunked →
  (∀ i chunk response,
     chunked !! i = Some chunk → responses !! i = Some response →
     calculate (length sent + i)%nat chunk = inr response) →
  request_chunks calculate chunked result sent
    = (inr (result ++ concat (consume_of <$> responses)), sent ++ chunked).
Proof.
  revert result sent responses.
  induction chunked as [|chunk chunked IH]; intros result sent responses Hlen Hans.
  - destruct responses; [|done]. simpl. by rewrite !app_nil_r.
  - destruct responses as [|response responses]; [done|]. simpl.
    pose proof (Hans 0%nat chunk response eq_refl eq_refl) as H0.
    rewrite Nat.add_0_r in H0. rewrite H0.
    rewrite (IH _ _ responses).
    + by rewrite <- !app_assoc.
    + simpl in Hlen. lia.
    + intros i c r Hc Hr. rewrite length_app. simpl.
      replace (length sent + 1 + i)%nat with (length sent + S i)%nat by lia.
      by apply Hans.
Qed.

(** When a call fails and the calls before it answered. *)
Lemma request_chunks_fails calculate before chunk after result sent e :
  (∀ i c, before !! i = Some c →
          ∃ response, calculate (length sent + i)%nat c = inr response) →
  calculate (length sent + length before)%nat chunk = inl e →
  request_chunks calculate (before ++ chunk :: after) result sent
    = (inl e, sent ++ before ++ [chunk]).
Proof.
  revert result sent.
  induction before as [|c before IH]; intros result sent Hans Hfail.
  - simpl in *. rewrite Nat.add_0_r in Hfail. by rewrite Hfail.
  - simpl. destruct (Hans 0%nat c eq_refl) as [response H0].
    rewrite Nat.add_0_r in H0. rewrite H0. rewrite IH.
    + by rewrite <- !app_assoc.
    + intros i c' Hc. rewrite length_app. simpl.
      replace (length sent + 1 + i)%nat with (length sent + S i)%nat by lia.
      by apply Hans.
    + rewrite length_app. simpl in *.
      by replace (length sent + 1 + length before)%nat
        with (length sent + S (length before))%nat by lia.
Qed.

(** Whatever the service does, the run is one of the two. *)
Lemma request_chunks_cases calculate chunked result sent :
  (∃ responses,
     length responses = length chunked ∧
     (∀ i chunk response,
        chunked !! i = Some chunk → responses !! i = Some response →
        calculate (length sent + i)%nat chunk = inr response) ∧
     request_chunks calculate chunked result sent
       = (inr (result ++ concat (consume_of <$> responses)), sent ++ chunked)) ∨
  (∃ before chunk after e,
     chunked = before ++ chunk :: after ∧
     (∀ i c, before !! i = Some c →
             ∃ response, calculate (length sent + i)%nat c = inr response) ∧
     calculate (length sent + length before)%nat chunk = inl e ∧
     request_chunks calculate chunked result sent
       = (inl e, sent ++ before ++ [chunk])).
Proof.
  revert result sent. induction chunked as [|chunk chunked IH]; intros result sent.
  - left. exists []. split_and!; [done|by intros [] ???|].
    simpl. by rewrite !app_nil_r.
  - simpl. destruct (calculate (length sent) chunk) as [e|response] eqn:Hcall.
    + right. exists [], chunk, chunked, e. simpl.
      rewrite Nat.add_0_r. by split_and!.
    + destruct (IH (result ++ consume_of response) (sent ++ [chunk]))
        as [(responses & Hlen & Hans & Hrun)
           |(before & c & after & e & -> & Hans & Hfail & Hrun)].
      * left. exists (response :: responses). split_and!.
        -- simpl. lia.
        -- intros [|i] c r; simpl.
           ++ intros [= <-] [= <-]. by rewrite Nat.add_0_r.
           ++ intros Hc Hr. specialize (Hans i c r Hc Hr).
              rewrite length_app in Hans. simpl in Hans.
              by replace (length sent + S i)%nat
                with (length sent + 1 + i)%nat by lia.
        -- rewrite Hrun. simpl. by rewrite <- !app_assoc.
      * right. exists (chunk :: before), c, after, e. split_and!; [done| | |].
        -- intros [|i] c'; simpl.
           ++ intros [= <-]. exists response. by rewrite Nat.add_0_r.
           ++ intros Hc. destruct (Hans i c' Hc) as [r Hr]. exists r.
              rewrite length_app in Hr. simpl in Hr.
              by replace (length sent + S i)%nat
                with (length sent + 1 + i)%nat by lia.
        -- rewrite length_app in Hfail. simpl in *.
           by replace (length sent + S (length before))%nat
             with (length sent + 1 + length before)%nat by lia.
        -- rewrite Hrun. by rewrite <- !app_assoc.
Qed.

Lemma available_get_absent (d : list (Z * Z)) (l : list (Z * Z)) k :
  k ∉ l.*1 →
  dict_get k (foldl (λ d p, dict_set p.1 p.2 d) d l) = dict_get k d.
Proof.
  revert d. induction l as [|[k' n'] l IH]; intros d Hk; [done|]. simpl.
  rewrite IH.
  - apply dict_get_set_ne. intros ->. apply Hk. simpl. left.
  - intros Hin. apply Hk. simpl. by right.
Qed.

Lemma available_get_last (d : list (Z * Z)) before after k n :
  k ∉ after.*1 →
  dict_get k (foldl (λ d p, dict_set p.1 p.2 d) d (before ++ (k, n) :: after))
    = Some n.
Proof.
  intros Hk. rewrite foldl_app. simpl. rewrite available_get_absent by done.
  apply dict_get_set_eq.
Qed.

(** X1.  The chunks [calculate] is called with are the first slices of
    [calculate_list], in order, and all of them when the call returns;
    each holds between 1 and 200 requests, every slice but the last
    holds 200, and the slices put end to end are [calculate_list]. *)
Theorem calculate_selected_materials_chunks calculate avatars weapons entities count :
  let requests := calculate_list avatars weapons entities count in
  let chunked := calculate_list_chunked requests in
  let run :=
    calculate_selected_materials_log calculate avatars weapons entities count in
  run.2 `prefix_of` chunked ∧
  (∀ result, run.1 = inr result → run.2 = chunked) ∧
  concat chunked = requests ∧
  length chunked = ((length requests + 199) / 200)%nat ∧
  Forall (λ chunk, 0 < length chunk ≤ 200)%nat chunked ∧
  (∀ i chunk, chunked !! i = Some chunk → (S i < length chunked)%nat →
              length chunk = 200%nat).
Proof.
  intros requests chunked run. split_and!.
  - unfold run, calculate_selected_materials_log. fold requests. fold chunked.
    destruct (request_chunks_cases calculate chunked [] [])
      as [(responses & _ & _ & ->)
         |(before & c & after & e & Heq & _ & _ & ->)]; simpl.
    + done.
    + rewrite Heq. apply prefix_app, prefix_cons, prefix_nil.
  - intros result. unfold run, calculate_selected_materials_log.
    fold requests. fold chunked.
    destruct (request_chunks_cases calculate chunked [] [])
      as [(responses & _ & _ & ->)
         |(before & c & after & e & Heq & _ & _ & ->)]; simpl; done.
  - apply concat_chunks. lia.
  - unfold chunked, calculate_list_chunked. rewrite length_chunks by lia.
    by replace (length requests + 200 - 1)%nat
      with (length requests + 199)%nat by lia.
  - apply chunks_sizes. lia.
  - intros i chunk. apply chunks_full. lia.
Qed.

(** X2.  The call returns exactly when every chunk is answered, and then
    with the entries of [overall_consume] of the responses, chunk after
    chunk in the order of the responses, each with its [extra]; so the
    result has as many records as the responses have entries. *)
Theorem calculate_selected_materials_returns calculate avatars weapons entities count result :
  let chunked :=
    calculate_list_chunked (calculate_list avatars weapons entities count) in
  calculate_selected_materials calculate avatars weapons entities count
    = inr result ↔
  ∃ responses,
    length responses = length chunked ∧
    (∀ i chunk response,
       chunked !! i = Some chunk → responses !! i = Some response →
       calculate i chunk = inr response) ∧
    result = concat (consume_of <$> responses) ∧
    length result = sum_list (length ∘ overall_consume <$> responses).
Proof.
  intros chunked.
  assert (∀ responses : list batch,
            length (concat (consume_of <$> responses))
            = sum_list (length ∘ overall_consume <$> responses)) as Hsum.
  { induction responses as [|b bs IH]; [done|].
    rewrite !fmap_cons. cbn [concat sum_list sum_list_with].
    rewrite length_app, IH. unfold consume_of. by rewrite length_fmap. }
  unfold calculate_selected_materials, calculate_selected_materials_log.
  fold chunked. split.
  - destruct (request_chunks_cases calculate chunked [] [])
      as [(responses & Hlen & Hans & ->)
         |(before & c & after & e & _ & _ & _ & ->)]; simpl; [|done].
    intros [= <-]. exists responses. by split_and!.
  - intros (responses & Hlen & Hans & -> & _).
    by rewrite (request_chunks_answers calculate chunked [] [] responses).
Qed.

(** X3.  The call raises [e] exactly when some chunk's call raises [e]
    and every chunk before it was answered; that chunk is the last one
    sent, so no chunk after the failure reaches the service and nothing
    of the earlier answers is returned. *)
Theorem calculate_selected_materials_raises calculate avatars weapons entities count e :
  let chunked :=
    calculate_list_chunked (calculate_list avatars weapons entities count) in
  let run :=
    calculate_selected_materials_log calculate avatars weapons entities count in
  run.1 = inl e ↔
  ∃ before chunk after,
    chunked = before ++ chunk :: after ∧
    (∀ i c, before !! i = Some c → ∃ response, calculate i c = inr response) ∧
    calculate (length before) chunk = inl e ∧
    run = (inl e, before ++ [chunk]).
Proof.
  intros chunked run. unfold run, calculate_selected_materials_log.
  fold chunked. split.
  - destruct (request_chunks_cases calculate chunked [] [])
      as [(responses & Hlen & Hans & Hrun)
         |(before & c & after & e' & Heq & Hans & Hfail & Hrun)];
      rewrite Hrun; simpl; [done|].
    intros [= <-]. exists before, c, after. by split_and!.
  - intros (before & chunk & after & -> & Hans & Hfail & _).
    by rewrite (request_chunks_fails calculate before chunk after [] [] e).
Qed.

(** X4.  The [extra] of a returned record is the [num] of the last entry
    of [available_material] with the record's id, and 0 when there is
    none; the other fields are those of the [overall_consume] entry. *)
Theorem with_extra_last_wins (response : batch) (c : consume) :
  let m := with_extra (available_materials_of response) c in
  mat_id m = con_id c ∧ mat_name m = con_name c ∧
  mat_num m = con_num c ∧ mat_lack_num m = con_lack_num c ∧
  (con_id c ∉ (available_material response).*1 → mat_extra m = 0) ∧
  (∀ before n after,
     available_material response = before ++ (con_id c, n) :: after →
     con_id c ∉ after.*1 → mat_extra m = n).
Proof.
  intros m. split_and!; try done.
  - intros Hk. unfold m, with_extra, available_materials_of. simpl.
    by rewrite available_get_absent.
  - intros before n after Heq Hk.
    unfold m, with_extra, available_materials_of. simpl.
    rewrite Heq. by rewrite available_get_last.
Qed.

Lemma with_extra_last_wins_witness :
  mat_extra (with_extra (available_materials_of one_book)
               (Consume 104301 "Teachings of Freedom" 3 0)) = 9.
Proof.
  destruct (with_extra_last_wins one_book
              (Consume 104301 "Teachings of Freedom" 3 0))
    as (_ & _ & _ & _ & _ & Hlast).
  apply (Hlast [(104301, 4); (104302, 7)] 9 []); [reflexivity|].
  apply not_elem_of_nil.
Defined.

(** X5.  With a [count] of zero or less, or with no character and no
    weapon selected, [calculate] is not called and the result is the
    empty list. *)
Theorem calculate_selected_materials_nothing calculate avatars weapons entities count :
  count ≤ 0 ∨
  (num_chars avatars entities = 0%nat ∧ num_weapons weapons entities = 0%nat) →
  calculate_selected_materials_log calculate avatars weapons entities count
    = (inr [], []).
Proof.
  intros Hempty.
  assert (calculate_list avatars weapons entities count = []) as Hnil.
  { apply length_zero_iff_nil. rewrite length_calculate_list.
    destruct Hempty as [Hc|[-> ->]].
    - replace (Z.to_nat count) with 0%nat by lia.
      case_bool_decide; lia.
    - case_bool_decide; lia. }
  unfold calculate_selected_materials_log. by rewrite Hnil.
Qed.

Lemma calculate_selected_materials_nothing_witness :
  calculate_selected_materials_log failing_service [] sword_catalogue [11101] 0
    = (inr [], []).
Proof.
  apply calculate_selected_materials_nothing. left. lia.
Defined.

Lemma calculate_selected_materials_returns_witness :
  calculate_selected_materials steady_service [] sword_catalogue [11101] 250
    = inr (consume_of one_book ++ consume_of one_book).
Proof.
  apply calculate_selected_materials_returns.
  exists [one_book; one_book]. split_and!.
  - by vm_compute.
  - intros i chunk response _ Hr.
    destruct i as [|[|i]]; simpl in Hr;
      [injection Hr as <-; reflexivity..|discriminate].
  - by vm_compute.
  - by vm_compute.
Defined.

Lemma calculate_selected_materials_raises_witness :
  (calculate_selected_materials_log failing_service [] sword_catalogue
     [11101] 450).1 = inl (HoyoLabError "Too many requests").
Proof.
  apply calculate_selected_materials_raises.
  exists [replicate 200 (WeaponRequest (WeaponData 11101 1 70))],
    (replicate 200 (WeaponRequest (WeaponData 11101 1 70))),
    [replicate 50 (WeaponRequest (WeaponData 11101 1 70))].
  split_and!.
  - by vm_compute.
  - intros [|i] c Hc; [|done]. by exists one_book.
  - reflexivity.
  - by vm_compute.
Defined.

(** ** The choice of a round *)

Lemma scan_best_snoc covered pool entry :
  scan_best covered (pool ++ [entry])
    = best_step covered (scan_best covered pool) entry.
Proof. unfold scan_best. by rewrite foldl_app. Qed.

(** The entity a scan keeps is the first of the pool with the most
    uncovered materials. *)
Lemma scan_best_first_max covered pool :
  match (scan_best covered pool).1 with
  | None =>
      scan_best covered pool = (None, ∅) ∧
      ∀ p, p ∈ pool → new_coverage_of covered p = ∅
  | Some e =>
      ∃ before ms after,
        pool = before ++ (e, ms) :: after ∧
        scan_best covered pool = (Some e, new_coverage_of covered (e, ms)) ∧
        (0 < size (new_coverage_of covered (e, ms)))%nat ∧
        (∀ p, p ∈ before →
           (size (new_coverage_of covered p)
            < size (new_coverage_of covered (e, ms)))%nat) ∧
        (∀ p, p ∈ after →
           (size (new_coverage_of covered p)
            ≤ size (new_coverage_of covered (e, ms)))%nat)
  end.
Proof.
  induction pool as [|entry pool IH] using rev_ind.
  { simpl. split; [done|]. by intros p ?%elem_of_nil. }
  rewrite scan_best_snoc. unfold best_step.
  fold (new_coverage_of covered entry). destruct entry as [e' ms'].
  destruct (scan_best covered pool) as [[e|] bc] eqn:Hscan; cbn [fst snd] in *.
  - destruct IH as (before & ms & after & -> & [= ->] & Hpos & Hbefore & Hafter).
    case_bool_decide as Hcmp; cbn [fst snd].
    + exists (before ++ (e, ms) :: after), ms', [].
      split_and!; [done|done|lia| |by intros p ?%elem_of_nil].
      intros p [Hp|[->|Hp]%elem_of_cons]%elem_of_app.
      * specialize (Hbefore p Hp). lia.
      * lia.
      * specialize (Hafter p Hp). lia.
    + exists before, ms, (after ++ [(e', ms')]).
      split_and!; [by rewrite <- app_assoc|done|done|done|].
      intros p [Hp|Hp%list_elem_of_singleton]%elem_of_app;
        [by apply Hafter|subst p; lia].
  - destruct IH as [[= ->] Hnone].
    case_bool_decide as Hcmp; cbn [fst snd].
    + exists pool, ms', [].
      rewrite size_empty in Hcmp.
      split_and!; [done|done|lia| |by intros p ?%elem_of_nil].
      intros p Hp. rewrite (Hnone p Hp), size_empty. lia.
    + split; [done|]. intros p [Hp|Hp%list_elem_of_singleton]%elem_of_app.
      * by apply Hnone.
      * subst p. rewrite size_empty in Hcmp.
        apply leibniz_equiv, size_empty_inv. lia.
Qed.

Section DictDelMore.
Context {K V : Type} `{EqDecision K}.
Implicit Types (d : list (K * V)) (k : K) (v : V).

Lemma dict_del_first before k v after :
  k ∉ dict_keys before →
  dict_del k (before ++ (k, v) :: after) = before ++ after.
Proof.
  unfold dict_keys. induction before as [|[k' v'] before IH]; simpl.
  - intros _. by rewrite decide_True.
  - intros Hk. rewrite decide_False; [|intros ->; apply Hk; left].
    f_equal. apply IH. intros Hin. apply Hk. by right.
Qed.

Lemma dict_del_gone k d : dict_wf d → k ∉ dict_keys (dict_del k d).
Proof.
  unfold dict_wf, dict_keys. induction d as [|[k' v'] d IH]; simpl.
  - intros _. apply not_elem_of_nil.
  - intros [Hnotin Hnd]%NoDup_cons.
    destruct (decide (k = k')) as [->|Hne]; [done|]. simpl.
    intros [?|?]%elem_of_cons; [done|]. by apply IH.
Qed.

Lemma dict_keys_del_subseteq k d k' :
  k' ∈ dict_keys (dict_del k d) → k' ∈ dict_keys d.
Proof.
  unfold dict_keys. intros ([k0 v0] & -> & Hin)%list_elem_of_fmap.
  apply list_elem_of_fmap. exists (k0, v0). split; [done|].
  by eapply elem_of_dict_del.
Qed.
End DictDelMore.

(** X6.  A round picks the first entry of the pool, in the order of the
    dictionary, among those with the most materials not yet covered: the
    entries before it have strictly fewer, the entries after it no more.
    It appends the entity to the result, adds its materials to the
    covered set and, the pool being a dictionary, takes the entry out
    and leaves the others in their order.  The round fails (the
    [TypeError] of [int(None)]) exactly when no entry of the pool has an
    uncovered material. *)
Theorem cover_step_greedy (st : cover_state) :
  (cover_step st = None ↔
   ∀ p, p ∈ pool st → new_coverage_of (covered_materials st) p = ∅) ∧
  (∀ st', cover_step st = Some st' →
     ∃ before e ms after,
       pool st = before ++ (e, ms) :: after ∧
       selected_entities st' = selected_entities st ++ [e] ∧
       covered_materials st' = covered_materials st ∪ list_to_set ms ∧
       (0 < size (new_coverage_of (covered_materials st) (e, ms)))%nat ∧
       (∀ p, p ∈ before →
          (size (new_coverage_of (covered_materials st) p)
           < size (new_coverage_of (covered_materials st) (e, ms)))%nat) ∧
       (∀ p, p ∈ after →
          (size (new_coverage_of (covered_materials st) p)
           ≤ size (new_coverage_of (covered_materials st) (e, ms)))%nat) ∧
       (dict_wf (pool st) → pool st' = before ++ after)).
Proof.
  pose proof (scan_best_first_max (covered_materials st) (pool st)) as Hscan.
  unfold cover_step.
  destruct (scan_best (covered_materials st) (pool st)).1 as [e|] eqn:Hbest.
  - destruct Hscan as (before & ms & after & Hpool & Heq & Hpos & Hbefore & Hafter).
    split.
    + split; [done|]. intros Hnone. exfalso.
      rewrite (Hnone (e, ms)), size_empty in Hpos; [lia|].
      rewrite Hpool. apply elem_of_app. right. left.
    + intros st' [= <-]. exists before, e, ms, after. simpl.
      rewrite Heq. cbn [fst snd].
      split_and!; [done|done| |done|done|done|].
      * unfold new_coverage_of. cbn [snd]. apply set_eq. intros x.
        rewrite !elem_of_union, elem_of_difference.
        destruct (decide (x ∈ covered_materials st)); tauto.
      * intros Hwf. rewrite Hpool. apply dict_del_first.
        rewrite Hpool in Hwf. unfold dict_wf, dict_keys in *.
        rewrite fmap_app in Hwf. apply NoDup_app in Hwf as (_ & Hdis & _).
        intros Hin. apply (Hdis e Hin). simpl. left.
  - destruct Hscan as [_ Hnone]. split; [done|]. by intros st'.
Qed.

Lemma cover_step_greedy_witness :
  ∃ before ms after,
    tie_catalog = before ++ (11101, ms) :: after ∧
    ∀ p, p ∈ before →
      (size (new_coverage_of ∅ p) < size (new_coverage_of ∅ (11101%Z, ms)))%nat.
Proof.
  destruct (cover_step_greedy (cover_init tie_catalog)) as [_ Hstep].
  destruct (Hstep (CoverState
                     [(10000002, [104301; 104302]); (10000003, [104302; 104303])]
                     [11101] (list_to_set [104301; 104303; 104302])))
    as (before & e & ms & after & Hpool & Hsel & _ & _ & Hbefore & _).
  { by vm_compute. }
  simpl in Hpool, Hsel, Hbefore. injection Hsel as <-.
  by exists before, ms, after.
Defined.

(** ** The entities the cover selects *)

Lemma selected_inv_init d : selected_inv d (cover_init d).
Proof.
  unfold selected_inv, cover_init. simpl. split_and!.
  - apply NoDup_nil_2.
  - by intros e ?%elem_of_nil.
  - intros [] ???; done.
  - lia.
Qed.

Lemma selected_inv_step d st :
  dict_wf d → cover_inv d st → selected_inv d st →
  covered_materials st ≠ all_materials_of d →
  ∃ st', cover_step st = Some st' ∧ cover_inv d st' ∧ selected_inv d st'.
Proof.
  intros Hd Hinv (Hnd & Hkeys & Hnew & Hsize) Hguard.
  destruct (cover_step_progress d st Hd Hinv Hguard)
    as (st' & e & ms & Hstep & Hin & Hne & Hsel & Hcov & Hgrow & Hpool & _ & Hinv').
  exists st'. split_and!; [done..|].
  destruct Hinv as (Hwf & Hsub & _ & Hcomb & _).
  assert (e ∈ dict_keys (pool st)) as Hepool.
  { apply list_elem_of_fmap. by exists (e, ms). }
  assert (dict_get e d = Some ms) as Hget.
  { apply dict_get_elem_wf; [done|]. by apply Hsub. }
  unfold selected_inv. rewrite Hsel, Hpool. split_and!.
  - apply NoDup_app. split_and!; [done| |apply NoDup_singleton].
    intros e' He' ->%list_elem_of_singleton. by destruct (Hkeys e He').
  - intros e' [He'|He'%list_elem_of_singleton]%elem_of_app.
    + destruct (Hkeys e' He') as [? Hout]. split; [done|].
      intros Hin'. by apply Hout, (dict_keys_del_subseteq e).
    + subst e'. split; [|by apply dict_del_gone].
      apply dict_get_is_Some. by eexists.
  - intros before e' after Heq.
    destruct after as [|x after _] using rev_ind.
    + apply app_inj_tail in Heq as [<- <-].
      apply set_choose_L in Hne as [m [Hm Hnm]%elem_of_difference].
      exists m, ms. rewrite elem_of_list_to_set in Hm.
      split_and!; [done|done|]. by rewrite <- Hcomb.
    + rewrite app_comm_cons, app_assoc in Heq.
      apply app_inj_tail in Heq as [Heq _]. by apply Hnew in Heq.
  - rewrite length_app. simpl.
    pose proof (subset_size _ _ Hgrow). lia.
Qed.

Lemma cover_loop_final d fuel st sel :
  dict_wf d → cover_inv d st → selected_inv d st →
  cover_loop fuel (all_materials_of d) st = Returned sel →
  ∃ st', selected_entities st' = sel ∧ selected_inv d st' ∧
         covered_materials st' = all_materials_of d.
Proof.
  intros Hd. revert st. induction fuel as [|fuel IH]; intros st Hinv Hsel; simpl.
  - case_bool_decide; [|done]. intros [= <-]. by exists st.
  - case_bool_decide as Hguard; [intros [= <-]; by exists st|].
    destruct (selected_inv_step d st Hd Hinv Hsel Hguard)
      as (st' & -> & Hinv' & Hsel').
    by apply IH.
Qed.

(** X7.  The entities [find_min_entity_needed] returns for a catalog are
    keys of the catalog, each once; each has a material that none of the
    entities returned before it has, so no entity of the result is
    redundant when it is picked; and there are no more entities in the
    result than materials in the catalog. *)
Theorem find_min_entity_needed_selected (item_materials_dict : list (Z * list Z)) selected :
  dict_wf item_materials_dict →
  find_min_entity_needed item_materials_dict = Returned selected →
  NoDup selected ∧
  (∀ e, e ∈ selected → e ∈ dict_keys item_materials_dict) ∧
  (∀ before e after, selected = before ++ e :: after →
     ∃ m ms, dict_get e item_materials_dict = Some ms ∧ m ∈ ms ∧
             m ∉ combined_materials item_materials_dict before) ∧
  (length selected ≤ size (all_materials_of item_materials_dict))%nat.
Proof.
  intros Hd Hrun. unfold find_min_entity_needed in Hrun.
  destruct (cover_loop_final _ _ _ _ Hd (cover_inv_init _ Hd)
              (selected_inv_init _) Hrun)
    as (st & <- & (Hnd & Hkeys & Hnew & Hsize) & Hall).
  split_and!; [done| |done|by rewrite <- Hall].
  intros e He. by destruct (Hkeys e He).
Qed.

Lemma find_min_entity_needed_selected_witness :
  NoDup [11101] ∧ (1 ≤ size (all_materials_of tie_catalog))%nat.
Proof.
  destruct (find_min_entity_needed_selected tie_catalog [11101])
    as (Hnd & _ & _ & Hsize).
  - unfold dict_wf, dict_keys. simpl. apply (bool_decide_unpack _). by vm_compute.
  - by vm_compute.
  - split; [exact Hnd|exact Hsize].
Defined.

(** ** When the redistribution raises *)

Lemma rescan_loop_keys item_list rest c gr log gl' :
  drop c item_list = rest →
  rescan_loop item_list rest c (gr, log) = Some gl' →
  ∀ name, name ∈ rest → name ∈ dict_keys gr.
Proof.
  revert c gr log. induction rest as [|sub_item rest IH]; intros c gr log Hdrop.
  { by intros _ name ?%elem_of_nil. }
  simpl.
  assert (item_list !! c = Some sub_item) as Hc.
  { rewrite <- (Nat.add_0_r c), <- lookup_drop, Hdrop. done. }
  assert (drop (S c) item_list = rest) as Hdrop'.
  { replace (S c) with (c + 1)%nat by lia.
    by rewrite <- drop_drop, Hdrop. }
  destruct (rescan_step item_list c sub_item (gr, log)) as [[gr1 log1]|] eqn:Hstep;
    [|done]. simpl. intros Hloop name [->|Hname]%elem_of_cons.
  - unfold rescan_step in Hstep. simpl in Hstep.
    destruct (dict_get sub_item gr) as [it|] eqn:Hit; [|done].
    apply dict_get_is_Some. by eexists.
  - apply rescan_step_spec in Hstep as (new & _ & [Hkeys _] & _); [|done].
    rewrite <- Hkeys. by eapply IH.
Qed.

Lemma rescan_chains_keys groups gr log gl' :
  rescan_chains groups (gr, log) = Some gl' →
  ∀ item_list name, item_list ∈ groups → name ∈ item_list →
                    name ∈ dict_keys gr.
Proof.
  revert gr log. induction groups as [|item_list groups IH]; intros gr log.
  { by intros _ il name ?%elem_of_nil. }
  simpl.
  destruct (rescan_loop item_list item_list 0%nat (gr, log)) as [[gr1 log1]|] eqn:Hloop;
    [|done]. simpl. intros Hrest il name [->|Hil]%elem_of_cons Hname.
  - by apply (rescan_loop_keys item_list item_list 0%nat gr log _ eq_refl Hloop).
  - apply rescan_loop_spec in Hloop as (new & _ & [Hkeys _] & _); [|done].
    rewrite <- Hkeys. by eapply IH.
Qed.

(** X8.  When every [extra] of the dictionary is below [2 ^ 1024], so
    that no quotient of line 238 is too large for a float,
    [process_item_iterative] returns exactly when every name of every
    chain is a key of the dictionary; otherwise it stops on a
    [KeyError]. *)
Theorem process_item_iterative_returns_iff groups gr :
  extras_fit gr →
  is_Some (process_item_iterative groups gr) ↔
  ∀ item_list name, item_list ∈ groups → name ∈ item_list →
                    name ∈ dict_keys gr.
Proof.
  intros Hfit. split; [|by apply process_item_iterative_total].
  unfold process_item_iterative, process_item_iterative_log.
  rewrite process_chains_rescan.
  destruct (rescan_chains groups (gr, [])) as [gl|] eqn:Hrun.
  - intros _. by eapply rescan_chains_keys.
  - by intros [? ?].
Qed.

Lemma process_item_iterative_returns_iff_witness :
  is_Some (process_item_iterative [["A"; "B"; "C"]%string] chain_ABCD) ↔
  ∀ item_list name, item_list ∈ [["A"; "B"; "C"]%string] → name ∈ item_list →
                    name ∈ dict_keys chain_ABCD.
Proof.
  apply (process_item_iterative_returns_iff [["A"; "B"; "C"]%string] chain_ABCD).
  intros k it. unfold chain_ABCD. simpl.
  repeat case_decide; intros [= <-]; by vm_compute.
Defined.

(** X21.  The division of line 238 goes through a float.  On a chain of
    two keys, when the first item has an [extra] of [3 * 2 ^ 1024] or
    more and the second has none, a third of the first is too large for
    a float and the call raises ([OverflowError]), although both names
    are keys of the dictionary. *)
Theorem process_item_iterative_overflow (ka kb : string) (a b : item) :
  ka ≠ kb → 3 * 2 ^ 1024 ≤ extra a → extra b = 0 →
  process_item_iterative [[ka; kb]] [(ka, a); (kb, b)] = None ∧
  ∀ name, name ∈ [ka; kb] → name ∈ dict_keys [(ka, a); (kb, b)].
Proof.
  intros Hne Ha Hb. split; [|intros name Hname; exact Hname].
  assert (kb ≠ ka) as Hne' by congruence.
  assert (0 < 2 ^ 1024) as Hp by (apply Z.pow_pos_nonneg; lia).
  unfold process_item_iterative, process_item_iterative_log. simpl.
  unfold process_chain. simpl. unfold chain_step. simpl.
  rewrite decide_True by done. simpl.
  rewrite bool_decide_true by lia. simpl.
  unfold search_from. simpl.
  rewrite decide_False by done. rewrite decide_True by done. simpl.
  rewrite bool_decide_true by done. simpl.
  rewrite !(decide_False (P := kb = ka)) by done.
  rewrite !(decide_True (P := kb = kb)) by done.
  rewrite !(decide_True (P := ka = ka)) by done. simpl.
  unfold div_pow3. rewrite true_divide_overflows; [done|lia|].
  change (3 ^ (Z.of_nat 1 - Z.of_nat 0)) with 3. lia.
Qed.

Lemma process_item_iterative_overflow_witness :
  process_item_iterative [["A"; "B"]%string]
    [("A"%string, Item "A" 104301 (10 ^ 400) 0);
     ("B"%string, Item "B" 104302 0 0)] = None.
Proof.
  apply (process_item_iterative_overflow "A" "B"
           (Item "A" 104301 (10 ^ 400) 0) (Item "B" 104302 0 0)).
  - done.
  - by vm_compute.
  - done.
Defined.

(** X22.  The amount of line 238, [int(extra / 3 ** d)], is computed
    through a float.  For an [extra] below [2 ^ 53] the division does
    not overflow and the amount is the integer quotient of [extra] by
    [3 ^ d], rounded down.  Above [2 ^ 53] it need not be: for an
    [extra] of 13510798882111490 and a target one position ahead the
    amount is 4503599627370497, one more than the integer quotient. *)
Theorem int_div_pow3_exact :
  (∀ e d, 0 < e < 2 ^ 53 → 0 ≤ d →
     too_large (div_pow3 e d) = false ∧ int_div_pow3 e d = e / 3 ^ d) ∧
  2 ^ 53 < 13510798882111490 ∧
  too_large (div_pow3 13510798882111490 1) = false ∧
  int_div_pow3 13510798882111490 1 = 4503599627370497 ∧
  13510798882111490 / 3 ^ 1 = 4503599627370496.
Proof.
  split_and!; [|by vm_compute..].
  intros e d He Hd. unfold int_div_pow3, div_pow3.
  rewrite bool_decide_true by done.
  apply true_divide_exact; [done|]. apply Z.pow_pos_nonneg; lia.
Qed.

Lemma int_div_pow3_exact_witness :
  too_large (div_pow3 30 1) = false ∧ int_div_pow3 30 1 = 30 / 3 ^ 1.
Proof.
  apply (proj1 int_div_pow3_exact 30 1); [by vm_compute|lia].
Defined.

(** ** The counts only go down *)

Lemma lowered_refl gr : lowered gr gr.
Proof. intros k it Hk. exists it. by split_and!. Qed.

Lemma lowered_trans gr1 gr2 gr3 :
  lowered gr1 gr2 → lowered gr2 gr3 → lowered gr1 gr3.
Proof.
  intros H12 H23 k it Hk.
  destruct (H12 k it Hk) as (it2 & Hk2 & He2 & Hn2 & Hs2).
  destruct (H23 k it2 Hk2) as (it3 & Hk3 & He3 & Hn3 & Hs3).
  exists it3. split_and!; [done|congruence|lia|].
  intros Hne. rewrite Hs3, Hs2; [done|done|congruence].
Qed.

Lemma int_div_pow3_nonneg e d : 0 < e → 0 < d → 0 ≤ int_div_pow3 e d.
Proof.
  intros He Hd. unfold int_div_pow3, div_pow3. rewrite bool_decide_true by lia.
  apply true_divide_nonneg; [lia|]. apply Z.pow_pos_nonneg; lia.
Qed.

Lemma rescan_step_lowered item_list c sub_item gr log gr' log' :
  rescan_step item_list c sub_item (gr, log) = Some (gr', log') →
  lowered gr gr'.
Proof.
  unfold rescan_step. simpl.
  destruct (dict_get sub_item gr) as [it|] eqn:Hsub; [|done]. simpl.
  case_bool_decide as Hpos; [|intros [= <- <-]; apply lowered_refl].
  destruct (search_from gr item_list c) as [nvi|] eqn:Hs; [|done]. simpl.
  destruct (adjust_target gr item_list c sub_item nvi) as [gr1|] eqn:Hadj;
    [|done]. simpl. intros [= <- <-].
  destruct nvi as [j|]; [|injection Hadj as <-; apply lowered_refl].
  apply search_from_Some in Hs as (Hlt & Hz & _).
  unfold adjust_target in Hadj. unfold extra_at in Hz.
  destruct (item_list !! j) as [target|]; [|done]. simpl in *.
  destruct (dict_get target gr) as [t|] eqn:Ht; [|done]. simpl in *.
  rewrite Hsub in Hadj. simpl in Hadj.
  destruct (too_large _); [done|]. injection Hadj as <-.
  injection Hz as Hz.
  intros k it' Hk. destruct (decide (target = k)) as [<-|Hne].
  - rewrite dict_get_set_eq. eexists. split; [done|].
    rewrite Ht in Hk. injection Hk as <-. simpl. split_and!; [done| |done].
    pose proof (int_div_pow3_nonneg (extra it) (Z.of_nat j - Z.of_nat c)). lia.
  - rewrite dict_get_set_ne by done. exists it'. by split_and!.
Qed.

Lemma rescan_loop_lowered item_list rest c gr log gr' log' :
  rescan_loop item_list rest c (gr, log) = Some (gr', log') →
  lowered gr gr'.
Proof.
  revert c gr log. induction rest as [|sub_item rest IH]; intros c gr log; simpl.
  { intros [= <- <-]. apply lowered_refl. }
  destruct (rescan_step item_list c sub_item (gr, log)) as [[gr1 log1]|] eqn:Hstep;
    [|done]. simpl. intros Hloop.
  eapply lowered_trans; [by eapply rescan_step_lowered|by eapply IH].
Qed.

Lemma rescan_chains_lowered groups gr log gr' log' :
  rescan_chains groups (gr, log) = Some (gr', log') →
  lowered gr gr'.
Proof.
  revert gr log. induction groups as [|item_list groups IH]; intros gr log; simpl.
  { intros [= <- <-]. apply lowered_refl. }
  destruct (rescan_loop item_list item_list 0%nat (gr, log)) as [[gr1 log1]|] eqn:Hloop;
    [|done]. simpl. intros Hrest.
  eapply lowered_trans; [by eapply rescan_loop_lowered|by eapply IH].
Qed.

Lemma process_item_iterative_lowered groups gr gr' :
  process_item_iterative groups gr = Some gr' → lowered gr gr'.
Proof.
  unfold process_item_iterative, process_item_iterative_log.
  rewrite process_chains_rescan.
  destruct (rescan_chains groups (gr, [])) as [[gr1 log]|] eqn:Hrun; [|done].
  intros [= <-]. by eapply rescan_chains_lowered.
Qed.

(** X9.  The redistribution never raises a count: after a call that
    returns, the [num] under every key is at most what it was, and it
    is what it was for every item whose [extra] is not zero (only items
    with [extra == 0] are adjusted). *)
Theorem process_item_iterative_lowers groups gr gr' :
  process_item_iterative groups gr = Some gr' →
  ∀ k it, dict_get k gr = Some it →
    ∃ it', dict_get k gr' = Some it' ∧ num it' ≤ num it ∧
           (extra it ≠ 0 → num it' = num it).
Proof.
  intros Hrun k it Hk.
  destruct (process_item_iterative_lowered _ _ _ Hrun k it Hk)
    as (it' & Hk' & _ & Hle & Hsame).
  by exists it'.
Qed.

Lemma process_item_iterative_lowers_witness :
  ∃ it', dict_get "D"%string
           [ ("A"%string, Item "A" 104301 1 10);
             ("B"%string, Item "B" 104302 0 20);
             ("C"%string, Item "C" 104303 5 30);
             ("D"%string, Item "D" 104304 0 39) ] = Some it' ∧
         num it' ≤ 40 ∧ (0 ≠ 0 → num it' = 40).
Proof.
  apply (process_item_iterative_lowers [["A"; "B"; "C"; "D"]%string] chain_ABCD
           _ eq_refl "D"%string (Item "D" 104304 0 40) eq_refl).
Defined.

(** ** Records of one name *)

Lemma cleaned_items_of_snoc materials m :
  cleaned_items_of (materials ++ [m])
    = clean_one (cleaned_items_of materials) m.
Proof. unfold cleaned_items_of. by rewrite foldl_app. Qed.

Lemma clean_one_cases d m :
  (clean_one d m = dict_set (normalize (mat_name m)) (entry_of m) d ∧
   ∀ old, dict_get (normalize (mat_name m)) d = Some old →
          num old < new_num_of m) ∨
  (clean_one d m = d ∧
   ∃ old, dict_get (normalize (mat_name m)) d = Some old ∧
          new_num_of m ≤ num old).
Proof.
  unfold clean_one. fold (new_num_of m). fold (entry_of m).
  destruct (dict_get (normalize (mat_name m)) d) as [old|] eqn:Hget.
  - case_bool_decide as Hcmp.
    + left. split; [done|]. by intros ? [= <-].
    + right. split; [done|]. exists old. split; [done|lia].
  - left. split; [done|]. by intros ? [=].
Qed.

Lemma cleaned_items_of_present materials m :
  m ∈ materials →
  is_Some (dict_get (normalize (mat_name m)) (cleaned_items_of materials)).
Proof.
  induction materials as [|m' materials IH] using rev_ind.
  { by intros ?%elem_of_nil. }
  rewrite cleaned_items_of_snoc. intros Hin.
  assert (∀ k, is_Some (dict_get k (cleaned_items_of materials)) →
               is_Some (dict_get k (clean_one (cleaned_items_of materials) m')))
    as Hkeep.
  { intros k Hk.
    destruct (clean_one_cases (cleaned_items_of materials) m')
      as [[-> _]|[-> _]]; [|done].
    destruct (decide (normalize (mat_name m') = k)) as [<-|Hne].
    - rewrite dict_get_set_eq. by eexists.
    - by rewrite dict_get_set_ne. }
  apply elem_of_app in Hin as [Hin|Hin%list_elem_of_singleton].
  - by apply Hkeep, IH.
  - subst m'.
    destruct (clean_one_cases (cleaned_items_of materials) m)
      as [[-> _]|[-> (old & -> & _)]]; [|by eexists].
    rewrite dict_get_set_eq. by eexists.
Qed.

(** The record an entry is made of. *)
Lemma cleaned_items_of_origin materials k it :
  dict_get k (cleaned_items_of materials) = Some it →
  ∃ before m after,
    materials = before ++ m :: after ∧
    k = normalize (mat_name m) ∧ it = entry_of m ∧
    (∀ m', m' ∈ before → normalize (mat_name m') = k →
           new_num_of m' < new_num_of m) ∧
    (∀ m', m' ∈ after → normalize (mat_name m') = k →
           new_num_of m' ≤ new_num_of m).
Proof.
  revert k it. induction materials as [|m0 materials IH] using rev_ind.
  { done. }
  intros k it. rewrite cleaned_items_of_snoc.
  assert (∀ k it, k ≠ normalize (mat_name m0) →
            dict_get k (cleaned_items_of materials) = Some it →
            ∃ before m after,
              materials ++ [m0] = before ++ m :: after ∧
              k = normalize (mat_name m) ∧ it = entry_of m ∧
              (∀ m', m' ∈ before → normalize (mat_name m') = k →
                     new_num_of m' < new_num_of m) ∧
              (∀ m', m' ∈ after → normalize (mat_name m') = k →
                     new_num_of m' ≤ new_num_of m)) as Hother.
  { intros k' it' Hne Hget.
    destruct (IH k' it' Hget) as (before & m & after & -> & -> & -> & Hb & Ha).
    exists before, m, (after ++ [m0]).
    split_and!; [by rewrite <- app_assoc|done|done|done|].
    intros m' [Hm'|Hm'%list_elem_of_singleton]%elem_of_app Hname;
      [by apply Ha|]. subst m'. by destruct Hne. }
  destruct (clean_one_cases (cleaned_items_of materials) m0)
    as [[-> Hold]|[-> (old & Hget & Hle)]].
  - destruct (decide (normalize (mat_name m0) = k)) as [<-|Hne].
    + rewrite dict_get_set_eq. intros [= <-].
      exists materials, m0, []. split_and!; [done|done|done| |].
      * intros m' Hm' Hname.
        destruct (cleaned_items_of_present materials m' Hm') as [old Hget].
        rewrite Hname in Hget. specialize (Hold old Hget).
        destruct (IH _ _ Hget) as (before & m & after & -> & _ & -> & Hb & Ha).
        simpl in Hold.
        apply elem_of_app in Hm' as [Hm'|[->|Hm']%elem_of_cons].
        -- specialize (Hb m' Hm' Hname). lia.
        -- done.
        -- specialize (Ha m' Hm' Hname). lia.
      * by intros m' ?%elem_of_nil.
    + rewrite dict_get_set_ne by done. by apply Hother.
  - destruct (decide (normalize (mat_name m0) = k)) as [<-|Hne].
    + rewrite Hget. intros [= <-].
      destruct (IH _ _ Hget) as (before & m & after & -> & Hk & -> & Hb & Ha).
      exists before, m, (after ++ [m0]).
      split_and!; [by rewrite <- app_assoc|done|done|done|].
      intros m' [Hm'|Hm'%list_elem_of_singleton]%elem_of_app Hname;
        [by apply Ha|]. subst m'. simpl in Hle. done.
    + by apply Hother.
Qed.

(** X10.  Every record has an entry under its normalized name, and the
    entry under a name is made of the first record, among those of that
    name, with the greatest [num - lack_num + extra]: the records of the
    name before it have strictly less, those after it no more.  So the
    [num] of the entry is the greatest of the name. *)
Theorem cleaned_items_of_dedup materials :
  (∀ m, m ∈ materials →
     ∃ it, dict_get (normalize (mat_name m)) (cleaned_items_of materials)
             = Some it ∧
           new_num_of m ≤ num it) ∧
  (∀ k it, dict_get k (cleaned_items_of materials) = Some it →
     ∃ before m after,
       materials = before ++ m :: after ∧
       k = normalize (mat_name m) ∧
       it = Item k (mat_id m) (mat_extra m)
              (mat_num m - mat_lack_num m + mat_extra m) ∧
       (∀ m', m' ∈ before → normalize (mat_name m') = k →
              new_num_of m' < new_num_of m) ∧
       (∀ m', m' ∈ after → normalize (mat_name m') = k →
              new_num_of m' ≤ new_num_of m)).
Proof.
  split.
  - intros m Hm.
    destruct (cleaned_items_of_present materials m Hm) as [it Hget].
    exists it. split; [done|].
    destruct (cleaned_items_of_origin _ _ _ Hget)
      as (before & m0 & after & -> & Hk & -> & Hb & Ha).
    simpl. apply elem_of_app in Hm as [Hm|[->|Hm]%elem_of_cons].
    + specialize (Hb m Hm eq_refl). lia.
    + done.
    + by apply Ha.
  - intros k it Hget.
    destruct (cleaned_items_of_origin _ _ _ Hget)
      as (before & m & after & -> & -> & -> & Hb & Ha).
    by exists before, m, after.
Qed.

Lemma cleaned_items_of_dedup_witness :
  ∃ it, dict_get (normalize "Mora") (cleaned_items_of mora_records) = Some it ∧
        new_num_of (Material 202 "Mora" 100 0 0) ≤ num it.
Proof.
  destruct (cleaned_items_of_dedup mora_records) as [Hpresent _].
  apply (Hpresent (Material 202 "Mora" 100 0 0)). left.
Defined.

(** ** The sort *)

Lemma insert_by_id_desc_sorted x l :
  ids_descend l → ids_descend (insert_by_id_desc x l).
Proof.
  unfold ids_descend. induction 1 as [|y l Hs IH Hy]; simpl.
  { repeat constructor. }
  case_bool_decide as Hcmp.
  - constructor; [by constructor|]. constructor; [done|].
    eapply Forall_impl; [exact Hy|]. intros z Hz. simpl in Hz. lia.
  - constructor; [done|].
    rewrite insert_by_id_desc_perm. constructor; [lia|done].
Qed.

Lemma sorted_by_id_desc_sorted l : ids_descend (sorted_by_id_desc l).
Proof.
  unfold sorted_by_id_desc. induction l as [|x l IH]; simpl.
  - constructor.
  - by apply insert_by_id_desc_sorted.
Qed.

Lemma insert_by_id_desc_filter i x l :
  filter (λ it, id it = i) (insert_by_id_desc x l)
    = filter (λ it, id it = i) (x :: l).
Proof.
  induction l as [|y l IH]; simpl; [done|].
  case_bool_decide as Hcmp; [done|].
  rewrite (filter_cons _ y), IH, !(filter_cons _ x), (filter_cons _ y).
  repeat case_decide; try done. lia.
Qed.

Lemma sorted_by_id_desc_stable i l :
  filter (λ it, id it = i) (sorted_by_id_desc l) = filter (λ it, id it = i) l.
Proof.
  unfold sorted_by_id_desc. induction l as [|x l IH]; simpl; [done|].
  rewrite insert_by_id_desc_filter, !(filter_cons _ x), IH. done.
Qed.

(** X11.  The sort of [clean_up_materials] keeps the items, puts them in
    descending order of id, and leaves the items of one id in the order
    they had (the sort is stable). *)
Theorem sorted_by_id_desc_spec (l : list item) :
  sorted_by_id_desc l ≡ₚ l ∧
  ids_descend (sorted_by_id_desc l) ∧
  ∀ i, filter (λ it, id it = i) (sorted_by_id_desc l)
       = filter (λ it, id it = i) l.
Proof.
  split_and!.
  - apply sorted_by_id_desc_perm.
  - apply sorted_by_id_desc_sorted.
  - intros i. apply sorted_by_id_desc_stable.
Qed.

(** ** The chains *)

Lemma StronglySorted_sublist {A} (R : relation A) (l k : list A) :
  StronglySorted R l → k `sublist_of` l → StronglySorted R k.
Proof.
  intros Hs Hsub. revert Hs.
  induction Hsub as [|x k l Hsub IH|x k l Hsub IH]; intros Hs.
  - constructor.
  - apply StronglySorted_cons in Hs as [Hx Hs]. apply StronglySorted_cons.
    split; [|by apply IH]. rewrite Forall_forall in Hx. apply Forall_forall.
    intros y Hy. apply Hx. by eapply elem_of_sublist.
  - apply StronglySorted_cons in Hs as [_ Hs]. by apply IH.
Qed.

Lemma StronglySorted_reverse {A} (R : relation A) (l : list A) :
  StronglySorted R l → StronglySorted (flip R) (reverse l).
Proof.
  induction 1 as [|x l Hs IH Hx]; [constructor|].
  rewrite reverse_cons. apply StronglySorted_app. split_and!.
  - intros y z Hy ->%list_elem_of_singleton. rewrite elem_of_reverse in Hy.
    rewrite Forall_forall in Hx. unfold flip. by apply Hx.
  - done.
  - repeat constructor.
Qed.

Lemma chunks_sublist {A} (n : nat) (l c : list A) :
  (0 < n)%nat → c ∈ chunks n l → c `sublist_of` l.
Proof.
  intros Hn.
  apply (chunks_ind n (λ l cs, c ∈ cs → c `sublist_of` l)); [done| |].
  - by intros ?%elem_of_nil.
  - intros x l' IH [->|Hc]%elem_of_cons.
    + apply sublist_take.
    + etrans; [by apply IH|apply sublist_drop].
Qed.

Lemma chains_of_items tier group chain :
  (0 < tier)%nat → ids_descend group →
  chain ∈ chains_of tier group →
  ∃ items, chain = good <$> items ∧ ids_ascend items ∧
           (0 < length items ≤ tier)%nat ∧ ∀ it, it ∈ items → it ∈ group.
Proof.
  intros Htier Hs. unfold chains_of.
  intros (c & -> & Hc)%list_elem_of_fmap.
  exists (reverse c). split_and!.
  - by rewrite fmap_reverse.
  - apply (StronglySorted_reverse (λ x y, id y ≤ id x)).
    eapply StronglySorted_sublist; [exact Hs|]. by eapply chunks_sublist.
  - rewrite length_reverse.
    pose proof (chunks_sizes tier group Htier) as Hsizes.
    rewrite Forall_forall in Hsizes. by apply Hsizes.
  - rewrite length_reverse.
    pose proof (chunks_sizes tier group Htier) as Hsizes.
    rewrite Forall_forall in Hsizes. by apply Hsizes.
  - intros it Hit. rewrite elem_of_reverse in Hit.
    apply (elem_of_sublist c group it Hit). by apply (chunks_sublist tier).
Qed.

Lemma concat_chains_of tier group :
  (0 < tier)%nat → concat (chains_of tier group) ≡ₚ good <$> group.
Proof.
  intros Htier. unfold chains_of.
  rewrite <- (concat_chunks tier group Htier) at 2.
  induction (chunks tier group) as [|c cs IH]; [done|].
  rewrite !fmap_cons. simpl. rewrite fmap_app, reverse_Permutation. by f_equiv.
Qed.

(** X12.  Every chain is made of between one and four items of one tier
    (at most three for tier 3) listed in ascending order of id, and all
    the chains together hold the name of each item of tier 4 and tier 3
    once: the names of the two groups, up to order. *)
Theorem materials_group_to_check_chains (cleaned_items : list (string * item)) :
  (∀ chain, chain ∈ materials_group_to_check cleaned_items →
     ∃ tier items,
       (tier = 4%nat ∨ tier = 3%nat) ∧
       chain = good <$> items ∧
       ids_ascend items ∧ (0 < length items ≤ tier)%nat ∧
       (∀ it, it ∈ items →
          it ∈ dict_values cleaned_items ∧ tier_of (id it) = Some tier)) ∧
  concat (materials_group_to_check cleaned_items)
    ≡ₚ good <$> (tier_group 4 cleaned_items ++ tier_group 3 cleaned_items).
Proof.
  unfold materials_group_to_check. rewrite material_groups_filter.
  cbn [fst snd]. fold (tier_group 4 cleaned_items).
  fold (tier_group 3 cleaned_items).
  assert (∀ tier, ids_descend (tier_group tier cleaned_items)) as Hdesc.
  { intros tier. eapply StronglySorted_sublist;
      [apply sorted_by_id_desc_sorted|apply sublist_filter]. }
  assert (∀ tier it, it ∈ tier_group tier cleaned_items →
            it ∈ dict_values cleaned_items ∧ tier_of (id it) = Some tier)
    as Hmem.
  { intros tier it [Ht Hit]%list_elem_of_filter.
    by rewrite sorted_by_id_desc_perm in Hit. }
  split.
  - intros chain [Hc|Hc]%elem_of_reverse%elem_of_app.
    + destruct (chains_of_items 4 _ chain ltac:(lia) (Hdesc 4%nat) Hc)
        as (items & -> & Hasc & Hlen & Hsub).
      exists 4%nat, items. split_and!; [by left|done|done|lia|lia|].
      intros it Hit. by apply Hmem, Hsub.
    + destruct (chains_of_items 3 _ chain ltac:(lia) (Hdesc 3%nat) Hc)
        as (items & -> & Hasc & Hlen & Hsub).
      exists 3%nat, items. split_and!; [by right|done|done|lia|lia|].
      intros it Hit. by apply Hmem, Hsub.
  - rewrite reverse_Permutation, concat_app, fmap_app.
    by rewrite !concat_chains_of by lia.
Qed.

Lemma materials_group_to_check_chains_witness :
  ∃ tier items,
    (tier = 4%nat ∨ tier = 3%nat) ∧
    ["TeachingsOfFreedom"; "GuideToFreedom"]%string = good <$> items ∧
    ids_ascend items ∧ (0 < length items ≤ tier)%nat.
Proof.
  destruct (materials_group_to_check_chains (cleaned_items_of crown_records))
    as [Hchains _].
  destruct (Hchains ["TeachingsOfFreedom"; "GuideToFreedom"]%string)
    as (tier & items & Htier & Hnames & Hasc & Hlen & _).
  { vm_compute. left. }
  by exists tier, items.
Defined.

(** ** From the records to the export *)

Lemma process_item_iterative_cleaned_ok groups gr gr' :
  cleaned_ok gr → process_item_iterative groups gr = Some gr' →
  cleaned_ok gr'.
Proof.
  intros [Hwf Hgood]. unfold process_item_iterative, process_item_iterative_log.
  rewrite process_chains_rescan.
  destruct (rescan_chains groups (gr, [])) as [[gr1 log]|] eqn:Hrun; [|done].
  intros [= <-].
  apply rescan_chains_spec in Hrun as (new & _ & [Hkeys Hf] & _).
  assert (dict_wf gr1) as Hwf1 by (unfold dict_wf; by rewrite Hkeys).
  split; [done|]. intros k it' Hin.
  assert (k ∈ dict_keys gr) as Hk.
  { rewrite <- Hkeys. apply list_elem_of_fmap. by exists (k, it'). }
  apply dict_get_is_Some in Hk as [it Hit].
  destruct (Hf k it Hit) as (it1 & Hit1 & Hg & _).
  rewrite (dict_get_elem_wf k it' gr1 Hwf1 Hin) in Hit1.
  injection Hit1 as <-. rewrite Hg. by apply Hgood, dict_get_Some_elem.
Qed.

Section DictSetAbsent.
Context {K V : Type} `{EqDecision K}.
Implicit Types (d : list (K * V)) (k : K) (v : V).

Lemma dict_set_absent k v d :
  k ∉ dict_keys d → dict_set k v d = d ++ [(k, v)].
Proof.
  unfold dict_keys. induction d as [|[k' v'] d IH]; simpl; [done|].
  intros Hk. rewrite decide_False; [|intros ->; apply Hk; left].
  f_equal. apply IH. intros Hin. apply Hk. by right.
Qed.
End DictSetAbsent.

Lemma dump_good_from (out : list (string * Z)) (d : list (string * item)) :
  (∀ k it, (k, it) ∈ d → good it = k) →
  NoDup (dict_keys out ++ dict_keys d) →
  foldl (λ out it, dict_set (good it) (num it) out) out (dict_values d)
    = out ++ ((λ p, (p.1, num p.2)) <$> d).
Proof.
  unfold dict_values. revert out.
  induction d as [|[k it] d IH]; intros out Hgood Hnd; simpl.
  { by rewrite app_nil_r. }
  assert (good it = k) as Hk by (apply Hgood; left).
  unfold dict_keys in *. simpl in Hnd.
  rewrite Hk, dict_set_absent.
  - rewrite IH.
    + by rewrite <- app_assoc.
    + intros k' it' Hin. apply Hgood. by right.
    + unfold dict_keys. rewrite fmap_app. simpl. rewrite <- app_assoc. done.
  - apply NoDup_app in Hnd as (_ & Hdis & _). intros Hin.
    apply (Hdis k Hin). left.
Qed.

Lemma dump_good_cleaned_ok d :
  cleaned_ok d → dump_good_materials d = (λ p, (p.1, num p.2)) <$> d.
Proof.
  intros [Hwf Hgood]. unfold dump_good_materials.
  by rewrite dump_good_from.
Qed.

(** X13.  [clean_up_materials] returns when the [extra] of every record
    is below [2 ^ 1024]: its chains name keys of its dictionary, and no
    quotient of line 238 is too large for a float.  The dictionary a
    call returns has the keys the first loop made, in their order;
    under each key the item has the key as its name, the id and the
    [extra] it was made with, and a [num] that is at most the [num] it
    was made with. *)
Theorem clean_up_materials_result (materials : list material) :
  (Forall (λ m, mat_extra m < 2 ^ 1024) materials →
   is_Some (clean_up_materials materials)) ∧
  ∀ cleaned,
    clean_up_materials materials = Some cleaned →
    dict_keys cleaned = dict_keys (cleaned_items_of materials) ∧
    NoDup (dict_keys cleaned) ∧
    ∀ k it, dict_get k (cleaned_items_of materials) = Some it →
      ∃ it', dict_get k cleaned = Some it' ∧
             good it' = k ∧ id it' = id it ∧ extra it' = extra it ∧
             num it' ≤ num it.
Proof.
  split; [apply clean_up_materials_total|]. intros cleaned Hrun.
  pose proof (cleaned_items_of_ok materials) as [Hwf Hgood].
  unfold clean_up_materials in Hrun.
  pose proof (process_item_iterative_lowered _ _ _ Hrun) as Hlow.
  unfold process_item_iterative, process_item_iterative_log in Hrun.
  rewrite process_chains_rescan in Hrun.
  destruct (rescan_chains _ _) as [[gr1 log]|] eqn:Hchains; [|done].
  injection Hrun as ->.
  apply rescan_chains_spec in Hchains as (new & _ & [Hkeys Hf] & _).
  split_and!; [done|by rewrite Hkeys|].
  intros k it Hit.
  destruct (Hf k it Hit) as (it' & Hit' & Hg & Hi & He & _).
  destruct (Hlow k it Hit) as (it'' & Hit'' & _ & Hle & _).
  rewrite Hit' in Hit''. injection Hit'' as <-.
  exists it'. split_and!; [done| |done..].
  rewrite Hg. by apply Hgood, dict_get_Some_elem.
Qed.

Lemma clean_up_materials_result_witness :
  is_Some (clean_up_materials crown_records).
Proof.
  apply (proj1 (clean_up_materials_result crown_records)).
  unfold crown_records, surplus_records. simpl.
  repeat (apply Forall_cons; split; [by vm_compute|]). apply Forall_nil_2.
Defined.

(** X14.  The [materials] object [dump_good] writes for the result of
    [clean_up_materials] has one entry for each key of the result, in
    the same order, holding the [num] of the item: no name is lost or
    merged on the way out. *)
Theorem dump_good_of_clean_up (materials : list material) cleaned :
  clean_up_materials materials = Some cleaned →
  dump_good_materials cleaned = (λ p, (p.1, num p.2)) <$> cleaned ∧
  dict_keys (dump_good_materials cleaned)
    = dict_keys (cleaned_items_of materials) ∧
  ∀ k, dict_get k (dump_good_materials cleaned) = num <$> dict_get k cleaned.
Proof.
  intros Hrun.
  assert (cleaned_ok cleaned) as Hok.
  { eapply process_item_iterative_cleaned_ok; [|exact Hrun].
    apply cleaned_items_of_ok. }
  assert (dict_keys cleaned = dict_keys (cleaned_items_of materials)) as Hkeys.
  { unfold clean_up_materials, process_item_iterative,
      process_item_iterative_log in Hrun.
    rewrite process_chains_rescan in Hrun.
    destruct (rescan_chains _ _) as [[gr1 log]|] eqn:Hchains; [|done].
    injection Hrun as ->.
    by apply rescan_chains_spec in Hchains as (new & _ & [Hkeys _] & _). }
  rewrite dump_good_cleaned_ok by done. split_and!; [done| |].
  - rewrite <- Hkeys. unfold dict_keys. rewrite <- list_fmap_compose.
    by apply list_fmap_ext.
  - intros k. clear. induction cleaned as [|[k' it] d IH]; simpl; [done|].
    by destruct (decide (k = k')).
Qed.

Lemma dump_good_of_clean_up_witness :
  dump_good_materials
    [("TeachingsOfFreedom"%string, Item "TeachingsOfFreedom" 104301 9 9);
     ("GuideToFreedom"%string, Item "GuideToFreedom" 104302 0 (-3))]
  = [("TeachingsOfFreedom"%string, 9); ("GuideToFreedom"%string, -3)].
Proof.
  apply (dump_good_of_clean_up surplus_records). by vm_compute.
Defined.

(** ** Names *)

Lemma upper_lower c : upper (lower c) = upper c.
Proof. by_cases_on_char c. Qed.

Lemma is_quote_lower c : is_quote (lower c) = is_quote c.
Proof. by_cases_on_char c. Qed.

Lemma is_sep_lower c : is_sep (lower c) = is_sep c.
Proof. by_cases_on_char c. Qed.

Lemma lstrip_quotes_lower (s : list ascii) :
  lstrip_quotes (lower <$> s) = lower <$> lstrip_quotes s.
Proof.
  induction s as [|c s IH]; [done|]. rewrite fmap_cons. cbn [lstrip_quotes].
  rewrite is_quote_lower. destruct (is_quote c); [done|]. by rewrite fmap_cons.
Qed.

Lemma strip_quotes_lower (s : list ascii) :
  strip_quotes (lower <$> s) = lower <$> strip_quotes s.
Proof.
  unfold strip_quotes.
  by rewrite lstrip_quotes_lower, <- fmap_reverse, lstrip_quotes_lower,
    <- fmap_reverse.
Qed.

Lemma re_split_lower (s : list ascii) :
  re_split (lower <$> s) = (λ w : list ascii, lower <$> w) <$> re_split s.
Proof.
  induction s as [|c s IH]; [done|]. rewrite fmap_cons. cbn [re_split].
  rewrite is_sep_lower, IH. destruct (is_sep c); [done|].
  by destruct (re_split s).
Qed.

Lemma capitalize_lower (w : list ascii) : capitalize (lower <$> w) = capitalize w.
Proof.
  destruct w as [|c w]; [done|]. simpl. rewrite upper_lower. f_equal.
  rewrite <- list_fmap_compose. apply list_fmap_ext. intros _ x _.
  apply lower_lower.
Qed.

Lemma normalize_chars_lower (s : list ascii) :
  normalize_chars (lower <$> s) = normalize_chars s.
Proof.
  unfold normalize_chars. rewrite strip_quotes_lower, re_split_lower.
  rewrite <- list_fmap_compose. do 2 f_equal.
  apply list_fmap_ext. intros _ w _. apply capitalize_lower.
Qed.

Lemma normalize_word_name x : word_name (normalize x).
Proof.
  unfold word_name, normalize. rewrite list_ascii_of_string_of_list_ascii.
  apply normalize_chars_is_word.
Qed.

(** X15.  A normalized ASCII name is made of letters, digits and
    underscores only; so are the keys of the dictionary
    [clean_up_materials] returns and of the export, when the records
    have ASCII names. *)
Theorem cleaned_keys_word_names (materials : list material) cleaned k :
  Forall (λ m, ascii_name (mat_name m)) materials →
  clean_up_materials materials = Some cleaned →
  k ∈ dict_keys cleaned →
  word_name k ∧ k ∈ dict_keys (dump_good_materials cleaned) ∧
  ∃ m, m ∈ materials ∧ k = normalize (mat_name m).
Proof.
  intros _ Hrun Hk.
  assert (cleaned_ok cleaned) as Hok.
  { eapply process_item_iterative_cleaned_ok; [|exact Hrun].
    apply cleaned_items_of_ok. }
  assert (dict_keys cleaned = dict_keys (cleaned_items_of materials)) as Hkeys.
  { unfold clean_up_materials, process_item_iterative,
      process_item_iterative_log in Hrun.
    rewrite process_chains_rescan in Hrun.
    destruct (rescan_chains _ _) as [[gr1 log]|] eqn:Hchains; [|done].
    injection Hrun as ->.
    by apply rescan_chains_spec in Hchains as (new & _ & [Hkeys _] & _). }
  assert (∃ m, m ∈ materials ∧ k = normalize (mat_name m)) as (m & Hm & ->).
  { rewrite Hkeys in Hk. apply dict_get_is_Some in Hk as [it Hit].
    destruct (cleaned_items_of_origin _ _ _ Hit)
      as (before & m & after & -> & -> & _).
    exists m. split; [|done]. apply elem_of_app. right. left. }
  split_and!; [apply normalize_word_name| |by exists m].
  rewrite dump_good_cleaned_ok by done. unfold dict_keys in *.
  rewrite <- list_fmap_compose.
  by replace (fst ∘ (λ p : string * item, (p.1, num p.2))) with (@fst string item).
Qed.

Lemma cleaned_keys_word_names_witness :
  word_name "GuideToFreedom".
Proof.
  eapply (cleaned_keys_word_names surplus_records _ "GuideToFreedom").
  - unfold ascii_name. simpl. repeat constructor.
  - by vm_compute.
  - vm_compute. right. left.
Defined.

(** X16.  Normalization does not see the case of the letters: two ASCII
    names that are equal once in lower case have the same normalized
    name, so their records share one entry of the cleaned
    dictionary. *)
Theorem normalize_ignores_case (x y : string) :
  ascii_name x → ascii_name y →
  str_lower x = str_lower y →
  normalize x = normalize y ∧
  ∀ mx my,
    mat_name mx = x → mat_name my = y →
    ∀ materials, mx ∈ materials → my ∈ materials →
      ∃ it, dict_get (normalize x) (cleaned_items_of materials) = Some it ∧
            new_num_of mx ≤ num it ∧ new_num_of my ≤ num it.
Proof.
  intros _ _ Hlow.
  assert (normalize x = normalize y) as Heq.
  { unfold normalize. f_equal.
    rewrite <- (normalize_chars_lower (list_ascii_of_string x)).
    rewrite <- (normalize_chars_lower (list_ascii_of_string y)).
    f_equal. unfold str_lower in Hlow.
    apply (f_equal list_ascii_of_string) in Hlow.
    by rewrite !list_ascii_of_string_of_list_ascii in Hlow. }
  split; [done|]. intros mx my Hx Hy materials Hmx Hmy.
  destruct (cleaned_items_of_present materials mx Hmx) as [it Hit].
  rewrite Hx in Hit. exists it. split; [done|].
  destruct (cleaned_items_of_origin _ _ _ Hit)
    as (before & m & after & -> & Hk & -> & Hb & Ha).
  simpl. split.
  - apply elem_of_app in Hmx as [Hmx|[->|Hmx]%elem_of_cons].
    + specialize (Hb mx Hmx). rewrite Hx in Hb. specialize (Hb eq_refl). lia.
    + done.
    + apply Ha; [done|]. by rewrite Hx.
  - apply elem_of_app in Hmy as [Hmy|[->|Hmy]%elem_of_cons].
    + specialize (Hb my Hmy). rewrite Hy, <- Heq in Hb.
      specialize (Hb eq_refl). lia.
    + done.
    + apply Ha; [done|]. by rewrite Hy, <- Heq.
Qed.

Lemma normalize_ignores_case_witness :
  normalize "Mora" = normalize "mora".
Proof.
  apply (normalize_ignores_case "Mora" "mora").
  - unfold ascii_name. simpl. repeat constructor.
  - unfold ascii_name. simpl. repeat constructor.
  - by vm_compute.
Defined.

(** ** The catalog *)

Lemma item_sets_wf ids items : dict_wf (item_sets ids items).
Proof.
  unfold item_sets. generalize (zip ids items). intros l.
  assert (dict_wf (@nil (Z * gset Z))) as Hnil by apply NoDup_nil_2.
  revert Hnil. generalize (@nil (Z * gset Z)).
  induction l as [|p l IH]; intros d Hd; [done|].
  simpl. apply IH. by apply dict_set_wf.
Qed.

Lemma item_materials_dict_keys ids items :
  dict_keys (item_materials_dict_of ids items) = dict_keys (item_sets ids items).
Proof.
  unfold item_materials_dict_of, dict_keys. rewrite <- list_fmap_compose.
  by apply list_fmap_ext.
Qed.

Lemma item_materials_dict_wf ids items :
  dict_wf (item_materials_dict_of ids items).
Proof.
  unfold dict_wf. rewrite item_materials_dict_keys. apply item_sets_wf.
Qed.

Lemma item_materials_dict_get ids items e :
  dict_get e (item_materials_dict_of ids items)
    = sorted_list <$> dict_get e (item_sets ids items).
Proof.
  unfold item_materials_dict_of.
  induction (item_sets ids items) as [|[k s] d IH]; simpl; [done|].
  by destruct (decide (e = k)).
Qed.

Lemma sorted_list_spec (s : gset Z) :
  StronglySorted Z.lt (sorted_list s) ∧ ∀ m, m ∈ sorted_list s ↔ m ∈ s.
Proof.
  unfold sorted_list. split.
  - pose proof (StronglySorted_merge_sort Z.le (elements s)) as Hs.
    assert (NoDup (merge_sort Z.le (elements s))) as Hnd.
    { rewrite merge_sort_Permutation. apply NoDup_elements. }
    revert Hs Hnd. generalize (merge_sort Z.le (elements s)). intros l.
    induction 1 as [|x l Hs IH Hx]; [constructor|].
    intros [Hnotin Hnd]%NoDup_cons. constructor; [by apply IH|].
    rewrite Forall_forall in Hx. apply Forall_forall. intros y Hy.
    specialize (Hx y Hy). assert (x ≠ y) by (by intros ->). lia.
  - intros m. by rewrite merge_sort_Permutation, elem_of_elements.
Qed.

Section DictFold.
Context {A K V : Type} `{EqDecision K}.
Context (key : A → K) (val : A → V).

(** [{key(p): val(p) for p in l}], continued from [d]. *)
Lemma dict_fold_keys (d : list (K * V)) (l : list A) k :
  k ∈ dict_keys (foldl (λ d p, dict_set (key p) (val p) d) d l) ↔
  k ∈ dict_keys d ∨ k ∈ key <$> l.
Proof.
  revert d. induction l as [|p l IH]; intros d; simpl.
  { split; [by left|]. by intros [?|?%elem_of_nil]. }
  rewrite IH. rewrite <- !dict_get_is_Some, elem_of_cons.
  destruct (decide (key p = k)) as [<-|Hne].
  - rewrite dict_get_set_eq. split; [intros _; right; by left|].
    intros _. left. by eexists.
  - rewrite dict_get_set_ne by done. split.
    + intros [?|?]; [by left|right; by right].
    + intros [?|[?|?]]; [by left|congruence|by right].
Qed.

Lemma dict_fold_get_absent (d : list (K * V)) (l : list A) k :
  k ∉ key <$> l →
  dict_get k (foldl (λ d p, dict_set (key p) (val p) d) d l) = dict_get k d.
Proof.
  revert d. induction l as [|p l IH]; intros d Hk; [done|]. simpl.
  rewrite IH.
  - apply dict_get_set_ne. intros Heq. apply Hk. rewrite <- Heq. left.
  - intros Hin. apply Hk. by right.
Qed.

Lemma dict_fold_get_last (d : list (K * V)) before p after :
  key p ∉ key <$> after →
  dict_get (key p)
    (foldl (λ d p, dict_set (key p) (val p) d) d (before ++ p :: after))
    = Some (val p).
Proof.
  intros Hk. rewrite foldl_app. simpl. rewrite dict_fold_get_absent by done.
  apply dict_get_set_eq.
Qed.

Lemma dict_fold_length (d : list (K * V)) (l : list A) :
  (length (foldl (λ d p, dict_set (key p) (val p) d) d l)
   ≤ length d + length l)%nat.
Proof.
  revert d. induction l as [|p l IH]; intros d; simpl; [lia|].
  etrans; [apply IH|].
  assert (length (dict_set (key p) (val p) d) ≤ S (length d))%nat; [|lia].
  clear. induction d as [|[k v] d IH]; simpl; [lia|].
  destruct (decide (key p = k)); simpl; lia.
Qed.

Lemma dict_fold_NoDup (d : list (K * V)) (l : list A) :
  NoDup (dict_keys d ++ (key <$> l)) →
  dict_keys (foldl (λ d p, dict_set (key p) (val p) d) d l)
    = dict_keys d ++ (key <$> l).
Proof.
  revert d. induction l as [|p l IH]; intros d Hnd; simpl.
  { by rewrite app_nil_r. }
  assert (key p ∉ dict_keys d) as Hp.
  { apply NoDup_app in Hnd as (_ & Hdis & _). intros Hin.
    apply (Hdis _ Hin). left. }
  rewrite dict_set_absent by done. rewrite IH.
  - unfold dict_keys. rewrite fmap_app. simpl. by rewrite <- app_assoc.
  - unfold dict_keys. rewrite fmap_app. simpl. by rewrite <- app_assoc.
Qed.
End DictFold.

Lemma fst_zip_take {A B} (l : list A) (k : list B) :
  (zip l k).*1 = take (length k) l.
Proof.
  revert k. induction l as [|x l IH]; intros [|y k]; simpl; [done..|].
  by rewrite IH.
Qed.

(** X17.  The dictionary [get_all_materials] computes is a catalog
    [find_min_entity_needed] accepts: its keys are the ids that were
    paired with an entry of the response, each once; the list under a
    key is strictly ascending and holds the materials of the three lists
    of the last entry paired with the id; and the greedy cover of it
    returns, with entities that leave no material out: every material
    in the list of an entry of the dictionary is in the list of one of
    the returned entities. *)
Theorem item_materials_dict_catalog (ids : list Z) (items : list item_mat) :
  let d := item_materials_dict_of ids items in
  dict_wf d ∧
  (∀ e, e ∈ dict_keys d ↔ e ∈ take (length items) ids) ∧
  (∀ e ms, dict_get e d = Some ms → StronglySorted Z.lt ms) ∧
  (∀ before id im after,
     zip ids items = before ++ (id, im) :: after → id ∉ after.*1 →
     ∃ ms, dict_get id d = Some ms ∧
           ∀ m, m ∈ ms ↔ m ∈ avatar_consume im ∨
                          m ∈ avatar_skill_consume im ∨ m ∈ weapon_consume im) ∧
  ∃ selected,
    find_min_entity_needed d = Returned selected ∧
    ∀ e ms m, (e, ms) ∈ d → m ∈ ms →
      ∃ e' ms', e' ∈ selected ∧ dict_get e' d = Some ms' ∧ m ∈ ms'.
Proof.
  intros d. pose proof (item_materials_dict_wf ids items) as Hwf.
  split_and!.
  - done.
  - intros e. unfold d. rewrite item_materials_dict_keys. unfold item_sets.
    rewrite (dict_fold_keys fst (λ p, material_ids p.2)), <- fst_zip_take.
    split; [by intros [?%elem_of_nil|?]|by right].
  - intros e ms. unfold d. rewrite item_materials_dict_get.
    destruct (dict_get e (item_sets ids items)) as [s|]; [|done].
    intros [= <-]. apply sorted_list_spec.
  - intros before id im after Hzip Hid. unfold d.
    rewrite item_materials_dict_get. unfold item_sets. rewrite Hzip.
    rewrite (dict_fold_get_last fst (λ p, material_ids p.2) [] before (id, im))
      by done.
    eexists. split; [done|]. intros m.
    rewrite (proj2 (sorted_list_spec _)). unfold material_ids.
    by rewrite elem_of_list_to_set, !elem_of_app.
  - destruct (cover_loop_returns d (length d) (cover_init d) Hwf
                (cover_inv_init _ Hwf))
      as (n & sel & Hn & _ & Hret & _ & Hcomb); [done|].
    exists sel. split; [|by apply combined_materials_all].
    unfold find_min_entity_needed. by apply Hret.
Qed.

Lemma item_materials_dict_catalog_witness :
  ∃ ms, dict_get 10000002
          (item_materials_dict_of (catalog_ids small_avatars small_weapons)
             small_items) = Some ms ∧
        ∀ m, m ∈ ms ↔ m ∈ [104111; 100021] ∨ m ∈ [104302; 104301] ∨ m ∈ [].
Proof.
  destruct (item_materials_dict_catalog
              (catalog_ids small_avatars small_weapons) small_items)
    as (_ & _ & _ & Hlast & _).
  apply (Hlast [(10000005, ItemMat [104302; 104301] [104301; 113001] [])]
           10000002 (ItemMat [104111; 100021] [104302; 104301] [])
           [(11101, ItemMat [] [] [114001; 112002; 114001])]).
  - reflexivity.
  - simpl. intros [[=]|?%elem_of_nil]%elem_of_cons. done.
Defined.

(** X18.  A run without a cache that the service answers computes the
    catalog and writes it.  When no avatar has the id 10000005, the
    next run with the same lists does not take that file for current
    (it has at most as many entries as the lists have items, the test
    wants two more) and computes again; when the ids of the lists are
    distinct, the response has an entry for each and one avatar has the
    id 10000005, the next run returns the file without calling the
    service. *)
Theorem get_all_materials_cache avatars weapons calculate items :
  calculate ((CharacterRequest ∘ generate_avatar_data <$> avatars) ++
             (WeaponRequest ∘ generate_weapon_data <$> weapons)) = inr items →
  let d := item_materials_dict_of (catalog_ids avatars weapons) items in
  get_all_materials None avatars weapons calculate
    = inr (CatalogRun d true (Some d)) ∧
  (length d ≤ length avatars + length weapons)%nat ∧
  (traveler_dupe_count avatars = 0 →
   get_all_materials (Some d) avatars weapons calculate
     = inr (CatalogRun d true (Some d))) ∧
  (NoDup (catalog_ids avatars weapons) →
   length items = (length avatars + length weapons)%nat →
   traveler_dupe_count avatars = 2 →
   get_all_materials (Some d) avatars weapons calculate
     = inr (CatalogRun d false None)).
Proof.
  intros Hcall d.
  assert (length d ≤ length avatars + length weapons)%nat as Hlen.
  { unfold d, item_materials_dict_of, item_sets. rewrite length_fmap.
    etrans; [apply (dict_fold_length fst (λ p, material_ids p.2))|].
    simpl. rewrite length_zip. unfold catalog_ids.
    rewrite length_app, !length_fmap. lia. }
  split_and!.
  - unfold get_all_materials. by rewrite Hcall.
  - done.
  - intros Hnone. unfold get_all_materials, cache_is_current.
    rewrite bool_decide_false by lia. by rewrite Hcall.
  - intros Hnd Hitems Hone. unfold get_all_materials, cache_is_current.
    rewrite bool_decide_true; [done|].
    assert (length d = length avatars + length weapons)%nat as ->; [|lia].
    unfold d. rewrite <- (length_fmap fst). fold (dict_keys (item_materials_dict_of (catalog_ids avatars weapons) items)).
    rewrite item_materials_dict_keys. unfold item_sets.
    rewrite (dict_fold_NoDup fst (λ p, material_ids p.2)).
    + simpl. rewrite fst_zip_take, length_take. unfold catalog_ids.
      rewrite length_app, !length_fmap. lia.
    + simpl. rewrite fst_zip_take. rewrite take_ge; [done|].
      unfold catalog_ids. rewrite length_app, !length_fmap. lia.
Qed.

Lemma get_all_materials_cache_witness :
  get_all_materials
    (Some (item_materials_dict_of (catalog_ids small_avatars small_weapons)
             small_items))
    small_avatars small_weapons (λ _, inr small_items)
  = inr (CatalogRun
           (item_materials_dict_of (catalog_ids small_avatars small_weapons)
              small_items) false None).
Proof.
  apply (get_all_materials_cache small_avatars small_weapons
           (λ _, inr small_items) small_items eq_refl).
  - apply (bool_decide_unpack _). by vm_compute.
  - reflexivity.
  - reflexivity.
Defined.

(** ** What the requests hold *)

Lemma drop_bind_replicate {A} (n k : nat) (l : list A) :
  drop (k * n) (l ≫= replicate n) = drop k l ≫= replicate n.
Proof.
  revert l. induction k as [|k IH]; intros l; [done|].
  destruct l as [|x l].
  { change (@nil A ≫= replicate n) with (@nil A). by rewrite !drop_nil. }
  rewrite bind_cons. cbn [drop]. rewrite <- IH.
  replace (S k * n)%nat with (length (replicate n x) + k * n)%nat
    by (rewrite length_replicate; lia).
  by rewrite drop_app_add.
Qed.

Lemma attach_again (s : nat) w (n : nat) (heap : list avatar_data) :
  foldl (λ h (p : nat * weapon_data), alter (set_weapon p.2) p.1 h)
    (alter (set_weapon w) s heap) (replicate n (s, w))
  = alter (set_weapon w) s heap.
Proof.
  induction n as [|n IH]; [done|]. simpl.
  rewrite list_alter_alter_eq.
  by rewrite (list_alter_ext (set_weapon w ∘ set_weapon w) (set_weapon w)
                heap heap s).
Qed.

Lemma attach_same_weapon (heap : list avatar_data) (s : nat) w (n : nat) :
  (0 < n)%nat →
  attach_weapons heap (zip (replicate n s) (replicate n w))
    = alter (set_weapon w) s heap.
Proof.
  intros Hn. unfold attach_weapons. rewrite zip_with_replicate.
  destruct n as [|n]; [lia|]. simpl. apply attach_again.
Qed.

Lemma attach_weapons_app heap pairs1 pairs2 :
  attach_weapons heap (pairs1 ++ pairs2)
    = attach_weapons (attach_weapons heap pairs1) pairs2.
Proof. unfold attach_weapons. by rewrite foldl_app. Qed.

(** The heap after lines 200-201: block by block, the [k]-th object gets
    the [k]-th weapon. *)
Lemma attach_weapons_blocks (n : nat) before avatar_data_list weapon_data_list :
  (0 < n)%nat →
  attach_weapons (before ++ avatar_data_list)
    (zip (seq (length before) (length avatar_data_list) ≫= replicate n)
         (weapon_data_list ≫= replicate n))
  = before ++ pair_up avatar_data_list weapon_data_list.
Proof.
  intros Hn. revert before weapon_data_list.
  induction avatar_data_list as [|a avatars' IH]; intros before weapons.
  { simpl. by destruct weapons. }
  destruct weapons as [|w weapons'].
  { change (@nil weapon_data ≫= replicate n) with (@nil weapon_data).
    by rewrite zip_with_nil_r. }
  simpl length. simpl seq. rewrite !bind_cons.
  rewrite zip_with_app by (by rewrite !length_replicate).
  rewrite attach_weapons_app, attach_same_weapon by done.
  replace (length before) with (length before + 0)%nat at 1 by lia.
  rewrite alter_app_r. simpl alter.
  replace (before ++ set_weapon w a :: avatars')
    with ((before ++ [set_weapon w a]) ++ avatars') by by rewrite <- app_assoc.
  replace (S (length before)) with (length (before ++ [set_weapon w a]))
    by (rewrite length_app; simpl; lia).
  rewrite IH. simpl. by rewrite <- app_assoc.
Qed.

Lemma omap_deref_replicate (n : nat) (before : list avatar_data) a heap :
  omap (λ r, CharacterRequest <$> (before ++ a :: heap) !! r)
    (replicate n (length before))
  = replicate n (CharacterRequest a).
Proof.
  induction n as [|n IH]; [done|]. csimpl.
  rewrite list_lookup_middle by done. csimpl. by rewrite IH.
Qed.

Lemma omap_deref_blocks (n : nat) (before heap : list avatar_data) :
  omap (λ r, CharacterRequest <$> (before ++ heap) !! r)
    (seq (length before) (length heap) ≫= replicate n)
  = (CharacterRequest <$> heap) ≫= replicate n.
Proof.
  revert before. induction heap as [|a heap IH]; intros before; [done|].
  simpl length. simpl seq. rewrite fmap_cons, !bind_cons, omap_app.
  f_equal; [apply omap_deref_replicate|].
  replace (before ++ a :: heap) with ((before ++ [a]) ++ heap)
    by by rewrite <- app_assoc.
  replace (S (length before)) with (length (before ++ [a]))
    by (rewrite length_app; simpl; lia).
  apply IH.
Qed.

Lemma pair_up_length avatar_data_list weapon_data_list :
  length (pair_up avatar_data_list weapon_data_list) = length avatar_data_list.
Proof.
  revert weapon_data_list.
  induction avatar_data_list as [|a l IH]; intros [|w ws]; simpl; [done..|].
  by rewrite IH.
Qed.

Lemma pair_up_drop avatar_data_list weapon_data_list :
  drop (length weapon_data_list) (pair_up avatar_data_list weapon_data_list)
    = drop (length weapon_data_list) avatar_data_list.
Proof.
  revert weapon_data_list.
  induction avatar_data_list as [|a l IH]; intros [|w ws]; simpl; [done..|].
  apply IH.
Qed.

Lemma fmap_bind_replicate {A B} (f : A → B) (n : nat) (l : list A) :
  f <$> (l ≫= replicate n) = (f <$> l) ≫= replicate n.
Proof.
  induction l as [|x l IH]; [done|].
  rewrite fmap_cons, !bind_cons, fmap_app, IH. by rewrite fmap_replicate.
Qed.

Lemma weapon_body_of_data count (weapons_to_select : list weapon) :
  weapon_body_of count weapons_to_select
    = (generate_weapon_data <$> weapons_to_select) ≫= times count.
Proof. unfold weapon_body_of. by rewrite list_fmap_bind. Qed.

(** X19.  The request list in closed form.  Each selected character is
    requested [count] times, the [k]-th one with the [k]-th selected
    weapon in every copy, as long as there are weapons.  With more
    characters than weapons, the characters left without a weapon are
    requested [count] more times each; otherwise the weapons left over
    follow on their own, [count] times each.  With [count <= 0] the list
    is empty. *)
Theorem calculate_list_closed_form (avatars : list avatar)
    (weapons : list weapon) (entities : list Z) (count : Z) :
  let avatar_data_list :=
    generate_avatar_data <$> filter (λ a, avatar_ident a ∈ entities) avatars in
  let weapon_data_list :=
    generate_weapon_data <$> filter (λ w, weapon_ident w ∈ entities) weapons in
  calculate_list avatars weapons entities count =
    ((CharacterRequest <$> pair_up avatar_data_list weapon_data_list)
       ≫= times count) ++
    (if bool_decide (length weapon_data_list < length avatar_data_list)%nat
     then (CharacterRequest <$> drop (length weapon_data_list) avatar_data_list)
            ≫= times count
     else (WeaponRequest <$> drop (length avatar_data_list) weapon_data_list)
            ≫= times count).
Proof.
  intros avs wds. unfold calculate_list.
  set (avs0 := filter _ avatars) in *. set (wps0 := filter _ weapons) in *.
  rewrite weapon_body_of_data. fold wds.
  assert (length avs0 = length avs) as -> by (unfold avs; by rewrite length_fmap).
  fold avs. unfold avatar_body_refs.
  set (n := Z.to_nat count).
  assert (∀ A, @times A count = replicate n) as Htimes by done.
  rewrite !Htimes. clear Htimes.
  destruct (decide (n = 0)%nat) as [->|Hn].
  { assert (∀ A (l : list A), l ≫= replicate 0 = []) as Hnil.
    { intros A l. induction l; [done|by rewrite bind_cons]. }
    rewrite !Hnil. simpl. by destruct (bool_decide _). }
  assert (0 < n)%nat as Hpos by lia.
  pose proof (attach_weapons_blocks n [] avs wds Hpos) as Hheap.
  simpl in Hheap. rewrite Hheap. clear Hheap.
  assert (∀ A (l : list A), length (l ≫= replicate n) = (length l * n)%nat)
    as Hlen.
  { intros A l. induction l as [|x l IH]; [done|].
    rewrite bind_cons, length_app, length_replicate, IH. simpl. lia. }
  rewrite !Hlen, length_seq.
  pose proof (omap_deref_blocks n [] (pair_up avs wds)) as Hall.
  simpl in Hall. rewrite pair_up_length in Hall.
  rewrite omap_app, Hall.
  destruct (decide (length wds < length avs)%nat) as [Hlt|Hge].
  - rewrite !bool_decide_eq_true_2 by nia. f_equal.
    rewrite drop_bind_replicate, drop_seq. simpl.
    pose proof (omap_deref_blocks n (take (length wds) (pair_up avs wds))
                  (drop (length wds) (pair_up avs wds))) as Hrest.
    rewrite take_drop, length_take, length_drop, pair_up_length in Hrest.
    rewrite Nat.min_l in Hrest by lia.
    by rewrite Hrest, pair_up_drop.
  - rewrite !bool_decide_eq_false_2 by nia. f_equal.
    by rewrite drop_bind_replicate, fmap_bind_replicate.
Qed.

(** ** The script *)



